(** * The compilation-unit driver of the callgraph (cgraphunit.c)

    A shallow embedding of the driver in src/gcc/cgraphunit.c: the tree
    store and the callgraph are explicit heaps indexed by handles, the
    process-wide variables of the C file are fields of one [world] record,
    and every function of the file is a computation in a state-and-error
    monad over that record.  [gcc_assert] and [gcc_unreachable] are the
    errors of the monad. *)

From Stdlib Require Import ZArith Lia Ascii String.
From stdpp Require Import base option list gmap strings pretty.
From coqutil Require Import Datatypes.RecordSettersUsingExistingGetters.

Local Open Scope Z_scope.
Local Open Scope nat_scope.

(** ** Handles

    A [tree], a [struct cgraph_node *], a [struct cgraph_edge *], a
    [struct cgraph_varpool_node *] and a [struct function *] are pointers
    in the C file; here they are keys of the corresponding heap, and the
    null pointer is [None]. *)

Abbreviation tree := nat (only parsing).
Abbreviation node_ptr := nat (only parsing).
Abbreviation edge_ptr := nat (only parsing).
Abbreviation vnode_ptr := nat (only parsing).
Abbreviation fun_ptr := nat (only parsing).

(** ** Tree codes *)

Inductive tree_code_class :=
  | tcc_exceptional | tcc_constant | tcc_type | tcc_declaration
  | tcc_reference | tcc_comparison | tcc_unary | tcc_binary
  | tcc_statement | tcc_expression.

(** Modelled from the spec: the tree-code enumeration (tree.def is not
    among the sources).  The codes cgraphunit.c names are constructors of
    their own; [GENERIC_CODE] stands for any other code below
    [LAST_AND_UNUSED_TREE_CODE] and [LANG_CODE] for a code a front end
    adds at or past it.  Both carry the class the code was declared with. *)
Inductive tree_code :=
  | ERROR_MARK | BLOCK | TREE_LIST
  | FUNCTION_DECL | VAR_DECL | RESULT_DECL
  | ADDR_EXPR | FDESC_EXPR | MODIFY_EXPR | CALL_EXPR
  | GENERIC_CODE (c : tree_code_class)
  | LANG_CODE (c : tree_code_class).

Definition TREE_CODE_CLASS (c : tree_code) : tree_code_class :=
  match c with
  | ERROR_MARK | BLOCK | TREE_LIST => tcc_exceptional
  | FUNCTION_DECL | VAR_DECL | RESULT_DECL => tcc_declaration
  | ADDR_EXPR | FDESC_EXPR | MODIFY_EXPR | CALL_EXPR => tcc_expression
  | GENERIC_CODE k => k
  | LANG_CODE k => k
  end.

Definition TYPE_P (c : tree_code) : bool :=
  match TREE_CODE_CLASS c with tcc_type => true | _ => false end.

Definition DECL_P (c : tree_code) : bool :=
  match TREE_CODE_CLASS c with tcc_declaration => true | _ => false end.

Definition IS_TYPE_OR_DECL_P (c : tree_code) : bool := TYPE_P c || DECL_P c.

(** [(unsigned int) TREE_CODE (t) >= LAST_AND_UNUSED_TREE_CODE] *)
Definition past_generic_codes (c : tree_code) : bool :=
  match c with LANG_CODE _ => true | _ => false end.

(** ** The tree store *)

(** The attributes of a tree node that cgraphunit.c reads or writes
    through the accessor macros of tree.h. *)
Record tree_node := {
  TREE_CODE : tree_code;
  TREE_OPERANDS : list (option tree);
  TREE_STATIC : bool;
  TREE_PUBLIC : bool;
  TREE_USED : bool;
  TREE_ASM_WRITTEN : bool;
  TREE_SYMBOL_REFERENCED : bool;
  DECL_NAME : string;
  MAIN_NAME_P : bool;
  DECL_ATTRIBUTES : list string;
  DECL_ASSEMBLER_NAME : option tree;
  DECL_CONTEXT_FN : option tree;
  DECL_EXTERNAL : bool;
  DECL_COMDAT : bool;
  DECL_INLINE : bool;
  DECL_DECLARED_INLINE_P : bool;
  DECL_UNINLINABLE : bool;
  DECL_ARTIFICIAL : bool;
  DECL_IGNORED_P : bool;
  DECL_NO_INSTRUMENT_FUNCTION_ENTRY_EXIT : bool;
  DECL_STATIC_CONSTRUCTOR : bool;
  DECL_STATIC_DESTRUCTOR : bool;
  DECL_SAVED_TREE : option tree;
  DECL_INITIAL : option tree;
  DECL_RESULT : option tree;
  DECL_STRUCT_FUNCTION : option fun_ptr;
  DECL_SOURCE_LOCATION : nat
}.

(** A freshly made node of the given code: every flag clear, every
    pointer null. *)
Definition make_node (c : tree_code) : tree_node :=
  {| TREE_CODE := c; TREE_OPERANDS := []; TREE_STATIC := false;
     TREE_PUBLIC := false; TREE_USED := false; TREE_ASM_WRITTEN := false;
     TREE_SYMBOL_REFERENCED := false; DECL_NAME := EmptyString;
     MAIN_NAME_P := false; DECL_ATTRIBUTES := [];
     DECL_ASSEMBLER_NAME := None; DECL_CONTEXT_FN := None;
     DECL_EXTERNAL := false; DECL_COMDAT := false; DECL_INLINE := false;
     DECL_DECLARED_INLINE_P := false; DECL_UNINLINABLE := false;
     DECL_ARTIFICIAL := false; DECL_IGNORED_P := false;
     DECL_NO_INSTRUMENT_FUNCTION_ENTRY_EXIT := false;
     DECL_STATIC_CONSTRUCTOR := false; DECL_STATIC_DESTRUCTOR := false;
     DECL_SAVED_TREE := None; DECL_INITIAL := None; DECL_RESULT := None;
     DECL_STRUCT_FUNCTION := None; DECL_SOURCE_LOCATION := 0 |}.

(** A basic block of a control-flow graph, as [cgraph_create_edges]
    reads it: its statements, [bb->count] and [bb->loop_depth]. *)
Record basic_block := {
  bb_stmts : list tree;
  bb_count : Z;
  bb_loop_depth : nat
}.

(** [struct function]: [cfg] is null until the body is lowered. *)
Record function := {
  cfg : option (list basic_block);
  unexpanded_var_list : list tree;
  function_end_locus : nat
}.

(** ** The callgraph *)

Record cgraph_local_info := {
  self_insns : Z;
  is_local : bool;
  externally_visible : bool;
  finalized : bool;
  inlinable : bool;
  disregard_inline_limits : bool;
  redefined_extern_inline : bool
}.

Record cgraph_global_info := {
  inlined_to : option node_ptr;
  insns : Z
}.

(** The back end's per-function record; cgraphunit.c only clears it. *)
Record cgraph_rtl_info := {
  rtl_word : Z
}.

(** [memset (&x, 0, sizeof (x))] on each of the three records. *)
Definition zero_local : cgraph_local_info :=
  {| self_insns := 0%Z; is_local := false; externally_visible := false;
     finalized := false; inlinable := false;
     disregard_inline_limits := false; redefined_extern_inline := false |}.

Definition zero_global : cgraph_global_info :=
  {| inlined_to := None; insns := 0%Z |}.

Definition zero_rtl : cgraph_rtl_info := {| rtl_word := 0%Z |}.

(** [struct cgraph_node].  The chains [callees] (through [next_callee])
    and [callers] (through [next_caller]) are never relinked by
    cgraphunit.c and are kept as lists of edges in chain order;
    [next_needed] and [next_clone] are kept as the pointers they are. *)
Record cgraph_node := {
  decl : tree;
  callees : list edge_ptr;
  callers : list edge_ptr;
  nested : option node_ptr;
  next_needed : option node_ptr;
  next_clone : option node_ptr;
  local : cgraph_local_info;
  global : cgraph_global_info;
  rtl : cgraph_rtl_info;
  needed : bool;
  reachable : bool;
  lowered : bool;
  analyzed : bool;
  output : bool;
  alias : bool
}.

Definition new_cgraph_node (d : tree) : cgraph_node :=
  {| decl := d; callees := []; callers := []; nested := None;
     next_needed := None; next_clone := None;
     local := zero_local; global := zero_global; rtl := zero_rtl;
     needed := false; reachable := false; lowered := false;
     analyzed := false; output := false; alias := false |}.

(** [struct cgraph_edge]; [inline_failed] is the reason string, null
    once the call has been inlined. *)
Record cgraph_edge := {
  caller : node_ptr;
  callee : node_ptr;
  call_stmt : tree;
  inline_failed : option string;
  count : Z;
  loop_nest : nat;
  aux : bool
}.

(** [struct cgraph_varpool_node] *)
Record cgraph_varpool_node := {
  v_decl : tree;
  v_next_needed : option vnode_ptr;
  v_needed : bool;
  v_analyzed : bool;
  v_finalized : bool;
  v_output : bool;
  v_externally_visible : bool;
  v_force_output : bool;
  v_alias : bool
}.

Definition new_varpool_node (d : tree) : cgraph_varpool_node :=
  {| v_decl := d; v_next_needed := None; v_needed := false;
     v_analyzed := false; v_finalized := false; v_output := false;
     v_externally_visible := false; v_force_output := false;
     v_alias := false |}.

(** ** Observable calls

    What the driver hands to the back end, in the order it does so. *)
Inductive event :=
  | EvAnnounce (d : tree)
  | EvExpand (n : node_ptr) (d : tree)
  | EvCdtor (which : ascii) (d : tree) (priority : Z).

(** ** The process state *)

Record world := {
  (* heaps *)
  trees : gmap nat tree_node;
  functions : gmap nat function;
  nodes : gmap nat cgraph_node;
  edges : gmap nat cgraph_edge;
  vnodes : gmap nat cgraph_varpool_node;
  (* cgraph.c *)
  cgraph_hash : gmap nat nat;
  cgraph_nodes : list node_ptr;
  cgraph_n_nodes : nat;
  cgraph_nodes_queue : option node_ptr;
  cgraph_global_info_ready : bool;
  cgraph_function_flags_ready : bool;
  cgraph_varpool_hash : gmap nat nat;
  cgraph_varpool_nodes_queue : option vnode_ptr;
  cgraph_varpool_first_unanalyzed_node : option vnode_ptr;
  (* cgraphunit.c *)
  visited_nodes : option (gset nat);
  first_analyzed : option node_ptr;
  counter : nat;
  (* flags.h, toplev.h, function.h, target.h *)
  flag_unit_at_a_time : bool;
  flag_whole_program : bool;
  flag_really_no_inline : bool;
  warn_unused_parameter : bool;
  dump_tree_all : bool;
  have_ctors_dtors : bool;
  current_function_decl : option tree;
  cfun : option fun_ptr;
  input_location : nat;
  error_mark_node : tree;
  (* the calls made to the back end so far *)
  trace : list event
}.

(** ** The monad *)

Inductive error :=
  | AssertFailure    (* gcc_assert failed *)
  | Unreachable      (* gcc_unreachable reached *)
  | BadPointer       (* a null or dangling pointer was dereferenced *)
  | OutOfFuel.       (* the loop bound of the model was exhausted *)

Inductive res (A : Type) :=
  | Ok (a : A)
  | Err (e : error).
Arguments Ok {A} a.
Arguments Err {A} e.

Definition M (A : Type) : Type := world → res (A * world).

Definition ret {A} (a : A) : M A := λ w, Ok (a, w).

Definition bind {A B} (m : M A) (k : A → M B) : M B :=
  λ w, match m w with
       | Ok (a, w') => k a w'
       | Err e => Err e
       end.

Definition fail {A} (e : error) : M A := λ _, Err e.

Declare Scope cg_scope.
Delimit Scope cg_scope with cg.
Notation "x <- m ;; k" := (bind m (λ x, k))
  (at level 100, m at next level, right associativity) : cg_scope.
Notation "m ;; k" := (bind m (λ _, k))
  (at level 100, right associativity) : cg_scope.
Local Open Scope cg_scope.

Definition get : M world := λ w, Ok (w, w).
Definition gets {A} (f : world → A) : M A := λ w, Ok (f w, w).
Definition modify (f : world → world) : M unit := λ w, Ok (tt, f w).

Definition gcc_assert (b : bool) : M unit :=
  if b then ret tt else fail AssertFailure.

Definition gcc_unreachable {A} : M A := fail Unreachable.

Definition when (b : bool) (m : M unit) : M unit :=
  if b then m else ret tt.

(** A pointer used as a condition: true when it is not null. *)
Definition non_null {A} (o : option A) : bool :=
  match o with Some _ => true | None => false end.

(** [for (x in l) body]: the body runs on the elements in order. *)
Fixpoint for_each {A} (l : list A) (body : A → M unit) : M unit :=
  match l with
  | [] => ret tt
  | x :: l' => body x ;; for_each l' body
  end.

(** Reading through a pointer faults when it is null or dangling. *)
Definition deref {A} (o : option A) : M A :=
  match o with Some a => ret a | None => fail BadPointer end.

Definition the_node (p : node_ptr) : M cgraph_node :=
  w <- get ;; deref (nodes w !! p).

Definition the_edge (e : edge_ptr) : M cgraph_edge :=
  w <- get ;; deref (edges w !! e).

Definition the_vnode (p : vnode_ptr) : M cgraph_varpool_node :=
  w <- get ;; deref (vnodes w !! p).

Definition the_tree (t : tree) : M tree_node :=
  w <- get ;; deref (trees w !! t).

Definition the_function (f : fun_ptr) : M function :=
  w <- get ;; deref (functions w !! f).

(** Writing through a pointer: [p->field = ...]. *)
Definition set_node (p : node_ptr) (f : cgraph_node → cgraph_node) : M unit :=
  n <- the_node p ;; modify (λ w, w <| nodes ::= <[p := f n]> |>).

Definition set_edge (e : edge_ptr) (f : cgraph_edge → cgraph_edge) : M unit :=
  x <- the_edge e ;; modify (λ w, w <| edges ::= <[e := f x]> |>).

Definition set_vnode (p : vnode_ptr)
    (f : cgraph_varpool_node → cgraph_varpool_node) : M unit :=
  n <- the_vnode p ;; modify (λ w, w <| vnodes ::= <[p := f n]> |>).

Definition set_tree (t : tree) (f : tree_node → tree_node) : M unit :=
  x <- the_tree t ;; modify (λ w, w <| trees ::= <[t := f x]> |>).

Definition set_function (p : fun_ptr) (f : function → function) : M unit :=
  x <- the_function p ;; modify (λ w, w <| functions ::= <[p := f x]> |>).

Definition emit (e : event) : M unit :=
  modify (λ w, w <| trace ::= (λ t, t ++ [e]) |>).

(** ** Collaborators outside the driver

    The front end's hooks, the lowering passes, the inliner's oracle, the
    tree walker and the other procedures cgraphunit.c calls but does not
    define.  Each may read and change the whole process state and may
    abort; nothing else is assumed of them. *)

Definition walk_tree_fn : Type :=
  tree → bool → option node_ptr → M (option tree * bool).

Class Externals := {
  (* lang_hooks.callgraph and lang_hooks.tree_inlining *)
  lang_analyze_expr : option walk_tree_fn;
  lang_expand_function : tree → M unit;
  lang_disregard_inline_limits : tree → M bool;
  (* tree walking and the statements of a body *)
  walk_tree : walk_tree_fn → option tree → option node_ptr → M (option tree);
  get_call_expr_in : tree → M (option tree);
  get_callee_fndecl : tree → M (option tree);
  (* lowering, gimplification and the inliner's oracle *)
  tree_lowering_passes : tree → M unit;
  lower_nested_functions : tree → M unit;
  gimplify_function_tree : tree → M unit;
  tree_rest_of_compilation : tree → M unit;
  tree_inlinable_function_p : tree → M bool;
  estimate_num_insns : tree → M Z;
  cgraph_default_inline_p : node_ptr → M bool;
  cgraph_decide_inlining_incrementally : node_ptr → bool → M unit;
  (* the rest of the callgraph code *)
  cgraph_postorder : M (list node_ptr);
  cgraph_varpool_finalize_decl : tree → M unit;
  new_edge_inline_failed : node_ptr → M string;
  (* toplev, varasm, function, ggc, debug *)
  notice_global_symbol : tree → M unit;
  finish_aliases_1 : M unit;
  ggc_collect : M unit;
  deferred_inline_function : tree → M unit;
  do_warn_unused_parameter : tree → M unit;
  push_cfun : option fun_ptr → M unit;
  pop_cfun : M unit;
  get_file_function_name_long : string → M string;
  asm_out_constructor : tree → Z → M unit;
  asm_out_destructor : tree → Z → M unit
}.

(** A call to a collaborator.  The [trace] is the driver's own record of
    what it handed over, so it is the same after the call as before. *)
Definition ext {A} (m : M A) : M A :=
  λ w, match m w with
       | Ok (a, w') => Ok (a, w' <| trace := trace w |>)
       | Err e => Err e
       end.

(** ** The callgraph store (cgraph.c) *)

(** The last node of the [next_needed] chain that starts at [p]. *)
Fixpoint last_needed (fuel : nat) (p : node_ptr) : M node_ptr :=
  match fuel with
  | 0 => fail OutOfFuel
  | S fuel' =>
      n <- the_node p ;;
      match next_needed n with
      | None => ret p
      | Some q => last_needed fuel' q
      end
  end.

(** Modelled from the spec: the enqueue step of [cgraph_mark_reachable_node]
    (cgraph.c is not among the sources).  "Within a single worklist drain,
    nodes are processed in FIFO order of enqueue": the node is linked
    behind the last node of [cgraph_nodes_queue]. *)
Definition enqueue_needed_node (p : node_ptr) : M unit :=
  set_node p (λ n, n <| next_needed := None |>) ;;
  w <- get ;;
  match cgraph_nodes_queue w with
  | None => modify (λ w, w <| cgraph_nodes_queue := Some p |>)
  | Some h =>
      l <- last_needed (S (size (nodes w))) h ;;
      set_node l (λ n, n <| next_needed := Some p |>)
  end.

(** Modelled from the spec: [cgraph_mark_reachable_node] of cgraph.c.
    "[mark_reachable] enqueues onto the reachable-worklist; idempotent;
    forbidden once [global_info_ready]." *)
Definition cgraph_mark_reachable_node (p : node_ptr) : M unit :=
  n <- the_node p ;;
  if reachable n then ret tt
  else
    ready <- gets cgraph_global_info_ready ;;
    gcc_assert (negb ready) ;;
    set_node p (λ n, n <| reachable := true |>) ;;
    enqueue_needed_node p.

(** Modelled from the spec: [cgraph_mark_needed_node] of cgraph.c.
    "[mark_needed] is idempotent; first call enqueues onto the
    needed-worklist.  [needed] implies [reachable]." *)
Definition cgraph_mark_needed_node (p : node_ptr) : M unit :=
  set_node p (λ n, n <| needed := true |>) ;;
  cgraph_mark_reachable_node p.

(** Modelled from the spec: the function [cgraph_node (decl)] of cgraph.c
    (the name [cgraph_node] is the struct's here).  "[node(decl)] interns
    on first use": the node of the intern table if there is one,
    else a new node with every field clear, entered in the table and put
    at the head of the [cgraph_nodes] chain (the reclamation sweep of
    [cgraph_finalize_compilation_unit] walks from the head down to the
    node that was the head at the previous call, so new nodes are at the
    head). *)
Definition cgraph_node_of_decl (d : tree) : M node_ptr :=
  w <- get ;;
  match cgraph_hash w !! d with
  | Some p => ret p
  | None =>
      let p := fresh (dom (nodes w)) in
      modify (λ w, w <| nodes ::= <[p := new_cgraph_node d]> |>
                     <| cgraph_hash ::= <[d := p]> |>
                     <| cgraph_nodes ::= cons p |>
                     <| cgraph_n_nodes ::= S |>) ;;
      ret p
  end.

(** [e] is taken out of an edge chain. *)
Definition unlink_edge (e : edge_ptr) (l : list edge_ptr) : list edge_ptr :=
  filter (λ x, x ≠ e) l.

Section store.
Context `{Externals}.

(** Modelled from the spec: [cgraph_create_edge] of cgraph.c.
    "[create_edge(caller, callee, stmt, count, depth)]", "Edge ordering is
    insertion order": a new edge, not inlined, at the end of the caller's
    [callees] and of the callee's [callers]. *)
Definition cgraph_create_edge (from to : node_ptr) (stmt : tree)
    (cnt : Z) (nest : nat) : M edge_ptr :=
  reason <- ext (new_edge_inline_failed to) ;;
  w <- get ;;
  let e := fresh (dom (edges w)) in
  modify (λ w, w <| edges ::=
    <[e := {| caller := from; callee := to; call_stmt := stmt;
              inline_failed := Some reason; count := cnt;
              loop_nest := nest; aux := false |}]> |>) ;;
  set_node from (λ n, n <| callees ::= (λ l, l ++ [e]) |>) ;;
  set_node to (λ n, n <| callers ::= (λ l, l ++ [e]) |>) ;;
  ret e.

End store.

(** Modelled from the spec: [cgraph_node_remove_callees] of cgraph.c.
    "[remove_callees(node)]": every edge that leaves the node is unlinked
    from its callee's [callers] and freed. *)
Definition cgraph_node_remove_callees (p : node_ptr) : M unit :=
  n <- the_node p ;;
  for_each (callees n) (λ e,
    x <- the_edge e ;;
    set_node (callee x) (λ m, m <| callers ::= unlink_edge e |>) ;;
    modify (λ w, w <| edges ::= delete e |>)) ;;
  set_node p (λ n, n <| callees := [] |>).

(** Modelled from the spec: [cgraph_remove_node] of cgraph.c.
    "[remove_node] unlinks from all caller/callee edge lists, removes from
    the intern table, and detaches clones." *)
Definition cgraph_remove_node (p : node_ptr) : M unit :=
  n <- the_node p ;;
  for_each (callers n) (λ e,
    x <- the_edge e ;;
    set_node (caller x) (λ m, m <| callees ::= unlink_edge e |>) ;;
    modify (λ w, w <| edges ::= delete e |>)) ;;
  cgraph_node_remove_callees p ;;
  modify (λ w,
    if decide (cgraph_hash w !! decl n = Some p) then
      match next_clone n with
      | Some c => w <| cgraph_hash ::= <[decl n := c]> |>
      | None => w <| cgraph_hash ::= delete (decl n) |>
      end
    else w) ;;
  modify (λ w, w <| nodes ::= fmap (λ m,
    if decide (next_clone m = Some p)
    then m <| next_clone := next_clone n |> else m) |>) ;;
  modify (λ w, w <| cgraph_nodes ::= filter (λ x, x ≠ p) |>
                 <| cgraph_n_nodes ::= pred |>
                 <| nodes ::= delete p |>).

(** Modelled from the spec: the function [cgraph_varpool_node (decl)] of
    cgraph.c, the "symmetric operation for variables" of
    [cgraph_node (decl)]. *)
Definition cgraph_varpool_node_of_decl (d : tree) : M vnode_ptr :=
  w <- get ;;
  match cgraph_varpool_hash w !! d with
  | Some p => ret p
  | None =>
      let p := fresh (dom (vnodes w)) in
      modify (λ w, w <| vnodes ::= <[p := new_varpool_node d]> |>
                     <| cgraph_varpool_hash ::= <[d := p]> |>) ;;
      ret p
  end.

Fixpoint last_needed_variable (fuel : nat) (p : vnode_ptr) : M vnode_ptr :=
  match fuel with
  | 0 => fail OutOfFuel
  | S fuel' =>
      n <- the_vnode p ;;
      match v_next_needed n with
      | None => ret p
      | Some q => last_needed_variable fuel' q
      end
  end.

(** Modelled from the spec: the enqueue step of
    [cgraph_varpool_mark_needed_node].  The variable worklist is one
    [next_needed] chain from [cgraph_varpool_nodes_queue]; the analyzer's
    cursor [cgraph_varpool_first_unanalyzed_node] points into it, at the
    new node when everything before was analyzed. *)
Definition cgraph_varpool_enqueue_needed_node (p : vnode_ptr) : M unit :=
  set_vnode p (λ n, n <| v_next_needed := None |>) ;;
  w <- get ;;
  match cgraph_varpool_nodes_queue w with
  | None => modify (λ w, w <| cgraph_varpool_nodes_queue := Some p |>)
  | Some h =>
      l <- last_needed_variable (S (size (vnodes w))) h ;;
      set_vnode l (λ n, n <| v_next_needed := Some p |>)
  end ;;
  w <- get ;;
  match cgraph_varpool_first_unanalyzed_node w with
  | None =>
      modify (λ w, w <| cgraph_varpool_first_unanalyzed_node := Some p |>)
  | Some _ => ret tt
  end.

(** Modelled from the spec: [cgraph_varpool_mark_needed_node] of cgraph.c,
    the "symmetric operation for variables" of [cgraph_mark_needed_node]:
    idempotent, the first call enqueues the node. *)
Definition cgraph_varpool_mark_needed_node (p : vnode_ptr) : M unit :=
  n <- the_vnode p ;;
  if v_needed n then ret tt
  else
    set_vnode p (λ n, n <| v_needed := true |>) ;;
    cgraph_varpool_enqueue_needed_node p.

(** Modelled from the spec: [build_decl] and [make_node] of tree.c, which
    the synthesizer uses to "manufacture a synthetic function": a new
    tree node of the given code with every flag clear. *)
Definition alloc_tree (x : tree_node) : M tree :=
  w <- get ;;
  let t := fresh (dom (trees w)) in
  modify (λ w, w <| trees ::= <[t := x]> |>) ;;
  ret t.

Definition build_decl (c : tree_code) (name : string) : M tree :=
  alloc_tree ((make_node c) <| DECL_NAME := name |>).

(** Modelled from the spec: [allocate_struct_function] of function.c: a
    new [struct function] without a control-flow graph becomes the
    declaration's and the current one. *)
Definition allocate_struct_function (d : tree) : M unit :=
  w <- get ;;
  let f := fresh (dom (functions w)) in
  modify (λ w, w <| functions ::=
    <[f := {| cfg := None; unexpanded_var_list := [];
              function_end_locus := 0 |}]> |>) ;;
  modify (λ w, w <| cfun := Some f |>) ;;
  set_tree d (λ x, x <| DECL_STRUCT_FUNCTION := Some f |>).

(** ** cgraphunit.c *)

Definition lookup_attribute (name : string) (attrs : list string) : bool :=
  bool_decide (name ∈ attrs).

Definition is_FUNCTION_DECL (c : tree_code) : bool :=
  match c with FUNCTION_DECL => true | _ => false end.

Definition is_VAR_DECL (c : tree_code) : bool :=
  match c with VAR_DECL => true | _ => false end.

Definition is_MODIFY_EXPR (c : tree_code) : bool :=
  match c with MODIFY_EXPR => true | _ => false end.

(** The reasons [initialize_inline_failed] gives. *)
Definition reason_redefined_extern_inline : string :=
  "redefined extern inline functions are not considered for inlining".
Definition reason_not_inlinable : string := "function not inlinable".
Definition reason_not_considered : string :=
  "function not considered for inlining".

Section cgraphunit.
Context `{Externals}.

(** The loop of [decide_is_function_needed] over the enclosing
    functions: true when one of them is [DECL_EXTERNAL]. *)
Fixpoint origin_is_external (fuel : nat) (origin : option tree) : M bool :=
  match origin with
  | None => ret false
  | Some o =>
      match fuel with
      | 0 => fail OutOfFuel
      | S fuel' =>
          x <- the_tree o ;;
          if DECL_EXTERNAL x then ret true
          else origin_is_external fuel' (DECL_CONTEXT_FN x)
      end
  end.

Definition decide_is_function_needed (node : node_ptr) (decl_ : tree)
    : M bool :=
  d <- the_tree decl_ ;;
  if MAIN_NAME_P d && TREE_PUBLIC d then
    set_node node
      (λ n, n <| local ::= (λ l, l <| externally_visible := true |>) |>) ;;
    ret true
  else
  n <- the_node node ;;
  if externally_visible (local n)
     || lookup_attribute "used" (DECL_ATTRIBUTES d) then ret true
  else
  referenced <- match DECL_ASSEMBLER_NAME d with
                | Some a => x <- the_tree a ;; ret (TREE_SYMBOL_REFERENCED x)
                | None => ret false
                end ;;
  if referenced then ret true
  else if needed n then ret true
  else
  whole <- gets flag_whole_program ;;
  if (TREE_PUBLIC d && negb whole)
     && negb (DECL_COMDAT d) && negb (DECL_EXTERNAL d) then ret true
  else if DECL_STATIC_CONSTRUCTOR d || DECL_STATIC_DESTRUCTOR d then ret true
  else
  unit <- gets flag_unit_at_a_time ;;
  if unit then ret false
  else if DECL_EXTERNAL d then ret false
  else
  w <- get ;;
  nested_in_extern <-
    origin_is_external (S (size (trees w))) (DECL_CONTEXT_FN d) ;;
  if nested_in_extern then ret false
  else if DECL_COMDAT d then ret false
  else if negb (DECL_INLINE d) then ret true
  else if negb (disregard_inline_limits (local n))
          && negb (DECL_DECLARED_INLINE_P d) then
    if negb (inlinable (local n)) then ret true
    else
      dflt <- ext (cgraph_default_inline_p node) ;;
      ret (negb dflt)
  else ret false.

Definition cgraph_lower_function (node : node_ptr) : M unit :=
  n <- the_node node ;;
  if lowered n then ret tt
  else
    ext (tree_lowering_passes (decl n)) ;;
    set_node node (λ n, n <| lowered := true |>).

(** [record_reference (tp, walk_subtrees, data)]: [t] is [*tp], the
    boolean is [*walk_subtrees] on entry, and the result pairs the
    returned tree with [*walk_subtrees] on exit. *)
Definition record_reference : walk_tree_fn := λ t walk_subtrees data,
  x <- the_tree t ;;
  match TREE_CODE x with
  | VAR_DECL =>
      if TREE_STATIC x || DECL_EXTERNAL x then
        v <- cgraph_varpool_node_of_decl t ;;
        cgraph_varpool_mark_needed_node v ;;
        match lang_analyze_expr with
        | Some analyze_expr => ext (analyze_expr t walk_subtrees data)
        | None => ret (None, walk_subtrees)
        end
      else ret (None, walk_subtrees)
  | FDESC_EXPR | ADDR_EXPR =>
      unit <- gets flag_unit_at_a_time ;;
      when unit (
        op <- deref (TREE_OPERANDS x !! 0) ;;
        d <- deref op ;;
        dx <- the_tree d ;;
        when (is_FUNCTION_DECL (TREE_CODE dx)) (
          n <- cgraph_node_of_decl d ;;
          cgraph_mark_needed_node n)) ;;
      ret (None, walk_subtrees)
  | c =>
      if IS_TYPE_OR_DECL_P c then ret (None, false)
      else if past_generic_codes c then
        analyze_expr <- deref lang_analyze_expr ;;
        ext (analyze_expr t walk_subtrees data)
      else ret (None, walk_subtrees)
  end.

Definition cgraph_create_edges (node : node_ptr) (body : tree) : M unit :=
  b <- the_tree body ;;
  let this_cfun := DECL_STRUCT_FUNCTION b in
  modify (λ w, w <| visited_nodes := Some ∅ |>) ;;
  fp <- deref this_cfun ;;
  fn <- the_function fp ;;
  blocks <- deref (cfg fn) ;;
  for_each blocks (λ bb,
    for_each (bb_stmts bb) (λ stmt,
      call <- ext (get_call_expr_in stmt) ;;
      callee_decl <- match call with
                     | Some c => ext (get_callee_fndecl c)
                     | None => ret None
                     end ;;
      match call, callee_decl with
      | Some c, Some d =>
          to <- cgraph_node_of_decl d ;;
          cgraph_create_edge node to stmt (bb_count bb) (bb_loop_depth bb) ;;
          cx <- the_tree c ;;
          args <- deref (TREE_OPERANDS cx !! 1) ;;
          ext (walk_tree record_reference args (Some node)) ;;
          sx <- the_tree stmt ;;
          when (is_MODIFY_EXPR (TREE_CODE sx)) (
            lhs <- deref (TREE_OPERANDS sx !! 0) ;;
            ext (walk_tree record_reference lhs (Some node)) ;;
            ret tt)
      | _, _ =>
          ext (walk_tree record_reference (Some stmt) (Some node)) ;;
          ret tt
      end)) ;;
  b <- the_tree body ;;
  fp <- deref (DECL_STRUCT_FUNCTION b) ;;
  fn <- the_function fp ;;
  for_each (unexpanded_var_list fn) (λ d,
    x <- the_tree d ;;
    unit <- gets flag_unit_at_a_time ;;
    if is_VAR_DECL (TREE_CODE x)
       && (TREE_STATIC x && negb (DECL_EXTERNAL x)) && unit then
      ext (cgraph_varpool_finalize_decl d)
    else if is_VAR_DECL (TREE_CODE x) && non_null (DECL_INITIAL x) then
      ext (walk_tree record_reference (DECL_INITIAL x) (Some node)) ;;
      ret tt
    else ret tt) ;;
  modify (λ w, w <| visited_nodes := None |>).

(** The body of the loop of [initialize_inline_failed] for the edge [e]
    of [node->callers]. *)
Definition initialize_inline_failed_edge (node : node_ptr) (e : edge_ptr)
    : M unit :=
  x <- the_edge e ;;
  c <- the_node (callee x) ;;
  gcc_assert (negb (non_null (inlined_to (global c)))) ;;
  gcc_assert (non_null (inline_failed x)) ;;
  n <- the_node node ;;
  if redefined_extern_inline (local n) then
    set_edge e (λ x, x <| inline_failed := Some reason_redefined_extern_inline |>)
  else if negb (inlinable (local n)) then
    set_edge e (λ x, x <| inline_failed := Some reason_not_inlinable |>)
  else
    set_edge e (λ x, x <| inline_failed := Some reason_not_considered |>).

Definition initialize_inline_failed (node : node_ptr) : M unit :=
  n <- the_node node ;;
  for_each (callers n) (initialize_inline_failed_edge node).

Definition cgraph_analyze_function (node : node_ptr) : M unit :=
  n <- the_node node ;;
  let decl_ := decl n in
  modify (λ w, w <| current_function_decl := Some decl_ |>) ;;
  d <- the_tree decl_ ;;
  ext (push_cfun (DECL_STRUCT_FUNCTION d)) ;;
  cgraph_lower_function node ;;
  cgraph_create_edges node decl_ ;;
  b <- ext (tree_inlinable_function_p decl_) ;;
  set_node node (λ n, n <| local ::= (λ l, l <| inlinable := b |>) |>) ;;
  z <- ext (estimate_num_insns decl_) ;;
  set_node node (λ n, n <| local ::= (λ l, l <| self_insns := z |>) |>) ;;
  n <- the_node node ;;
  when (inlinable (local n)) (
    b <- ext (lang_disregard_inline_limits decl_) ;;
    set_node node
      (λ n, n <| local ::= (λ l, l <| disregard_inline_limits := b |>) |>)) ;;
  initialize_inline_failed node ;;
  n <- the_node node ;;
  no_inline <- gets flag_really_no_inline ;;
  when (no_inline && negb (disregard_inline_limits (local n))) (
    set_node node (λ n, n <| local ::= (λ l, l <| inlinable := false |>) |>)) ;;
  set_node node
    (λ n, n <| global ::= (λ g, g <| insns := self_insns (local n) |>) |>) ;;
  set_node node (λ n, n <| analyzed := true |>) ;;
  ext pop_cfun ;;
  modify (λ w, w <| current_function_decl := None |>).

(** The loop of [cgraph_varpool_analyze_pending_decls]; [changed] is the
    local variable of that name. *)
Fixpoint varpool_analyze_loop (fuel : nat) (changed : bool) : M bool :=
  w <- get ;;
  match cgraph_varpool_first_unanalyzed_node w with
  | None => ret changed
  | Some p =>
      match fuel with
      | 0 => fail OutOfFuel
      | S fuel' =>
          v <- the_vnode p ;;
          let decl_ := v_decl v in
          set_vnode p (λ v, v <| v_analyzed := true |>) ;;
          v <- the_vnode p ;;
          modify (λ w, w <| cgraph_varpool_first_unanalyzed_node :=
                              v_next_needed v |>) ;;
          d <- the_tree decl_ ;;
          when (non_null (DECL_INITIAL d)) (
            modify (λ w, w <| visited_nodes := Some ∅ |>) ;;
            ext (walk_tree record_reference (DECL_INITIAL d) None) ;;
            modify (λ w, w <| visited_nodes := None |>)) ;;
          varpool_analyze_loop fuel' true
      end
  end.

Definition cgraph_varpool_analyze_pending_decls (fuel : nat) : M bool :=
  varpool_analyze_loop fuel false.

(** The loop of [cgraph_preserve_function_body_p] along [next_clone]. *)
Fixpoint any_inline_clone (fuel : nat) (p : option node_ptr) : M bool :=
  match p with
  | None => ret false
  | Some n =>
      match fuel with
      | 0 => fail OutOfFuel
      | S fuel' =>
          x <- the_node n ;;
          if non_null (inlined_to (global x)) then ret true
          else any_inline_clone fuel' (next_clone x)
      end
  end.

Definition cgraph_preserve_function_body_p (decl_ : tree) : M bool :=
  dump <- gets dump_tree_all ;;
  if dump then ret true
  else
    ready <- gets cgraph_global_info_ready ;;
    if negb ready then
      d <- the_tree decl_ ;;
      no_inline <- gets flag_really_no_inline ;;
      ret (DECL_INLINE d && negb no_inline)
    else
      n <- cgraph_node_of_decl decl_ ;;
      w <- get ;;
      any_inline_clone (S (size (nodes w))) (Some n).

(** [node->decl], read again each time the C text reads it. *)
Definition decl_of (node : node_ptr) : M tree :=
  n <- the_node node ;; ret (decl n).

Definition cgraph_expand_function (node : node_ptr) : M unit :=
  n <- the_node node ;;
  let decl_ := decl n in
  gcc_assert (negb (non_null (inlined_to (global n)))) ;;
  unit <- gets flag_unit_at_a_time ;;
  when unit (emit (EvAnnounce decl_)) ;;
  cgraph_lower_function node ;;
  emit (EvExpand node decl_) ;;
  ext (lang_expand_function decl_) ;;
  d <- decl_of node ;;
  x <- the_tree d ;;
  gcc_assert (TREE_ASM_WRITTEN x) ;;
  modify (λ w, w <| current_function_decl := None |>) ;;
  d <- decl_of node ;;
  preserve <- cgraph_preserve_function_body_p d ;;
  when (negb preserve) (
    d <- decl_of node ;;
    set_tree d (λ x, x <| DECL_SAVED_TREE := None |>) ;;
    d <- decl_of node ;;
    set_tree d (λ x, x <| DECL_STRUCT_FUNCTION := None |>) ;;
    d <- decl_of node ;;
    err <- gets error_mark_node ;;
    set_tree d (λ x, x <| DECL_INITIAL := Some err |>) ;;
    cgraph_node_remove_callees node) ;;
  modify (λ w, w <| cgraph_function_flags_ready := true |>).

(** The test of the loop of [cgraph_assemble_pending_functions]:
    [!n->global.inlined_to && !n->alias && !DECL_EXTERNAL (n->decl)]. *)
Definition pending_function_is_expanded (n : node_ptr) : M bool :=
  x <- the_node n ;;
  if negb (non_null (inlined_to (global x))) && negb (alias x) then
    d <- the_tree (decl x) ;;
    ret (negb (DECL_EXTERNAL d))
  else ret false.

(** One turn of that loop, for the head [n] of [cgraph_nodes_queue];
    the result is the new value of the local [output]. *)
Definition assemble_pending_function (n : node_ptr) (output_ : bool)
    : M bool :=
  x <- the_node n ;;
  modify (λ w, w <| cgraph_nodes_queue := next_needed x |>) ;;
  set_node n (λ x, x <| next_needed := None |>) ;;
  go <- pending_function_is_expanded n ;;
  if go then cgraph_expand_function n ;; ret true
  else ret output_.

Fixpoint assemble_pending_loop (fuel : nat) (output_ : bool) : M bool :=
  w <- get ;;
  match cgraph_nodes_queue w with
  | None => ret output_
  | Some n =>
      match fuel with
      | 0 => fail OutOfFuel
      | S fuel' =>
          output' <- assemble_pending_function n output_ ;;
          assemble_pending_loop fuel' output'
      end
  end.

Definition cgraph_assemble_pending_functions (fuel : nat) : M bool :=
  unit <- gets flag_unit_at_a_time ;;
  if unit then ret false
  else assemble_pending_loop fuel false.

(** The search of [cgraph_reset_node] along the worklist:
    [for (n = cgraph_nodes_queue; n; n = n->next_needed) if (n == node)
    break;], true when it stops at [node]. *)
Fixpoint on_needed_queue (fuel : nat) (n : option node_ptr)
    (node : node_ptr) : M bool :=
  match n with
  | None => ret false
  | Some p =>
      if decide (p = node) then ret true
      else
        match fuel with
        | 0 => fail OutOfFuel
        | S fuel' =>
            x <- the_node p ;;
            on_needed_queue fuel' (next_needed x) node
        end
  end.

Definition cgraph_reset_node (node : node_ptr) : M unit :=
  n <- the_node node ;;
  gcc_assert (negb (output n)) ;;
  set_node node (λ n, n <| local := zero_local |>) ;;
  set_node node (λ n, n <| global := zero_global |>) ;;
  set_node node (λ n, n <| rtl := zero_rtl |>) ;;
  set_node node (λ n, n <| analyzed := false |>) ;;
  set_node node
    (λ n, n <| local ::= (λ l, l <| redefined_extern_inline := true |>) |>) ;;
  set_node node (λ n, n <| local ::= (λ l, l <| finalized := false |>) |>) ;;
  unit <- gets flag_unit_at_a_time ;;
  when (negb unit) (
    w <- get ;;
    for_each (cgraph_nodes w) (λ n,
      x <- the_node n ;;
      when (bool_decide (inlined_to (global x) = Some node))
        (cgraph_remove_node n))) ;;
  cgraph_node_remove_callees node ;;
  n <- the_node node ;;
  unit <- gets flag_unit_at_a_time ;;
  when (reachable n && negb unit) (
    w <- get ;;
    queued <- on_needed_queue (S (size (nodes w))) (cgraph_nodes_queue w) node ;;
    when (negb queued) (set_node node (λ n, n <| reachable := false |>))).

Definition cgraph_finalize_function (fuel : nat) (decl_ : tree)
    (nested_ : bool) : M unit :=
  node <- cgraph_node_of_decl decl_ ;;
  n <- the_node node ;;
  when (finalized (local n)) (cgraph_reset_node node) ;;
  ext (notice_global_symbol decl_) ;;
  set_node node (λ n, n <| decl := decl_ |>) ;;
  set_node node (λ n, n <| local ::= (λ l, l <| finalized := true |>) |>) ;;
  d <- the_tree decl_ ;;
  fp <- deref (DECL_STRUCT_FUNCTION d) ;;
  fn <- the_function fp ;;
  set_node node (λ n, n <| lowered := non_null (cfg fn) |>) ;;
  n <- the_node node ;;
  when (non_null (nested n)) (ext (lower_nested_functions decl_)) ;;
  n <- the_node node ;;
  gcc_assert (negb (non_null (nested n))) ;;
  unit <- gets flag_unit_at_a_time ;;
  when (negb unit) (
    cgraph_analyze_function node ;;
    ext (cgraph_decide_inlining_incrementally node false)) ;;
  is_needed <- decide_is_function_needed node decl_ ;;
  when is_needed (cgraph_mark_needed_node node) ;;
  d <- the_tree decl_ ;;
  when (TREE_PUBLIC d && negb (DECL_COMDAT d) && negb (DECL_EXTERNAL d))
    (cgraph_mark_reachable_node node) ;;
  when (negb nested_) (
    assembled <- cgraph_assemble_pending_functions fuel ;;
    when (negb assembled) (ext ggc_collect)) ;;
  d <- the_tree decl_ ;;
  when (negb (TREE_ASM_WRITTEN d)) (ext (deferred_inline_function decl_)) ;;
  warn <- gets warn_unused_parameter ;;
  when warn (ext (do_warn_unused_parameter decl_)).

(** *** cgraph_finalize_compilation_unit

    The two loops of the function are definitions of their own; the
    blocks guarded by [cgraph_dump_file] and [quiet_flag] only print and
    are left out. *)

(** The body of the loop over the callees of the node just analyzed:
    [if (!edge->callee->reachable) cgraph_mark_reachable_node
    (edge->callee);]. *)
Definition mark_callee_reachable (e : edge_ptr) : M unit :=
  x <- the_edge e ;;
  c <- the_node (callee x) ;;
  when (negb (reachable c)) (cgraph_mark_reachable_node (callee x)).

(** One turn of the worklist loop, for the head [node] of
    [cgraph_nodes_queue]. *)
Definition analyze_queued_function (fuel : nat) (node : node_ptr) : M unit :=
  n <- the_node node ;;
  let decl_ := decl n in
  modify (λ w, w <| cgraph_nodes_queue := next_needed n |>) ;;
  set_node node (λ n, n <| next_needed := None |>) ;;
  d <- the_tree decl_ ;;
  if negb (non_null (DECL_SAVED_TREE d)) then cgraph_reset_node node
  else
    n <- the_node node ;;
    gcc_assert (negb (analyzed n) && reachable n) ;;
    d <- the_tree decl_ ;;
    gcc_assert (non_null (DECL_SAVED_TREE d)) ;;
    cgraph_analyze_function node ;;
    n <- the_node node ;;
    for_each (callees n) mark_callee_reachable ;;
    cgraph_varpool_analyze_pending_decls fuel ;;
    ret tt.

Fixpoint analyze_queued_functions (fuel : nat) : M unit :=
  w <- get ;;
  match cgraph_nodes_queue w with
  | None => ret tt
  | Some node =>
      match fuel with
      | 0 => fail OutOfFuel
      | S fuel' =>
          analyze_queued_function fuel' node ;;
          analyze_queued_functions fuel'
      end
  end.

(** One turn of the reclamation loop. *)
Definition reclaim_function (node : node_ptr) : M unit :=
  n <- the_node node ;;
  let decl_ := decl n in
  d <- the_tree decl_ ;;
  when (finalized (local n) && negb (non_null (DECL_SAVED_TREE d)))
    (cgraph_reset_node node) ;;
  n <- the_node node ;;
  d <- the_tree decl_ ;;
  if negb (reachable n) && non_null (DECL_SAVED_TREE d) then
    cgraph_remove_node node
  else
    set_node node (λ n, n <| next_needed := None |>) ;;
    n <- the_node node ;;
    d <- the_tree decl_ ;;
    gcc_assert (negb (finalized (local n)) || non_null (DECL_SAVED_TREE d)) ;;
    gcc_assert (eqb (analyzed n) (finalized (local n))).

(** [for (node = cgraph_nodes; node != first_analyzed; node = node->next)]
    over the chain [l]; running off the end of the chain without meeting
    a non-null [stop] dereferences the null pointer. *)
Fixpoint reclaim_functions (l : list node_ptr) (stop : option node_ptr)
    : M unit :=
  match l with
  | [] => if non_null stop then fail BadPointer else ret tt
  | node :: l' =>
      if decide (stop = Some node) then ret tt
      else reclaim_function node ;; reclaim_functions l' stop
  end.

Definition cgraph_finalize_compilation_unit (fuel : nat) : M unit :=
  ext finish_aliases_1 ;;
  unit <- gets flag_unit_at_a_time ;;
  if negb unit then
    cgraph_assemble_pending_functions fuel ;;
    ret tt
  else
    cgraph_varpool_analyze_pending_decls fuel ;;
    analyze_queued_functions fuel ;;
    w <- get ;;
    reclaim_functions (cgraph_nodes w) (first_analyzed w) ;;
    modify (λ w, w <| first_analyzed := head (cgraph_nodes w) |>) ;;
    ext ggc_collect.

(** *** cgraph_mark_functions_to_output *)

(** [for (e = node->callers; e; e = e->next_caller) if (e->inline_failed)
    break;]: the edge the loop stops at, null when every caller is
    inlined. *)
Fixpoint first_not_inlined (l : list edge_ptr) : M (option edge_ptr) :=
  match l with
  | [] => ret None
  | e :: l' =>
      x <- the_edge e ;;
      if non_null (inline_failed x) then ret (Some e)
      else first_not_inlined l'
  end.

(** The body of the loop; the block under [ENABLE_CHECKING] stops on the
    condition the assertion after it stops on, and is that assertion. *)
Definition mark_function_to_output (node : node_ptr) : M unit :=
  n <- the_node node ;;
  let decl_ := decl n in
  gcc_assert (negb (output n)) ;;
  e <- first_not_inlined (callers n) ;;
  d <- the_tree decl_ ;;
  if non_null (DECL_SAVED_TREE d)
     && negb (non_null (inlined_to (global n)))
     && (needed n || (non_null e && reachable n))
     && negb (TREE_ASM_WRITTEN d)
     && negb (DECL_EXTERNAL d)
  then set_node node (λ n, n <| output := true |>)
  else
    gcc_assert (non_null (inlined_to (global n))
                || negb (non_null (DECL_SAVED_TREE d))
                || DECL_EXTERNAL d).

Definition cgraph_mark_functions_to_output : M unit :=
  w <- get ;;
  for_each (cgraph_nodes w) mark_function_to_output.

(** *** cgraph_expand_all_functions *)

(** The first loop: the nodes of [order] whose [output] is set, in the
    order of [order]. *)
Fixpoint keep_output (order : list node_ptr) : M (list node_ptr) :=
  match order with
  | [] => ret []
  | node :: order' =>
      n <- the_node node ;;
      rest <- keep_output order' ;;
      ret (if output n then node :: rest else rest)
  end.

(** The body of the second loop. *)
Definition expand_if_output (node : node_ptr) : M unit :=
  n <- the_node node ;;
  when (output n) (
    gcc_assert (reachable n) ;;
    set_node node (λ n, n <| output := false |>) ;;
    cgraph_expand_function node).

Definition cgraph_expand_all_functions : M unit :=
  allocated <- gets cgraph_n_nodes ;;
  order <- ext cgraph_postorder ;;
  (* the array has room for [allocated] nodes *)
  (if decide (length order ≤ allocated) then ret tt else fail BadPointer) ;;
  n_nodes <- gets cgraph_n_nodes ;;
  gcc_assert (bool_decide (length order = n_nodes)) ;;
  new_order <- keep_output order ;;
  for_each (rev new_order) expand_if_output.

(** *** cgraph_build_static_cdtor *)

(** The declaration the function manufactures, up to the [switch]:
    [decl] with its result declaration, its [struct function], its flags,
    its body and its outermost block; [name] is what
    [get_file_function_name_long] answered. *)
Definition synthesize_cdtor (body : tree) (name : string) : M tree :=
  decl_ <- build_decl FUNCTION_DECL name ;;
  modify (λ w, w <| current_function_decl := Some decl_ |>) ;;
  resdecl <- build_decl RESULT_DECL EmptyString ;;
  set_tree resdecl (λ x, x <| DECL_ARTIFICIAL := true |>) ;;
  set_tree resdecl (λ x, x <| DECL_IGNORED_P := true |>) ;;
  set_tree decl_ (λ x, x <| DECL_RESULT := Some resdecl |>) ;;
  allocate_struct_function decl_ ;;
  set_tree decl_ (λ x, x <| TREE_STATIC := true |>) ;;
  set_tree decl_ (λ x, x <| TREE_USED := true |>) ;;
  set_tree decl_ (λ x, x <| DECL_ARTIFICIAL := true |>) ;;
  set_tree decl_ (λ x, x <| DECL_IGNORED_P := true |>) ;;
  set_tree decl_
    (λ x, x <| DECL_NO_INSTRUMENT_FUNCTION_ENTRY_EXIT := true |>) ;;
  set_tree decl_ (λ x, x <| DECL_SAVED_TREE := Some body |>) ;;
  target <- gets have_ctors_dtors ;;
  set_tree decl_ (λ x, x <| TREE_PUBLIC := negb target |>) ;;
  set_tree decl_ (λ x, x <| DECL_UNINLINABLE := true |>) ;;
  blk <- alloc_tree (make_node BLOCK) ;;
  set_tree decl_ (λ x, x <| DECL_INITIAL := Some blk |>) ;;
  set_tree blk (λ x, x <| TREE_USED := true |>) ;;
  loc <- gets input_location ;;
  set_tree decl_ (λ x, x <| DECL_SOURCE_LOCATION := loc |>) ;;
  cf <- gets cfun ;;
  f <- deref cf ;;
  set_function f (λ x, x <| function_end_locus := loc |>) ;;
  ret decl_.

(** [switch (which)]. *)
Definition mark_cdtor (which : ascii) (decl_ : tree) : M unit :=
  if decide (which = "I"%char) then
    set_tree decl_ (λ x, x <| DECL_STATIC_CONSTRUCTOR := true |>)
  else if decide (which = "D"%char) then
    set_tree decl_ (λ x, x <| DECL_STATIC_DESTRUCTOR := true |>)
  else gcc_unreachable.

(** [if (targetm.have_ctors_dtors) ...]: the reference to the function
    in the constructor or destructor section of the target. *)
Definition output_cdtor (which : ascii) (decl_ : tree) (priority : Z)
    : M unit :=
  target <- gets have_ctors_dtors ;;
  when target (
    emit (EvCdtor which decl_ priority) ;;
    if decide (which = "I"%char) then ext (asm_out_constructor decl_ priority)
    else ext (asm_out_destructor decl_ priority)).

Definition cgraph_build_static_cdtor (fuel : nat) (which : ascii)
    (body : tree) (priority : Z) : M unit :=
  c <- gets counter ;;
  modify (λ w, w <| counter ::= S |>) ;;
  let which_buf := String which ("_" +:+ pretty c) in
  name <- ext (get_file_function_name_long which_buf) ;;
  decl_ <- synthesize_cdtor body name ;;
  mark_cdtor which decl_ ;;
  ext (gimplify_function_tree decl_) ;;
  ready <- gets cgraph_global_info_ready ;;
  (if ready then
     ext (tree_lowering_passes decl_) ;;
     ext (tree_rest_of_compilation decl_)
   else cgraph_finalize_function fuel decl_ false) ;;
  output_cdtor which decl_ priority.

End cgraphunit.

(** * Notions used to state the frame of an operation *)

(** The node without its links: what is left when the four chain fields
    are cleared.  Two nodes with the same image differ in links only. *)
Definition unlinked (n : cgraph_node) : cgraph_node :=
  n <| callees := [] |> <| callers := [] |>
    <| next_needed := None |> <| next_clone := None |>.

(** The process state without the callgraph. *)
Definition outside_graph (w : world) : world :=
  w <| nodes := ∅ |> <| edges := ∅ |> <| cgraph_hash := ∅ |>
    <| cgraph_nodes := [] |> <| cgraph_n_nodes := 0 |>
    <| cgraph_nodes_queue := None |>.

(** The process state without the variable pool. *)
Definition outside_varpool (w : world) : world :=
  w <| vnodes := ∅ |> <| cgraph_varpool_hash := ∅ |>
    <| cgraph_varpool_nodes_queue := None |>
    <| cgraph_varpool_first_unanalyzed_node := None |>.

(** Outside the set [S] of pointers the two states have the same nodes,
    up to their links. *)
Definition nodes_frame (S : node_ptr → Prop) (w w' : world) : Prop :=
  ∀ p, ¬ S p → unlinked <$> nodes w' !! p = unlinked <$> nodes w !! p.


(** * A sample instance

    A small front end and a small process state, on which the statements
    below are run. *)

(** A tree walker that shows the callback the root and nothing below. *)
Definition walk_root_only (f : walk_tree_fn) (o : option tree)
    (data : option node_ptr) : M (option tree) :=
  match o with
  | None => ret None
  | Some t => r <- f t true data ;; ret (fst r)
  end.

(** The front end of the sample: its expand hook marks the declaration
    written and does nothing else; there is no [analyze_expr] hook. *)
Definition sample_externals : Externals :=
  {| lang_analyze_expr := None;
     lang_expand_function :=
       λ d, set_tree d (λ x, x <| TREE_ASM_WRITTEN := true |>);
     lang_disregard_inline_limits := λ _, ret false;
     walk_tree := walk_root_only;
     get_call_expr_in := λ _, ret None;
     get_callee_fndecl := λ _, ret None;
     tree_lowering_passes := λ _, ret tt;
     lower_nested_functions := λ _, ret tt;
     gimplify_function_tree := λ _, ret tt;
     tree_rest_of_compilation := λ _, ret tt;
     tree_inlinable_function_p := λ _, ret true;
     estimate_num_insns := λ _, ret 1%Z;
     cgraph_default_inline_p := λ _, ret true;
     cgraph_decide_inlining_incrementally := λ _ _, ret tt;
     cgraph_postorder := gets cgraph_nodes;
     cgraph_varpool_finalize_decl := λ _, ret tt;
     new_edge_inline_failed := λ _, ret "function body not available"%string;
     notice_global_symbol := λ _, ret tt;
     finish_aliases_1 := ret tt;
     ggc_collect := ret tt;
     deferred_inline_function := λ _, ret tt;
     do_warn_unused_parameter := λ _, ret tt;
     push_cfun := λ f, modify (λ w, w <| cfun := f |>);
     pop_cfun := modify (λ w, w <| cfun := None |>);
     get_file_function_name_long := λ s, ret s;
     asm_out_constructor := λ _ _, ret tt;
     asm_out_destructor := λ _ _, ret tt |}.

(** The same front end with an [analyze_expr] hook that answers with the
    node it is shown. *)
Definition echo_analyze_expr : walk_tree_fn :=
  λ t walk_subtrees _, ret (Some t, walk_subtrees).

Definition hooked_externals : Externals :=
  {| lang_analyze_expr := Some echo_analyze_expr;
     lang_expand_function := @lang_expand_function sample_externals;
     lang_disregard_inline_limits :=
       @lang_disregard_inline_limits sample_externals;
     walk_tree := walk_root_only;
     get_call_expr_in := @get_call_expr_in sample_externals;
     get_callee_fndecl := @get_callee_fndecl sample_externals;
     tree_lowering_passes := @tree_lowering_passes sample_externals;
     lower_nested_functions := @lower_nested_functions sample_externals;
     gimplify_function_tree := @gimplify_function_tree sample_externals;
     tree_rest_of_compilation := @tree_rest_of_compilation sample_externals;
     tree_inlinable_function_p := @tree_inlinable_function_p sample_externals;
     estimate_num_insns := @estimate_num_insns sample_externals;
     cgraph_default_inline_p := @cgraph_default_inline_p sample_externals;
     cgraph_decide_inlining_incrementally :=
       @cgraph_decide_inlining_incrementally sample_externals;
     cgraph_postorder := @cgraph_postorder sample_externals;
     cgraph_varpool_finalize_decl :=
       @cgraph_varpool_finalize_decl sample_externals;
     new_edge_inline_failed := @new_edge_inline_failed sample_externals;
     notice_global_symbol := @notice_global_symbol sample_externals;
     finish_aliases_1 := @finish_aliases_1 sample_externals;
     ggc_collect := @ggc_collect sample_externals;
     deferred_inline_function := @deferred_inline_function sample_externals;
     do_warn_unused_parameter := @do_warn_unused_parameter sample_externals;
     push_cfun := @push_cfun sample_externals;
     pop_cfun := @pop_cfun sample_externals;
     get_file_function_name_long :=
       @get_file_function_name_long sample_externals;
     asm_out_constructor := @asm_out_constructor sample_externals;
     asm_out_destructor := @asm_out_destructor sample_externals |}.

(** The state of a process that has seen nothing yet, in whole-unit
    mode; tree 0 is [error_mark_node]. *)
Definition initial_world : world :=
  {| trees := {[ 0 := make_node ERROR_MARK ]};
     functions := ∅; nodes := ∅; edges := ∅; vnodes := ∅;
     cgraph_hash := ∅; cgraph_nodes := []; cgraph_n_nodes := 0;
     cgraph_nodes_queue := None; cgraph_global_info_ready := false;
     cgraph_function_flags_ready := false; cgraph_varpool_hash := ∅;
     cgraph_varpool_nodes_queue := None;
     cgraph_varpool_first_unanalyzed_node := None;
     visited_nodes := None; first_analyzed := None; counter := 0;
     flag_unit_at_a_time := true; flag_whole_program := false;
     flag_really_no_inline := false; warn_unused_parameter := false;
     dump_tree_all := false; have_ctors_dtors := false;
     current_function_decl := None; cfun := None; input_location := 0;
     error_mark_node := 0; trace := [] |}.

(** Trees of the sample: 1 is the body of a function, 2 the function
    [f], 3 an automatic variable, 4 a static variable, 5 the expression
    [&f], 6 a type of the front end's own, 7 an expression of the front
    end's own. *)
Definition sample_trees : gmap nat tree_node :=
  {[ 0 := make_node ERROR_MARK;
     1 := make_node BLOCK;
     2 := (make_node FUNCTION_DECL) <| DECL_SAVED_TREE := Some 1 |>
                                    <| DECL_NAME := "f"%string |>;
     3 := make_node VAR_DECL;
     4 := (make_node VAR_DECL) <| TREE_STATIC := true |>;
     5 := (make_node ADDR_EXPR) <| TREE_OPERANDS := [Some 2] |>;
     6 := make_node (LANG_CODE tcc_type);
     7 := make_node (LANG_CODE tcc_expression) ]}.

Definition sample_world : world := initial_world <| trees := sample_trees |>.

(** * Notions the statements use *)

(** The reason an inbound edge is seeded with, by the priority
    "redefined extern inline" > "not inlinable" > "not considered". *)
Definition seeded_reason (n : cgraph_node) : string :=
  if redefined_extern_inline (local n) then reason_redefined_extern_inline
  else if negb (inlinable (local n)) then reason_not_inlinable
  else reason_not_considered.

(** What the two assertions of [initialize_inline_failed] ask of an
    inbound edge: its callee is not an inline clone and the edge still
    has a reason. *)
Definition seedable (w : world) (e : edge_ptr) : Prop :=
  ∃ x c, edges w !! e = Some x ∧ nodes w !! callee x = Some c
         ∧ inlined_to (global c) = None ∧ is_Some (inline_failed x).

(** The second state is the first with nodes and edges taken out of the
    callgraph: nothing outside the graph has changed, the worklist head
    is the same, every node left is a node there was, up to its links,
    in the [cgraph_nodes] chain only if it was, and every edge left is an
    edge there was. *)
Definition graph_shrinks (w w' : world) : Prop :=
  outside_graph w' = outside_graph w
  ∧ cgraph_nodes_queue w' = cgraph_nodes_queue w
  ∧ (∀ p x', nodes w' !! p = Some x' →
       ∃ x, nodes w !! p = Some x ∧ unlinked x' = unlinked x)
  ∧ (∀ p, p ∈ cgraph_nodes w' → p ∈ cgraph_nodes w)
  ∧ edges w' ⊆ edges w.

(** [p] is on the chain that starts at [start] and follows
    [next_needed]. *)
Inductive on_chain (w : world) : option node_ptr → node_ptr → Prop :=
  | on_chain_here p : on_chain w (Some p) p
  | on_chain_next q x p :
      nodes w !! q = Some x → on_chain w (next_needed x) p →
      on_chain w (Some q) p.

(** The node is on the worklist of functions. *)
Definition queued (w : world) (p : node_ptr) : Prop :=
  on_chain w (cgraph_nodes_queue w) p.

(** The fields [cgraph_reset_node] gives a node: [local], [global] and
    [rtl] zero but for [redefined_extern_inline], [analyzed] clear. *)
Definition reset_fields (n : cgraph_node) : cgraph_node :=
  n <| local := zero_local <| redefined_extern_inline := true |> |>
    <| global := zero_global |> <| rtl := zero_rtl |>
    <| analyzed := false |>.

(** The node is an inline clone of [node]. *)
Definition inlined_into (w : world) (node p : node_ptr) : Prop :=
  ∃ x, nodes w !! p = Some x ∧ inlined_to (global x) = Some node.

(** A callgraph over the sample trees, with tree 8 a second function [g]
    without a body of its own in the unit: node 0 is [f], finalized,
    analyzed and reachable; node 1 is [g]; node 2 is a clone of [g]
    inlined into [f].  Edge 0 is a call of [g] in [f] that was not
    inlined, edge 1 the call that was. *)
Definition sample_nodes : gmap nat cgraph_node :=
  {[ 0 := (new_cgraph_node 2)
            <| callees := [0; 1] |>
            <| local := zero_local <| finalized := true |>
                                   <| inlinable := true |> |>
            <| needed := true |> <| reachable := true |>
            <| analyzed := true |>;
     1 := (new_cgraph_node 8) <| callers := [0] |>;
     2 := (new_cgraph_node 8) <| callers := [1] |>
            <| global := zero_global <| inlined_to := Some 0 |> |> ]}.

Definition sample_edges : gmap nat cgraph_edge :=
  {[ 0 := {| caller := 0; callee := 1; call_stmt := 1;
             inline_failed := Some "function body not available"%string;
             count := 0%Z; loop_nest := 0; aux := false |};
     1 := {| caller := 0; callee := 2; call_stmt := 1;
             inline_failed := None;
             count := 0%Z; loop_nest := 0; aux := false |} ]}.

Definition sample_graph : world :=
  initial_world
    <| trees := <[8 := (make_node FUNCTION_DECL)
                         <| DECL_NAME := "g"%string |>]> sample_trees |>
    <| nodes := sample_nodes |> <| edges := sample_edges |>
    <| cgraph_hash := {[ 2 := 0; 8 := 1 ]} |>
    <| cgraph_nodes := [2; 1; 0] |> <| cgraph_n_nodes := 3 |>.

(** The same graph in streaming mode. *)
Definition sample_graph_streaming : world :=
  sample_graph <| flag_unit_at_a_time := false |>.



(** The node with its [output] flag cleared. *)
Definition but_output (n : cgraph_node) : cgraph_node :=
  n <| output := false |>.

(** The state a computation ends in, if it ends. *)
Definition run_from {A} (w : world) (m : M A) : option world :=
  match m w with
  | Ok (_, w') => Some w'
  | Err _ => None
  end.



(** The nodes handed to the back end's expand hook, in order. *)
Fixpoint expansions (t : list event) : list node_ptr :=
  match t with
  | [] => []
  | EvExpand n _ :: t' => n :: expansions t'
  | _ :: t' => expansions t'
  end.

(** A loop that runs while the worklist of functions is not empty, one
    turn of [body] on its head at a time, threading a local variable:
    [drains body w a w' a'] when the loop started in [w] with the local
    at [a] comes to its end in [w'] with the local at [a']. *)
Inductive drains {A} (body : node_ptr → A → M A)
    : world → A → world → A → Prop :=
  | drains_done w a :
      cgraph_nodes_queue w = None → drains body w a w a
  | drains_turn w a n a1 w1 w' a' :
      cgraph_nodes_queue w = Some n →
      body n a w = Ok (a1, w1) →
      drains body w1 a1 w' a' →
      drains body w a w' a'.

(** The sample graph in streaming mode with two functions on the
    worklist: the inline clone 2, then [f]. *)
Definition sample_pending : world :=
  sample_graph_streaming
    <| nodes ::= <[2 := (new_cgraph_node 8) <| callers := [1] |>
                          <| global := zero_global <| inlined_to := Some 0 |> |>
                          <| next_needed := Some 0 |>]> |>
    <| cgraph_nodes_queue := Some 2 |>.

(** Whether the node at [p] has its [output] flag set. *)
Definition output_set (w : world) (p : node_ptr) : bool :=
  match nodes w !! p with
  | Some n => output n
  | None => false
  end.

(** The sample graph once [f] has been marked for output. *)
Definition sample_marked : world :=
  sample_graph <| nodes ::= alter (λ n, n <| output := true |>) 0 |>.



(** The second state is the first with some nodes marked reachable:
    nothing outside the graph has changed, the edges and the chain of
    nodes are the same, and every node is the node there was, up to its
    links and to a [reachable] flag that has been set. *)
Definition marks_reachable (w w' : world) : Prop :=
  outside_graph w' = outside_graph w
  ∧ edges w' = edges w
  ∧ cgraph_nodes w' = cgraph_nodes w
  ∧ ∀ p n, nodes w !! p = Some n →
      ∃ n', nodes w' !! p = Some n'
            ∧ (unlinked n' = unlinked n
               ∨ unlinked n' = unlinked (n <| reachable := true |>)).

(** A front end whose statements are calls when they are [CALL_EXPR]s,
    of the function that is their first operand. *)
Definition calling_externals : Externals :=
  {| lang_analyze_expr := None;
     lang_expand_function := @lang_expand_function sample_externals;
     lang_disregard_inline_limits :=
       @lang_disregard_inline_limits sample_externals;
     walk_tree := walk_root_only;
     get_call_expr_in := λ stmt,
       x <- the_tree stmt ;;
       ret (match TREE_CODE x with CALL_EXPR => Some stmt | _ => None end);
     get_callee_fndecl := λ call,
       x <- the_tree call ;;
       ret (mjoin (TREE_OPERANDS x !! 0));
     tree_lowering_passes := @tree_lowering_passes sample_externals;
     lower_nested_functions := @lower_nested_functions sample_externals;
     gimplify_function_tree := @gimplify_function_tree sample_externals;
     tree_rest_of_compilation := @tree_rest_of_compilation sample_externals;
     tree_inlinable_function_p := @tree_inlinable_function_p sample_externals;
     estimate_num_insns := @estimate_num_insns sample_externals;
     cgraph_default_inline_p := @cgraph_default_inline_p sample_externals;
     cgraph_decide_inlining_incrementally :=
       @cgraph_decide_inlining_incrementally sample_externals;
     cgraph_postorder := @cgraph_postorder sample_externals;
     cgraph_varpool_finalize_decl :=
       @cgraph_varpool_finalize_decl sample_externals;
     new_edge_inline_failed := @new_edge_inline_failed sample_externals;
     notice_global_symbol := @notice_global_symbol sample_externals;
     finish_aliases_1 := @finish_aliases_1 sample_externals;
     ggc_collect := @ggc_collect sample_externals;
     deferred_inline_function := @deferred_inline_function sample_externals;
     do_warn_unused_parameter := @do_warn_unused_parameter sample_externals;
     push_cfun := @push_cfun sample_externals;
     pop_cfun := @pop_cfun sample_externals;
     get_file_function_name_long :=
       @get_file_function_name_long sample_externals;
     asm_out_constructor := @asm_out_constructor sample_externals;
     asm_out_destructor := @asm_out_destructor sample_externals |}.

(** A unit in which [f], tree 2, has been finalized and is on the
    worklist: its body is one block with the statement 10, a call of
    [g], tree 8, which has no body in the unit. *)
Definition sample_queued : world :=
  initial_world
    <| trees :=
         <[10 := (make_node CALL_EXPR) <| TREE_OPERANDS := [Some 8; None] |>]>
           (<[8 := (make_node FUNCTION_DECL) <| DECL_NAME := "g"%string |>]>
              (<[2 := (make_node FUNCTION_DECL)
                        <| DECL_SAVED_TREE := Some 1 |>
                        <| DECL_NAME := "f"%string |>
                        <| DECL_STRUCT_FUNCTION := Some 0 |>]>
                 sample_trees)) |>
    <| functions :=
         {[ 0 := {| cfg := Some [ {| bb_stmts := [10]; bb_count := 0%Z;
                                     bb_loop_depth := 0 |} ];
                    unexpanded_var_list := [];
                    function_end_locus := 0 |} ]} |>
    <| nodes :=
         {[ 0 := (new_cgraph_node 2)
                   <| local := zero_local <| finalized := true |> |>
                   <| needed := true |> <| reachable := true |> ]} |>
    <| cgraph_hash := {[ 2 := 0 ]} |>
    <| cgraph_nodes := [0] |> <| cgraph_n_nodes := 1 |>
    <| cgraph_nodes_queue := Some 0 |>.

(** The unit of [sample_queued] with a call of [f] in [g]: edge 0, which
    has the reason it was created with. *)
Definition sample_called : world :=
  sample_queued
    <| nodes ::= (λ m,
         <[1 := (new_cgraph_node 8) <| callees := [0] |>]>
           (alter (λ n, n <| callers := [0] |>) 0 m)) |>
    <| edges :=
         {[ 0 := {| caller := 1; callee := 0; call_stmt := 1;
                    inline_failed := Some "function body not available"%string;
                    count := 0%Z; loop_nest := 0; aux := false |} ]} |>
    <| cgraph_hash ::= <[8 := 1]> |>
    <| cgraph_nodes := [1; 0] |> <| cgraph_n_nodes := 2 |>.

(** The same unit compiled with [flag_really_no_inline]. *)
Definition sample_no_inline : world :=
  sample_called <| flag_really_no_inline := true |>.

(** The sample state on a target with constructor sections. *)
Definition sample_world_with_sections : world :=
  sample_world <| have_ctors_dtors := true |>.

(** * Further functions of cgraphunit.c *)

(** ** Notions for [cgraph_mark_functions_to_output] *)

(** The verdict of [cgraph_mark_functions_to_output] on the node at [p]
    is consistent: its [output] is set exactly when its declaration has
    a saved body, is not external, and the node is not an inline clone;
    and then the body has not been written yet and the node is needed or
    reachable. *)
Definition output_settled (w : world) (p : node_ptr) : Prop :=
  ∃ n d,
    nodes w !! p = Some n ∧ trees w !! decl n = Some d
    ∧ (output n = true ↔
       is_Some (DECL_SAVED_TREE d) ∧ inlined_to (global n) = None
       ∧ DECL_EXTERNAL d = false)
    ∧ (output n = true →
       TREE_ASM_WRITTEN d = false
       ∧ (needed n = true ∨ reachable n = true)).

(** ** Notions for [decide_is_function_needed] *)

(** The assembler name of the declaration was set and has been
    referenced. *)
Definition assembler_name_referenced (w : world) (d : tree_node) : Prop :=
  ∃ a x, DECL_ASSEMBLER_NAME d = Some a ∧ trees w !! a = Some x
         ∧ TREE_SYMBOL_REFERENCED x = true.

(** The reasons for which a function is needed in both modes: it is the
    public [main]; it is externally visible or has the attribute [used];
    its assembler name was referenced; it was needed before; it is a
    public definition that is not COMDAT (outside whole-program mode);
    it is a static constructor or destructor. *)
Definition forced_needed (w : world) (n : cgraph_node) (d : tree_node)
    : Prop :=
  (MAIN_NAME_P d = true ∧ TREE_PUBLIC d = true)
  ∨ externally_visible (local n) = true
  ∨ lookup_attribute "used" (DECL_ATTRIBUTES d) = true
  ∨ assembler_name_referenced w d
  ∨ needed n = true
  ∨ (TREE_PUBLIC d = true ∧ flag_whole_program w = false
     ∧ DECL_COMDAT d = false ∧ DECL_EXTERNAL d = false)
  ∨ DECL_STATIC_CONSTRUCTOR d = true
  ∨ DECL_STATIC_DESTRUCTOR d = true.

(** One of the functions around the declaration, from [origin] outwards
    along [decl_function_context], is [DECL_EXTERNAL]. *)
Inductive enclosed_by_external (w : world) : option tree → Prop :=
  | enclosed_here o x :
      trees w !! o = Some x → DECL_EXTERNAL x = true →
      enclosed_by_external w (Some o)
  | enclosed_further o x :
      trees w !! o = Some x → DECL_EXTERNAL x = false →
      enclosed_by_external w (DECL_CONTEXT_FN x) →
      enclosed_by_external w (Some o).

(** The sample state with three more declarations: 11 is an [extern
    inline] function, 12 a function nested in it, 13 a static
    constructor that is not public. *)
Definition sample_nested : world :=
  sample_graph_streaming
    <| trees ::= (λ t,
         <[13 := (make_node FUNCTION_DECL)
                   <| DECL_STATIC_CONSTRUCTOR := true |>]>
           (<[12 := (make_node FUNCTION_DECL) <| DECL_CONTEXT_FN := Some 11 |>]>
              (<[11 := (make_node FUNCTION_DECL) <| DECL_EXTERNAL := true |>
                                                 <| DECL_INLINE := true |>]>
                 t))) |>
    <| nodes ::= (λ m, <[5 := new_cgraph_node 13]>
                         (<[4 := new_cgraph_node 12]>
                            (<[3 := new_cgraph_node 11]> m))) |>.

(** ** [cgraph_inline_p] *)

(** [cgraph_inline_p (e, &reason)]: the result pairs the returned
    boolean with [*reason] on exit. *)
Definition cgraph_inline_p (e : edge_ptr) : M (bool * option string) :=
  x <- the_edge e ;;
  let reason := inline_failed x in
  ret (negb (non_null (inline_failed x)), reason).

(** ** Notions for [cgraph_varpool_analyze_pending_decls] *)

(** The variables from [start] on along [next_needed] are those of [l],
    in order, and the chain ends there. *)
Fixpoint pending_chain (w : world) (start : option vnode_ptr)
    (l : list vnode_ptr) : Prop :=
  match l with
  | [] => start = None
  | p :: l' =>
      start = Some p
      ∧ ∃ v, vnodes w !! p = Some v ∧ pending_chain w (v_next_needed v) l'
  end.

(** The variable's declaration has no initializer. *)
Definition uninitialized (w : world) (p : vnode_ptr) : Prop :=
  ∃ v d, vnodes w !! p = Some v ∧ trees w !! v_decl v = Some d
         ∧ DECL_INITIAL d = None.

(** A state with two static variables, trees 3 and 4, pending analysis,
    the second after the first. *)
Definition sample_pending_variables : world :=
  sample_world
    <| vnodes := {[ 0 := (new_varpool_node 3) <| v_next_needed := Some 1 |>;
                    1 := new_varpool_node 4 ]} |>
    <| cgraph_varpool_hash := {[ 3 := 0; 4 := 1 ]} |>
    <| cgraph_varpool_nodes_queue := Some 0 |>
    <| cgraph_varpool_first_unanalyzed_node := Some 0 |>.

(** ** cgraph_function_and_variable_visibility *)

(** What the function calls outside this file: [cgraph_remove_unreachable_nodes]
    of ipa.c, with its flag [before_inlining_p]. *)
Class Ipa := {
  cgraph_remove_unreachable_nodes : bool → M bool
}.

Section visibility.
Context `{Ipa}.

(** The body of the loop over the functions. *)
Definition function_visibility (node : node_ptr) : M unit :=
  n <- the_node node ;;
  exported <-
    (if reachable n then
       d <- the_tree (decl n) ;;
       if DECL_COMDAT d then ret true
       else
         whole <- gets flag_whole_program ;;
         ret (negb whole && TREE_PUBLIC d && negb (DECL_EXTERNAL d))
     else ret false) ;;
  when exported
    (set_node node
       (λ n, n <| local ::= (λ l, l <| externally_visible := true |>) |>)) ;;
  n <- the_node node ;;
  hidden <-
    (if negb (externally_visible (local n)) && analyzed n then
       d <- the_tree (decl n) ;; ret (negb (DECL_EXTERNAL d))
     else ret false) ;;
  when hidden (
    whole <- gets flag_whole_program ;;
    d <- the_tree (decl n) ;;
    gcc_assert (whole || negb (TREE_PUBLIC d)) ;;
    set_tree (decl n) (λ x, x <| TREE_PUBLIC := false |>)) ;;
  n <- the_node node ;;
  is_local_ <-
    (if negb (needed n) && analyzed n then
       d <- the_tree (decl n) ;;
       ret (negb (DECL_EXTERNAL d) && negb (externally_visible (local n)))
     else ret false) ;;
  set_node node (λ n, n <| local ::= (λ l, l <| is_local := is_local_ |>) |>).

(** The body of the loop over the variables of the queue. *)
Definition variable_visibility (vnode : vnode_ptr) : M unit :=
  v <- the_vnode vnode ;;
  whole <- gets flag_whole_program ;;
  exported <-
    (if v_needed v && negb whole then
       d <- the_tree (v_decl v) ;; ret (DECL_COMDAT d || TREE_PUBLIC d)
     else ret false) ;;
  when exported
    (set_vnode vnode (λ v, v <| v_externally_visible := true |>)) ;;
  v <- the_vnode vnode ;;
  when (negb (v_externally_visible v)) (
    whole <- gets flag_whole_program ;;
    d <- the_tree (v_decl v) ;;
    gcc_assert (whole || negb (TREE_PUBLIC d)) ;;
    set_tree (v_decl v) (λ x, x <| TREE_PUBLIC := false |>)) ;;
  v <- the_vnode vnode ;;
  d <- the_tree (v_decl v) ;;
  gcc_assert (TREE_STATIC d).

(** [for (vnode = cgraph_varpool_nodes_queue; vnode; vnode =
    vnode->next_needed)]. *)
Fixpoint variables_visibility (fuel : nat) (p : option vnode_ptr) : M unit :=
  match p with
  | None => ret tt
  | Some vnode =>
      match fuel with
      | 0 => fail OutOfFuel
      | S fuel' =>
          variable_visibility vnode ;;
          v <- the_vnode vnode ;;
          variables_visibility fuel' (v_next_needed v)
      end
  end.

(** The blocks guarded by [cgraph_dump_file] only print and are left
    out. *)
Definition cgraph_function_and_variable_visibility (fuel : nat) : M unit :=
  w <- get ;;
  for_each (cgraph_nodes w) function_visibility ;;
  w <- get ;;
  variables_visibility fuel (cgraph_varpool_nodes_queue w) ;;
  ext (cgraph_remove_unreachable_nodes true) ;;
  modify (λ w, w <| cgraph_function_flags_ready := true |>).

End visibility.

(** An [ipa.c] that removes nothing. *)
Definition sample_ipa : Ipa :=
  {| cgraph_remove_unreachable_nodes := λ _, ret false |}.

(** The second state has the trees of the first, except that
    [TREE_PUBLIC] has been cleared on some of them. *)
Definition made_private (w w' : world) : Prop :=
  ∀ t, (trees w !! t = None → trees w' !! t = None)
       ∧ ∀ x, trees w !! t = Some x →
           ∃ x', trees w' !! t = Some x'
                 ∧ x' <| TREE_PUBLIC := false |> = x <| TREE_PUBLIC := false |>
                 ∧ (TREE_PUBLIC x' = true → TREE_PUBLIC x = true).

(** What the loop over the functions leaves of a node: [local.local]
    says that the function is analyzed, not needed, not external and not
    externally visible; and an analyzed function that is not external is
    externally visible or has a declaration that is not public. *)
Definition visibility_settled (w : world) (p : node_ptr) : Prop :=
  ∃ n, nodes w !! p = Some n
    ∧ (is_local (local n) = true →
       needed n = false ∧ analyzed n = true
       ∧ externally_visible (local n) = false
       ∧ ∃ d, trees w !! decl n = Some d ∧ DECL_EXTERNAL d = false
              ∧ TREE_PUBLIC d = false)
    ∧ (is_local (local n) = false →
       needed n = true ∨ analyzed n = false
       ∨ externally_visible (local n) = true
       ∨ ∃ d, trees w !! decl n = Some d ∧ DECL_EXTERNAL d = true)
    ∧ (analyzed n = true → externally_visible (local n) = false →
       ∃ d, trees w !! decl n = Some d
            ∧ (DECL_EXTERNAL d = true ∨ TREE_PUBLIC d = false)).

(** The sample graph with [g] defined in the unit and analyzed, and a
    public [f]. *)
Definition sample_visible : world :=
  sample_graph
    <| trees ::= alter (λ x, x <| TREE_PUBLIC := true |>) 2 |>
    <| nodes ::=
         alter (λ n, n <| analyzed := true |> <| reachable := true |>) 1 |>
    <| nodes ::= delete 2 |>
    <| cgraph_nodes := [1; 0] |> <| cgraph_n_nodes := 2 |>.

(** The node without the two flags the visibility pass assigns. *)
Definition but_visibility (n : cgraph_node) : cgraph_node :=
  n <| local ::= (λ l, l <| externally_visible := false |>
                         <| is_local := false |>) |>.

(** The reasons for which the pass makes a function externally visible:
    it is reachable, and is COMDAT or, outside whole-program mode, a
    public definition. *)
Definition exported_function (w : world) (n : cgraph_node) : Prop :=
  reachable n = true
  ∧ ∃ d, trees w !! decl n = Some d
         ∧ (DECL_COMDAT d = true
            ∨ (flag_whole_program w = false ∧ TREE_PUBLIC d = true
               ∧ DECL_EXTERNAL d = false)).

(** The process state without its nodes and trees. *)
Definition but_nodes_and_trees (w : world) : world :=
  w <| nodes := ∅ |> <| trees := ∅ |>.

(** The process state without its variables and trees. *)
Definition but_vnodes_and_trees (w : world) : world :=
  w <| vnodes := ∅ |> <| trees := ∅ |>.

(** [p] is on the chain of variables that starts at [start] and follows
    [next_needed]. *)
Inductive on_variable_queue (w : world)
    : option vnode_ptr → vnode_ptr → Prop :=
  | on_variable_queue_here p : on_variable_queue w (Some p) p
  | on_variable_queue_next q v p :
      vnodes w !! q = Some v → on_variable_queue w (v_next_needed v) p →
      on_variable_queue w (Some q) p.

(** What the loop over the variables leaves of a variable: its
    declaration is static, and is not public unless the variable is
    externally visible. *)
Definition variable_settled (w : world) (p : vnode_ptr) : Prop :=
  ∃ v d, vnodes w !! p = Some v ∧ trees w !! v_decl v = Some d
         ∧ TREE_STATIC d = true
         ∧ (v_externally_visible v = false → TREE_PUBLIC d = false).

(** The reasons for which the pass makes a variable externally visible:
    outside whole-program mode, it is needed and its declaration is
    COMDAT or public. *)
Definition exported_variable (w : world) (v : cgraph_varpool_node) : Prop :=
  v_needed v = true ∧ flag_whole_program w = false
  ∧ ∃ d, trees w !! v_decl v = Some d
         ∧ (DECL_COMDAT d = true ∨ TREE_PUBLIC d = true).

(** The sample graph with two variables on the queue: the static
    variable, tree 4, which is needed, and a static variable, tree 14,
    that is public. *)
Definition sample_visible_variables : world :=
  sample_visible
    <| trees ::= <[14 := (make_node VAR_DECL) <| TREE_STATIC := true |>
                                              <| TREE_PUBLIC := true |>]> |>
    <| vnodes := {[ 0 := (new_varpool_node 4) <| v_needed := true |>
                                              <| v_next_needed := Some 1 |>;
                    1 := (new_varpool_node 14) <| v_needed := true |> ]} |>
    <| cgraph_varpool_nodes_queue := Some 0 |>.

(** ** Notions for [cgraph_preserve_function_body_p] *)

(** [p] is on the chain of clones that starts at [start] and follows
    [next_clone]. *)
Inductive on_clone_chain (w : world) : option node_ptr → node_ptr → Prop :=
  | on_clone_chain_here p : on_clone_chain w (Some p) p
  | on_clone_chain_next q x p :
      nodes w !! q = Some x → on_clone_chain w (next_clone x) p →
      on_clone_chain w (Some q) p.

(** The sample graph once the global information is ready, with the
    inline clone 2 on the clone chain of [g]. *)
Definition sample_ready : world :=
  sample_graph
    <| nodes ::= alter (λ n, n <| next_clone := Some 2 |>) 1 |>
    <| cgraph_global_info_ready := true |>.

(** ** The verifier

    [verify_cgraph_node] reports through the diagnostic machinery, which
    cgraphunit.c calls but does not define.  As for the other
    collaborators, nothing is assumed of these procedures. *)
Class Diagnostics := {
  timevar_push : M unit;
  timevar_pop : M unit;
  (* [error (format, ...)]: the format and its string arguments *)
  error_at : string → list string → M unit;
  cgraph_node_name : node_ptr → M string;
  debug_generic_stmt : tree → M unit;
  debug_tree : tree → M unit;
  (* [fprintf (stderr, ...)] *)
  fprintf_stderr : string → M unit;
  dump_cgraph_node : node_ptr → M unit
}.

(** [internal_error] does not return: the run stops as it does on a
    failed [gcc_assert], which ends in [internal_error] as well. *)
Definition internal_error {A} (msg : string) : M A := fail AssertFailure.

(** A loop whose body may set the local flag [error_found]. *)
Fixpoint for_each_found {A} (l : list A) (body : A → bool → M bool)
    (error_found : bool) : M bool :=
  match l with
  | [] => ret error_found
  | x :: l' =>
      error_found <- body x error_found ;;
      for_each_found l' body error_found
  end.

(** Modelled from the spec: [cgraph_edge (node, call_stmt)] of cgraph.c,
    "pairing each call statement with a graph edge": the first edge
    among the callees of the node that carries the statement as its
    "source statement handle", null when there is none. *)
Fixpoint find_call_edge (l : list edge_ptr) (stmt : tree)
    : M (option edge_ptr) :=
  match l with
  | [] => ret None
  | e :: l' =>
      x <- the_edge e ;;
      if decide (call_stmt x = stmt) then ret (Some e)
      else find_call_edge l' stmt
  end.

Definition cgraph_edge_of_stmt (node : node_ptr) (stmt : tree)
    : M (option edge_ptr) :=
  n <- the_node node ;; find_call_edge (callees n) stmt.

(** The loop of [verify_cgraph_node] from [cgraph_node (node->decl)]
    along [next_clone], which stops at [node]. *)
Fixpoint find_main_clone (fuel : nat) (p : option node_ptr)
    (node : node_ptr) : M (option node_ptr) :=
  match p with
  | None => ret None
  | Some m =>
      if decide (m = node) then ret (Some m)
      else
        match fuel with
        | 0 => fail OutOfFuel
        | S fuel' =>
            x <- the_node m ;;
            find_main_clone fuel' (next_clone x) node
        end
  end.

Section verify.
Context `{Externals} `{Diagnostics}.

(** The body of the first loop, over the callees. *)
Definition verify_callee_aux (e : edge_ptr) (error_found : bool) : M bool :=
  x <- the_edge e ;;
  if aux x then
    from <- ext (cgraph_node_name (caller x)) ;;
    to <- ext (cgraph_node_name (callee x)) ;;
    ext (error_at "aux field set for edge %s->%s" [from; to]) ;;
    ret true
  else ret error_found.

(** The body of the second loop, over the callers. *)
Definition verify_caller (node : node_ptr) (e : edge_ptr)
    (error_found : bool) : M bool :=
  x <- the_edge e ;;
  if negb (non_null (inline_failed x)) then
    n <- the_node node ;;
    c <- the_node (caller x) ;;
    let target := if non_null (inlined_to (global c))
                  then inlined_to (global c) else Some (caller x) in
    error_found <-
      (if negb (bool_decide (inlined_to (global n) = target)) then
         ext (error_at "inlined_to pointer is wrong" []) ;; ret true
       else ret error_found) ;;
    n <- the_node node ;;
    first <- deref (head (callers n)) ;;
    the_edge first ;;
    if non_null (callers n !! 1) then
      ext (error_at "multiple inline callers" []) ;; ret true
    else ret error_found
  else
    n <- the_node node ;;
    if non_null (inlined_to (global n)) then
      ext (error_at "inlined_to pointer set for noninline callers" []) ;;
      ret true
    else ret error_found.

(** The body of the walk over the statements of the CFG. *)
Definition verify_call_stmt (node : node_ptr) (stmt : tree)
    (error_found : bool) : M bool :=
  call <- ext (get_call_expr_in stmt) ;;
  callee_decl <- match call with
                 | Some c => ext (get_callee_fndecl c)
                 | None => ret None
                 end ;;
  match call, callee_decl with
  | Some _, Some d =>
      e <- cgraph_edge_of_stmt node stmt ;;
      match e with
      | Some e =>
          x <- the_edge e ;;
          error_found <-
            (if aux x then
               ext (error_at "shared call_stmt:" []) ;;
               ext (debug_generic_stmt stmt) ;;
               ret true
             else ret error_found) ;;
          x <- the_edge e ;;
          c <- the_node (callee x) ;;
          m <- cgraph_node_of_decl d ;;
          mx <- the_node m ;;
          when (negb (bool_decide (decl c = decl mx))) (
            ext (error_at "edge points to wrong declaration:" []) ;;
            x <- the_edge e ;;
            c <- the_node (callee x) ;;
            ext (debug_tree (decl c)) ;;
            ext (fprintf_stderr " Instead of:") ;;
            ext (debug_tree d)) ;;
          set_edge e (λ x, x <| aux := true |>) ;;
          ret error_found
      | None =>
          ext (error_at "missing callgraph edge for call stmt:" []) ;;
          ext (debug_generic_stmt stmt) ;;
          ret true
      end
  | _, _ => ret error_found
  end.

(** The body of the last loop, over the callees. *)
Definition verify_callee_stmt (e : edge_ptr) (error_found : bool) : M bool :=
  x <- the_edge e ;;
  error_found <-
    (if negb (aux x) then
       from <- ext (cgraph_node_name (caller x)) ;;
       to <- ext (cgraph_node_name (callee x)) ;;
       ext (error_at "edge %s->%s has no corresponding call_stmt" [from; to]) ;;
       x <- the_edge e ;;
       ext (debug_generic_stmt (call_stmt x)) ;;
       ret true
     else ret error_found) ;;
  set_edge e (λ x, x <| aux := false |>) ;;
  ret error_found.

Definition verify_cgraph_node (fuel : nat) (node : node_ptr) : M unit :=
  n <- the_node node ;;
  d <- the_tree (decl n) ;;
  let this_cfun := DECL_STRUCT_FUNCTION d in
  let error_found := false in
  ext timevar_push ;;
  n <- the_node node ;;
  error_found <- for_each_found (callees n) verify_callee_aux error_found ;;
  n <- the_node node ;;
  error_found <- for_each_found (callers n) (verify_caller node) error_found ;;
  n <- the_node node ;;
  error_found <-
    (if negb (non_null (head (callers n)))
        && non_null (inlined_to (global n)) then
       ext (error_at "inlined_to pointer is set but no predecesors found" []) ;;
       ret true
     else ret error_found) ;;
  n <- the_node node ;;
  error_found <-
    (if bool_decide (inlined_to (global n) = Some node) then
       ext (error_at "inlined_to pointer refers to itself" []) ;; ret true
     else ret error_found) ;;
  d <- decl_of node ;;
  main_clone <- cgraph_node_of_decl d ;;
  find_main_clone fuel (Some main_clone) node ;;
  error_found <-
    (if negb (non_null (Some node)) then
       ext (error_at "node not found in DECL_ASSEMBLER_NAME hash" []) ;; ret true
     else ret error_found) ;;
  n <- the_node node ;;
  body_to_check <-
    (if analyzed n then
       d <- the_tree (decl n) ;;
       ret (non_null (DECL_SAVED_TREE d) && negb (TREE_ASM_WRITTEN d)
            && (negb (DECL_EXTERNAL d) || non_null (inlined_to (global n))))
     else ret false) ;;
  error_found <-
    (if body_to_check then
       fp <- deref this_cfun ;;
       fn <- the_function fp ;;
       error_found <-
         match cfg fn with
         | Some blocks =>
             modify (λ w, w <| visited_nodes := Some ∅ |>) ;;
             error_found <-
               for_each_found blocks
                 (λ this_block error_found,
                    for_each_found (bb_stmts this_block)
                      (verify_call_stmt node) error_found)
                 error_found ;;
             modify (λ w, w <| visited_nodes := None |>) ;;
             ret error_found
         | None => gcc_unreachable
         end ;;
       n <- the_node node ;;
       for_each_found (callees n) verify_callee_stmt error_found
     else ret error_found) ;;
  when error_found (
    ext (dump_cgraph_node node) ;;
    internal_error "verify_cgraph_node failed") ;;
  ext timevar_pop.

End verify.

(** Diagnostics that print nothing. *)
Definition sample_diagnostics : Diagnostics :=
  {| timevar_push := ret tt;
     timevar_pop := ret tt;
     error_at := λ _ _, ret tt;
     cgraph_node_name := λ _, ret "name"%string;
     debug_generic_stmt := λ _, ret tt;
     debug_tree := λ _, ret tt;
     fprintf_stderr := λ _, ret tt;
     dump_cgraph_node := λ _, ret tt |}.

(** What the checks of [verify_cgraph_node] on the edges of a node ask:
    no [aux] on a callee edge; a node with an inlined caller edge has
    this one caller only and is inlined into what this caller is inlined
    into, or into the caller itself; a node with a caller edge that is
    not inlined, or with no caller, has no [inlined_to]; no node is
    inlined into itself. *)
Definition inline_links_consistent (w : world) (node : node_ptr) : Prop :=
  ∃ n, nodes w !! node = Some n
    ∧ (∀ e, e ∈ callees n → ∃ x, edges w !! e = Some x ∧ aux x = false)
    ∧ (∀ e, e ∈ callers n →
         ∃ x, edges w !! e = Some x
              ∧ match inline_failed x with
                | None =>
                    ∃ c, nodes w !! caller x = Some c
                         ∧ inlined_to (global n)
                           = Some (default (caller x) (inlined_to (global c)))
                         ∧ callers n = [e]
                | Some _ => inlined_to (global n) = None
                end)
    ∧ (callers n = [] → inlined_to (global n) = None)
    ∧ inlined_to (global n) ≠ Some node.

(** The condition under which [verify_cgraph_node] compares the body of
    a node with its edges: the node is analyzed, its declaration has a
    body that has not been written, and it is not external or the node
    is an inline clone. *)
Definition body_to_verify (n : cgraph_node) (d : tree_node) : bool :=
  analyzed n
  && (non_null (DECL_SAVED_TREE d) && negb (TREE_ASM_WRITTEN d)
      && (negb (DECL_EXTERNAL d) || non_null (inlined_to (global n)))).

(** The sample graph with the function [f] lowered: one block with the
    two call statements 9 and 10 of [g], which the edges 0 and 1 carry. *)
Definition sample_lowered : world :=
  sample_graph
    <| trees ::= (λ t,
         <[9 := make_node CALL_EXPR]>
           (<[10 := make_node CALL_EXPR]>
              (alter (λ x, x <| DECL_STRUCT_FUNCTION := Some 0 |>) 2 t))) |>
    <| functions :=
         {[ 0 := {| cfg := Some [ {| bb_stmts := [9; 10]; bb_count := 0%Z;
                                     bb_loop_depth := 0 |} ];
                    unexpanded_var_list := [];
                    function_end_locus := 0 |} ]} |>
    <| edges ::= (λ m,
         alter (λ x, x <| call_stmt := 9 |>) 0
           (alter (λ x, x <| call_stmt := 10 |>) 1 m)) |>.

(** A front end that sees a call of [g] in the statements 9 and 10. *)
Definition calls_externals : Externals :=
  {| lang_analyze_expr := None;
     lang_expand_function := @lang_expand_function sample_externals;
     lang_disregard_inline_limits :=
       @lang_disregard_inline_limits sample_externals;
     walk_tree := walk_root_only;
     get_call_expr_in :=
       λ s, ret (if bool_decide (s = 9 ∨ s = 10) then Some s else None);
     get_callee_fndecl := λ _, ret (Some 8);
     tree_lowering_passes := @tree_lowering_passes sample_externals;
     lower_nested_functions := @lower_nested_functions sample_externals;
     gimplify_function_tree := @gimplify_function_tree sample_externals;
     tree_rest_of_compilation := @tree_rest_of_compilation sample_externals;
     tree_inlinable_function_p := @tree_inlinable_function_p sample_externals;
     estimate_num_insns := @estimate_num_insns sample_externals;
     cgraph_default_inline_p := @cgraph_default_inline_p sample_externals;
     cgraph_decide_inlining_incrementally :=
       @cgraph_decide_inlining_incrementally sample_externals;
     cgraph_postorder := @cgraph_postorder sample_externals;
     cgraph_varpool_finalize_decl :=
       @cgraph_varpool_finalize_decl sample_externals;
     new_edge_inline_failed := @new_edge_inline_failed sample_externals;
     notice_global_symbol := @notice_global_symbol sample_externals;
     finish_aliases_1 := @finish_aliases_1 sample_externals;
     ggc_collect := @ggc_collect sample_externals;
     deferred_inline_function := @deferred_inline_function sample_externals;
     do_warn_unused_parameter := @do_warn_unused_parameter sample_externals;
     push_cfun := @push_cfun sample_externals;
     pop_cfun := @pop_cfun sample_externals;
     get_file_function_name_long :=
       @get_file_function_name_long sample_externals;
     asm_out_constructor := @asm_out_constructor sample_externals;
     asm_out_destructor := @asm_out_destructor sample_externals |}.

(** * Reasoning about the monad *)

Section monad_facts.

Lemma bind_ok {A B} (m : M A) (k : A → M B) w r :
  bind m k w = Ok r ↔ ∃ a w1, m w = Ok (a, w1) ∧ k a w1 = Ok r.
Proof.
  unfold bind. split.
  - destruct (m w) as [[a w1]|e]; [eauto | discriminate].
  - intros (a & w1 & -> & Hk). exact Hk.
Qed.

Lemma bind_eq {A B} (m : M A) (k : A → M B) w a w1 :
  m w = Ok (a, w1) → bind m k w = k a w1.
Proof. unfold bind. by intros ->. Qed.

Lemma bind_err {A B} (m : M A) (k : A → M B) w e :
  m w = Err e → bind m k w = Err e.
Proof. unfold bind. by intros ->. Qed.

Lemma ret_ok {A} (a b : A) w w' : ret a w = Ok (b, w') ↔ b = a ∧ w' = w.
Proof. unfold ret. split; [by intros [= -> ->] | by intros [-> ->]]. Qed.

Lemma get_ok w a w' : get w = Ok (a, w') ↔ a = w ∧ w' = w.
Proof. unfold get. split; [by intros [= -> ->] | by intros [-> ->]]. Qed.

Lemma gets_ok {A} (f : world → A) w a w' :
  gets f w = Ok (a, w') ↔ a = f w ∧ w' = w.
Proof. unfold gets. split; [by intros [= <- <-] | by intros [-> ->]]. Qed.

Lemma modify_ok f w u w' : modify f w = Ok (u, w') ↔ w' = f w.
Proof.
  unfold modify. destruct u. split; [by intros [= <-] | by intros ->].
Qed.

Lemma gcc_assert_ok b w u w' :
  gcc_assert b w = Ok (u, w') ↔ b = true ∧ w' = w.
Proof.
  destruct u, b; unfold gcc_assert, ret, fail;
    (split; [intros [=] | intros [[=] ?]]); by subst.
Qed.

Lemma deref_ok {A} (o : option A) w a w' :
  deref o w = Ok (a, w') ↔ o = Some a ∧ w' = w.
Proof.
  destruct o; unfold deref, ret, fail;
    (split; [intros [=] | intros [[=] ?]]); by subst.
Qed.

Lemma the_node_ok p w n w' :
  the_node p w = Ok (n, w') ↔ nodes w !! p = Some n ∧ w' = w.
Proof. unfold the_node, bind, get. apply deref_ok. Qed.

Lemma the_edge_ok p w x w' :
  the_edge p w = Ok (x, w') ↔ edges w !! p = Some x ∧ w' = w.
Proof. unfold the_edge, bind, get. apply deref_ok. Qed.

Lemma the_vnode_ok p w x w' :
  the_vnode p w = Ok (x, w') ↔ vnodes w !! p = Some x ∧ w' = w.
Proof. unfold the_vnode, bind, get. apply deref_ok. Qed.

Lemma the_tree_ok p w x w' :
  the_tree p w = Ok (x, w') ↔ trees w !! p = Some x ∧ w' = w.
Proof. unfold the_tree, bind, get. apply deref_ok. Qed.

Lemma the_function_ok p w x w' :
  the_function p w = Ok (x, w') ↔ functions w !! p = Some x ∧ w' = w.
Proof. unfold the_function, bind, get. apply deref_ok. Qed.

Lemma set_node_ok p f w u w' :
  set_node p f w = Ok (u, w') ↔
  ∃ n, nodes w !! p = Some n ∧ w' = w <| nodes ::= <[p := f n]> |>.
Proof.
  unfold set_node. rewrite bind_ok. split.
  - intros (n & w1 & [Hn ->]%the_node_ok & ->%modify_ok). eauto.
  - intros (n & Hn & ->). exists n, w. by rewrite the_node_ok, modify_ok.
Qed.

Lemma set_edge_ok p f w u w' :
  set_edge p f w = Ok (u, w') ↔
  ∃ x, edges w !! p = Some x ∧ w' = w <| edges ::= <[p := f x]> |>.
Proof.
  unfold set_edge. rewrite bind_ok. split.
  - intros (n & w1 & [Hn ->]%the_edge_ok & ->%modify_ok). eauto.
  - intros (n & Hn & ->). exists n, w. by rewrite the_edge_ok, modify_ok.
Qed.

Lemma set_vnode_ok p f w u w' :
  set_vnode p f w = Ok (u, w') ↔
  ∃ x, vnodes w !! p = Some x ∧ w' = w <| vnodes ::= <[p := f x]> |>.
Proof.
  unfold set_vnode. rewrite bind_ok. split.
  - intros (n & w1 & [Hn ->]%the_vnode_ok & ->%modify_ok). eauto.
  - intros (n & Hn & ->). exists n, w. by rewrite the_vnode_ok, modify_ok.
Qed.

Lemma set_tree_ok p f w u w' :
  set_tree p f w = Ok (u, w') ↔
  ∃ x, trees w !! p = Some x ∧ w' = w <| trees ::= <[p := f x]> |>.
Proof.
  unfold set_tree. rewrite bind_ok. split.
  - intros (n & w1 & [Hn ->]%the_tree_ok & ->%modify_ok). eauto.
  - intros (n & Hn & ->). exists n, w. by rewrite the_tree_ok, modify_ok.
Qed.

Lemma set_function_ok p f w u w' :
  set_function p f w = Ok (u, w') ↔
  ∃ x, functions w !! p = Some x
       ∧ w' = w <| functions ::= <[p := f x]> |>.
Proof.
  unfold set_function. rewrite bind_ok. split.
  - intros (n & w1 & [Hn ->]%the_function_ok & ->%modify_ok). eauto.
  - intros (n & Hn & ->). exists n, w.
    by rewrite the_function_ok, modify_ok.
Qed.

Lemma decl_of_ok node w d w' :
  decl_of node w = Ok (d, w') ↔
  ∃ n, nodes w !! node = Some n ∧ d = decl n ∧ w' = w.
Proof.
  unfold decl_of. rewrite bind_ok. split.
  - intros (n & w1 & [Hn ->]%the_node_ok & [-> ->]%ret_ok). eauto.
  - intros (n & Hn & -> & ->). exists n, w. by rewrite the_node_ok, ret_ok.
Qed.

Lemma emit_ok e w u w' :
  emit e w = Ok (u, w') ↔ w' = w <| trace ::= (λ t, t ++ [e]) |>.
Proof. unfold emit. apply modify_ok. Qed.

Lemma ext_ok {A} (m : M A) w a w' :
  ext m w = Ok (a, w') ↔
  ∃ w1, m w = Ok (a, w1) ∧ w' = w1 <| trace := trace w |>.
Proof.
  unfold ext. destruct (m w) as [[b w1]|e]; split.
  - intros [= -> <-]. eauto.
  - by intros (w2 & [= -> ->] & ->).
  - done.
  - by intros (w2 & [=] & _).
Qed.

Lemma when_true (m : M unit) w : when true m w = m w.
Proof. done. Qed.

Lemma when_false (m : M unit) w : when false m w = Ok (tt, w).
Proof. done. Qed.

Lemma when_false_ok (m : M unit) w u w' :
  when false m w = Ok (u, w') ↔ w' = w.
Proof.
  destruct u. simpl. rewrite (ret_ok tt tt). split; [by intros [_ ?]|done].
Qed.

Lemma ok_pair_inv {A} (a b : A) (w w' : world) :
  @Ok (A * world) (a, w) = Ok (b, w') → b = a ∧ w' = w.
Proof. by intros [= -> ->]. Qed.

Lemma for_each_cons_ok {A} (x : A) l (body : A → M unit) w r :
  for_each (x :: l) body w = Ok r ↔
  ∃ w1, body x w = Ok (tt, w1) ∧ for_each l body w1 = Ok r.
Proof.
  simpl. rewrite bind_ok. split.
  - intros ([] & w1 & ? & ?). eauto.
  - intros (w1 & ? & ?). eauto.
Qed.

Lemma for_each_app_ok {A} (l1 l2 : list A) (body : A → M unit) w r :
  for_each (l1 ++ l2) body w = Ok r ↔
  ∃ w1, for_each l1 body w = Ok (tt, w1) ∧ for_each l2 body w1 = Ok r.
Proof.
  revert w. induction l1 as [|x l1 IH]; intros w.
  - simpl. unfold ret. split; [eauto|]. by intros (w1 & [= ->] & ?).
  - rewrite <- app_comm_cons, !for_each_cons_ok. split.
    + intros (w1 & Hx & (w2 & H1 & H2)%IH). exists w2. split; [|done].
      apply for_each_cons_ok. eauto.
    + intros (w2 & (w1 & Hx & H1)%for_each_cons_ok & H2).
      exists w1. split; [done|]. apply IH. eauto.
Qed.

(** A loop keeps what every turn of it keeps. *)
Lemma for_each_invariant {A} (I : world → Prop) (l : list A)
    (body : A → M unit) w u w' :
  (∀ x w1 w2, x ∈ l → I w1 → body x w1 = Ok (tt, w2) → I w2) →
  I w → for_each l body w = Ok (u, w') → I w'.
Proof.
  destruct u. revert w. induction l as [|x l IH]; intros w Hbody HI Hrun.
  - simpl in Hrun. by apply ret_ok in Hrun as [_ ->].
  - apply for_each_cons_ok in Hrun as (w1 & Hx & Hl).
    eapply (IH w1); [| |done].
    + intros y wa wb Hy. apply Hbody. by right.
    + eapply Hbody; [by left|done..].
Qed.

End monad_facts.

(** Splitting a successful run into the runs of its parts. *)
Ltac use_eq H :=
  lazymatch type of H with
  | ?x = ?y =>
      first [ is_var x; subst x
            | is_var y; subst y
            | unify x y; clear H
            | idtac ]
  end.

Ltac name_read H base :=
  lazymatch type of H with
  | _ = Some ?v =>
      tryif is_var v then (let x := fresh base in rename v into x) else idtac
  end.

Ltac run1 H :=
  lazymatch type of H with
  | Ok (_, _) = Ok (_, _) =>
      let E := fresh "E" in
      apply ok_pair_inv in H as [E H]; use_eq E; use_eq H
  | (if true then ?a else _) ?w = Ok ?r => change (a w = Ok r) in H
  | (if false then _ else ?b) ?w = Ok ?r => change (b w = Ok r) in H
  | (if negb true then _ else ?b) ?w = Ok ?r => change (b w = Ok r) in H
  | (if negb false then ?a else _) ?w = Ok ?r => change (a w = Ok r) in H
  | when true _ _ = Ok _ => rewrite when_true in H
  | when false _ _ = Ok _ => apply when_false_ok in H; use_eq H
  | when ?b _ _ = Ok _ =>
      let b' := eval simpl in b in progress change b with b' in H
  | bind _ _ _ = Ok _ =>
      let a := fresh "a" in let w := fresh "w" in let Ha := fresh "Hrun" in
      apply bind_ok in H as (a & w & Ha & H)
  | ret _ _ = Ok _ =>
      let E := fresh "E" in apply ret_ok in H as [E H]; use_eq E; use_eq H
  | get _ = Ok _ =>
      let E := fresh "E" in apply get_ok in H as [E H]; use_eq H; use_eq E
  | gets _ _ = Ok _ =>
      let E := fresh "E" in apply gets_ok in H as [E H]; use_eq H; use_eq E
  | modify _ _ = Ok _ => apply modify_ok in H; use_eq H
  | emit _ _ = Ok _ => apply emit_ok in H; use_eq H
  | gcc_assert _ _ = Ok _ =>
      let Hb := fresh "Hassert" in
      apply gcc_assert_ok in H as [Hb H]; use_eq H
  | deref _ _ = Ok _ =>
      let Hx := fresh "Hderef" in
      apply deref_ok in H as [Hx H]; use_eq H
  | the_node _ _ = Ok _ =>
      let Hx := fresh "Hnode" in
      apply the_node_ok in H as [Hx H]; use_eq H; name_read Hx ident:(nd)
  | the_edge _ _ = Ok _ =>
      let Hx := fresh "Hedge" in
      apply the_edge_ok in H as [Hx H]; use_eq H; name_read Hx ident:(ed)
  | the_vnode _ _ = Ok _ =>
      let Hx := fresh "Hvnode" in
      apply the_vnode_ok in H as [Hx H]; use_eq H; name_read Hx ident:(vn)
  | the_tree _ _ = Ok _ =>
      let Hx := fresh "Htree" in
      apply the_tree_ok in H as [Hx H]; use_eq H; name_read Hx ident:(tn)
  | the_function _ _ = Ok _ =>
      let Hx := fresh "Hfun" in
      apply the_function_ok in H as [Hx H]; use_eq H; name_read Hx ident:(fn)
  | decl_of _ _ = Ok _ =>
      let x := fresh "nd" in let Hx := fresh "Hnode" in
      let E := fresh "E" in
      apply decl_of_ok in H as (x & Hx & E & H); use_eq H; use_eq E
  | set_node _ _ _ = Ok _ =>
      let x := fresh "nd" in let Hx := fresh "Hnode" in
      apply set_node_ok in H as (x & Hx & H); use_eq H
  | set_edge _ _ _ = Ok _ =>
      let x := fresh "ed" in let Hx := fresh "Hedge" in
      apply set_edge_ok in H as (x & Hx & H); use_eq H
  | set_vnode _ _ _ = Ok _ =>
      let x := fresh "vn" in let Hx := fresh "Hvnode" in
      apply set_vnode_ok in H as (x & Hx & H); use_eq H
  | set_tree _ _ _ = Ok _ =>
      let x := fresh "tn" in let Hx := fresh "Htree" in
      apply set_tree_ok in H as (x & Hx & H); use_eq H
  | set_function _ _ _ = Ok _ =>
      let x := fresh "fn" in let Hx := fresh "Hfun" in
      apply set_function_ok in H as (x & Hx & H); use_eq H
  | fail _ _ = Ok _ => discriminate H
  | gcc_unreachable _ = Ok _ => discriminate H
  end.

(** Rewriting in the runs at hand. *)
Ltac rew_run E :=
  repeat match goal with
         | H : _ = Ok _ |- _ => rewrite E in H
         end.

Ltac norm_negb :=
  change (negb true) with false in *; change (negb false) with true in *.

Ltac some_inj H := apply (inj Some) in H; use_eq H.

Ltac run :=
  repeat match goal with
         | H : _ = Ok ?r |- _ => is_var r; destruct r
         | H : _ = Ok _ |- _ => run1 H
         | u : unit |- _ => destruct u
         | H : Some _ = Some _ |- _ => apply (inj Some) in H; use_eq H
         | H : _ !! _ = Some _ |- _ =>
             progress (simpl in H; rewrite ?lookup_insert_eq in H)
         | H1 : ?x = Some ?a, H2 : ?x = Some ?b |- _ =>
             rewrite H1 in H2; apply (inj Some) in H2; symmetry in H2;
             use_eq H2
         end.

(** * Facts about the callgraph store *)

Section store_facts.

Lemma unlinked_fields n n' :
  unlinked n' = unlinked n →
  decl n' = decl n ∧ local n' = local n ∧ global n' = global n
  ∧ rtl n' = rtl n ∧ needed n' = needed n ∧ reachable n' = reachable n
  ∧ lowered n' = lowered n ∧ analyzed n' = analyzed n
  ∧ output n' = output n ∧ alias n' = alias n ∧ nested n' = nested n.
Proof.
  intros Heq.
  repeat split;
    match goal with
    | |- ?f n' = ?f n => exact (f_equal f Heq)
    end.
Qed.

Lemma outside_graph_fields w w' :
  outside_graph w' = outside_graph w →
  trees w' = trees w ∧ functions w' = functions w ∧ vnodes w' = vnodes w
  ∧ flag_unit_at_a_time w' = flag_unit_at_a_time w
  ∧ cgraph_global_info_ready w' = cgraph_global_info_ready w
  ∧ trace w' = trace w.
Proof.
  intros Heq.
  repeat split;
    match goal with
    | |- ?f w' = ?f w => exact (f_equal f Heq)
    end.
Qed.

Lemma nodes_frame_refl S w : nodes_frame S w w.
Proof. by intros p _. Qed.

Lemma nodes_frame_trans S w1 w2 w3 :
  nodes_frame S w1 w2 → nodes_frame S w2 w3 → nodes_frame S w1 w3.
Proof. intros H12 H23 p Hp. by rewrite H23, H12. Qed.

Lemma nodes_frame_weaken (S S' : node_ptr → Prop) w w' :
  (∀ p, S p → S' p) → nodes_frame S w w' → nodes_frame S' w w'.
Proof. intros Hsub Hf p Hp. apply Hf. naive_solver. Qed.

Lemma nodes_frame_lookup S w w' p n :
  nodes_frame S w w' → ¬ S p → nodes w !! p = Some n →
  ∃ n', nodes w' !! p = Some n' ∧ unlinked n' = unlinked n.
Proof.
  intros Hf Hp Hn. specialize (Hf p Hp). rewrite Hn in Hf.
  destruct (nodes w' !! p) as [n'|]; [|discriminate].
  exists n'. split; [done|]. by apply (inj Some).
Qed.



(** An assignment to a link field of [q] is within the frame of every
    set; any assignment to [q] is within the frame of [q]. *)
Lemma nodes_frame_insert_links S w q n f :
  nodes w !! q = Some n → unlinked (f n) = unlinked n →
  nodes_frame S w (w <| nodes ::= <[q := f n]> |>).
Proof.
  intros Hq Hf p _. simpl. destruct (decide (q = p)) as [->|Hne].
  - by rewrite lookup_insert_eq, Hq; simpl; rewrite Hf.
  - by rewrite lookup_insert_ne.
Qed.

Lemma nodes_frame_insert w q x :
  nodes_frame (λ p, p = q) w (w <| nodes ::= <[q := x]> |>).
Proof. intros p Hp. simpl. by rewrite lookup_insert_ne. Qed.

End store_facts.
Section store_facts2.

Lemma last_needed_same fuel p w l w' :
  last_needed fuel p w = Ok (l, w') → w' = w ∧ is_Some (nodes w !! l).
Proof.
  revert p. induction fuel as [|fuel IH]; intros p Hrun; [done|].
  simpl in Hrun. run. destruct (next_needed nd); [eauto|].
  run. eauto.
Qed.

Lemma last_needed_variable_same fuel p w l w' :
  last_needed_variable fuel p w = Ok (l, w') → w' = w.
Proof.
  revert p. induction fuel as [|fuel IH]; intros p Hrun; [done|].
  simpl in Hrun. run. destruct (v_next_needed vn); [eauto|].
  by run.
Qed.

Lemma on_needed_queue_same fuel start p w b w' :
  on_needed_queue fuel start p w = Ok (b, w') → w' = w.
Proof.
  revert start. induction fuel as [|fuel IH]; intros start Hrun.
  - destruct start as [q|]; simpl in Hrun; [|by run].
    destruct (decide (q = p)); by run.
  - destruct start as [q|]; simpl in Hrun; [|by run].
    destruct (decide (q = p)); [by run|]. run. eauto.
Qed.

(** Linking a node into the worklist changes [next_needed] fields and the
    head of the worklist, nothing else. *)
Lemma enqueue_needed_node_frame q w w' :
  enqueue_needed_node q w = Ok (tt, w') →
  outside_graph w' = outside_graph w
  ∧ edges w' = edges w ∧ cgraph_hash w' = cgraph_hash w
  ∧ cgraph_nodes w' = cgraph_nodes w
  ∧ nodes_frame (λ _, False) w w'.
Proof.
  unfold enqueue_needed_node. intros Hrun. run.
  set (w1 := w <| nodes ::= _ |>) in *.
  assert (nodes_frame (λ _, False) w w1) as Hf1.
  { by apply (nodes_frame_insert_links _ _ _ _
                (λ n, n <| next_needed := None |>)). }
  destruct (cgraph_nodes_queue w1) as [h|] eqn:Hq.
  - run. apply last_needed_same in Hrun0 as [-> _].
    split_and!; try done.
    eapply nodes_frame_trans; [exact Hf1|].
    by apply (nodes_frame_insert_links _ _ _ _
                (λ n, n <| next_needed := Some q |>)).
  - by run.
Qed.

Lemma cgraph_mark_reachable_node_frame q w w' :
  cgraph_mark_reachable_node q w = Ok (tt, w') →
  outside_graph w' = outside_graph w
  ∧ edges w' = edges w ∧ cgraph_hash w' = cgraph_hash w
  ∧ cgraph_nodes w' = cgraph_nodes w
  ∧ nodes_frame (λ p, p = q) w w'
  ∧ ∃ n n', nodes w !! q = Some n ∧ nodes w' !! q = Some n'
            ∧ unlinked n' = unlinked (n <| reachable := true |>).
Proof.
  unfold cgraph_mark_reachable_node. intros Hrun. run.
  destruct (reachable nd) eqn:Hr.
  { run. split_and!; try done.
    exists nd, nd. split_and!; try done.
    destruct nd; simpl in Hr; by subst. }
  run. apply enqueue_needed_node_frame in Hrun as (Ho & He & Hh & Hl & Hf).
  split_and!; try done.
  - eapply nodes_frame_trans; [apply nodes_frame_insert|].
    eapply nodes_frame_weaken; [|exact Hf]. done.
  - eapply nodes_frame_lookup in Hf as (n' & Hn' & Hu); [| |].
    + exists nd, n'. split; [done|]. split; [exact Hn'|exact Hu].
    + tauto.
    + simpl. by rewrite lookup_insert_eq.
Qed.

Lemma cgraph_mark_needed_node_frame q w w' :
  cgraph_mark_needed_node q w = Ok (tt, w') →
  outside_graph w' = outside_graph w
  ∧ edges w' = edges w ∧ cgraph_hash w' = cgraph_hash w
  ∧ cgraph_nodes w' = cgraph_nodes w
  ∧ nodes_frame (λ p, p = q) w w'
  ∧ ∃ n n', nodes w !! q = Some n ∧ nodes w' !! q = Some n'
            ∧ unlinked n'
              = unlinked (n <| needed := true |> <| reachable := true |>).
Proof.
  unfold cgraph_mark_needed_node. intros Hrun. run.
  apply cgraph_mark_reachable_node_frame in Hrun
    as (Ho & He & Hh & Hl & Hf & n & n' & Hn & Hn' & Hu).
  split_and!; try done.
  - eapply nodes_frame_trans; [apply nodes_frame_insert|done].
  - simpl in Hn. rewrite lookup_insert_eq in Hn. some_inj Hn.
    exists nd, n'. split_and!; try done.
Qed.

Lemma cgraph_node_of_decl_ok d w p w' :
  cgraph_node_of_decl d w = Ok (p, w') →
  outside_graph w' = outside_graph w ∧ edges w' = edges w
  ∧ cgraph_nodes_queue w' = cgraph_nodes_queue w
  ∧ cgraph_hash w' !! d = Some p
  ∧ (cgraph_hash w !! d = Some p ∧ w' = w
     ∨ cgraph_hash w !! d = None ∧ nodes w !! p = None
       ∧ nodes w' = <[p := new_cgraph_node d]> (nodes w)
       ∧ cgraph_nodes w' = p :: cgraph_nodes w).
Proof.
  unfold cgraph_node_of_decl. intros Hrun. run.
  destruct (cgraph_hash w !! d) as [q|] eqn:Hq.
  - run. eauto 10.
  - run. simpl. rewrite lookup_insert_eq. split_and!; try done.
    right. split_and!; try done. apply not_elem_of_dom, is_fresh.
Qed.

Lemma cgraph_varpool_node_of_decl_ok d w p w' :
  cgraph_varpool_node_of_decl d w = Ok (p, w') →
  cgraph_varpool_hash w' !! d = Some p
  ∧ (cgraph_varpool_hash w !! d = Some p ∧ w' = w
     ∨ cgraph_varpool_hash w !! d = None ∧ vnodes w !! p = None
       ∧ w' = w <| vnodes ::= <[p := new_varpool_node d]> |>
                <| cgraph_varpool_hash ::= <[d := p]> |>).
Proof.
  unfold cgraph_varpool_node_of_decl. intros Hrun. run.
  destruct (cgraph_varpool_hash w !! d) as [q|] eqn:Hq.
  - run. eauto.
  - run. simpl. rewrite lookup_insert_eq. split; [done|].
    right. split_and!; try done. apply not_elem_of_dom, is_fresh.
Qed.

Lemma cgraph_varpool_enqueue_needed_node_keeps
    (P : cgraph_varpool_node → Prop) p q w w' n :
  (∀ x o, P x → P (x <| v_next_needed := o |>)) →
  cgraph_varpool_enqueue_needed_node p w = Ok (tt, w') →
  vnodes w !! q = Some n → P n →
  outside_varpool w' = outside_varpool w
  ∧ cgraph_varpool_hash w' = cgraph_varpool_hash w
  ∧ ∃ n', vnodes w' !! q = Some n' ∧ P n'.
Proof.
  intros HP. unfold cgraph_varpool_enqueue_needed_node.
  intros Hrun Hq Hn. run.
  assert (∃ n1, vnodes (w <| vnodes ::= <[p := vn <| v_next_needed := None |>]> |>)
                  !! q = Some n1 ∧ P n1) as (n1 & Hq1 & Hn1).
  { simpl. destruct (decide (p = q)) as [->|Hne].
    - rewrite lookup_insert_eq. run. eauto.
    - rewrite lookup_insert_ne by done. eauto. }
  revert Hrun2 Hq1.
  generalize (vn <| v_next_needed := None |>). intros vn' Hrun2 Hq1.
  assert (outside_varpool w2 = outside_varpool w
          ∧ cgraph_varpool_hash w2 = cgraph_varpool_hash w
          ∧ ∃ n2, vnodes w2 !! q = Some n2 ∧ P n2) as (Ho2 & Hh2 & Hq2).
  { destruct (cgraph_varpool_nodes_queue _) as [h|].
    - run. apply last_needed_variable_same in Hrun0 as ->.
      split_and!; try done. simpl.
      destruct (decide (a = q)) as [->|Hne].
      + rewrite lookup_insert_eq. run. eauto.
      + rewrite lookup_insert_ne by done. eauto.
    - run. split_and!; try done. eauto. }
  destruct (cgraph_varpool_first_unanalyzed_node w2); run; done.
Qed.

Lemma cgraph_varpool_mark_needed_node_ok p w w' :
  cgraph_varpool_mark_needed_node p w = Ok (tt, w') →
  outside_varpool w' = outside_varpool w
  ∧ cgraph_varpool_hash w' = cgraph_varpool_hash w
  ∧ ∃ n, vnodes w' !! p = Some n ∧ v_needed n = true.
Proof.
  unfold cgraph_varpool_mark_needed_node. intros Hrun. run.
  destruct (v_needed vn) eqn:Hv.
  { run. eauto 10. }
  run.
  eapply (cgraph_varpool_enqueue_needed_node_keeps
            (λ x, v_needed x = true) p p) in Hrun as (Ho & Hh & Hp);
    [done|done|..].
  - simpl. by rewrite lookup_insert_eq.
  - done.
Qed.

End store_facts2.
Section removal_facts.

Lemma graph_shrinks_refl w : graph_shrinks w w.
Proof. split_and!; try done. eauto. Qed.

Lemma graph_shrinks_trans w1 w2 w3 :
  graph_shrinks w1 w2 → graph_shrinks w2 w3 → graph_shrinks w1 w3.
Proof.
  intros (Ho1 & Hq1 & Hn1 & Hl1 & He1) (Ho2 & Hq2 & Hn2 & Hl2 & He2).
  split_and!.
  - by rewrite Ho2.
  - by rewrite Hq2.
  - intros p x3 (x2 & Hx2 & Hu2)%Hn2. apply Hn1 in Hx2 as (x1 & Hx1 & Hu1).
    exists x1. split; [done|]. by rewrite Hu2.
  - eauto.
  - by etrans.
Qed.

(** Changing the links of one node and freeing one edge shrinks the
    graph. *)
Lemma graph_shrinks_unlink w q n f e :
  nodes w !! q = Some n → unlinked (f n) = unlinked n →
  graph_shrinks w (w <| nodes ::= <[q := f n]> |> <| edges ::= delete e |>).
Proof.
  intros Hq Hf. split_and!; try done; simpl.
  - intros p x'. destruct (decide (q = p)) as [->|Hne].
    + rewrite lookup_insert_eq. intros [= <-]. eauto.
    + rewrite lookup_insert_ne by done. eauto.
  - apply delete_subseteq.
Qed.

Lemma graph_shrinks_set_links w q n f :
  nodes w !! q = Some n → unlinked (f n) = unlinked n →
  graph_shrinks w (w <| nodes ::= <[q := f n]> |>).
Proof.
  intros Hq Hf. split_and!; try done; simpl.
  intros p x'. destruct (decide (q = p)) as [->|Hne].
  - rewrite lookup_insert_eq. intros [= <-]. eauto.
  - rewrite lookup_insert_ne by done. eauto.
Qed.

(** The loop of [cgraph_node_remove_callees]. *)
Lemma remove_callee_edges_shrinks l : ∀ w w',
  for_each l (λ e,
    x <- the_edge e ;;
    set_node (callee x) (λ m, m <| callers ::= unlink_edge e |>) ;;
    modify (λ w, w <| edges ::= delete e |>)) w = Ok (tt, w') →
  graph_shrinks w w' ∧ cgraph_nodes w' = cgraph_nodes w
  ∧ cgraph_hash w' = cgraph_hash w
  ∧ nodes_frame (λ _, False) w w'
  ∧ ∀ e, e ∈ l → edges w' !! e = None.
Proof.
  induction l as [|e l IH]; intros w w' Hrun.
  { simpl in Hrun. run. split_and!; try done.
    - apply graph_shrinks_refl.
    - by intros e ?%elem_of_nil. }
  apply for_each_cons_ok in Hrun as (w1 & Hhead & Hrest). run.
  apply IH in Hrest as (Hs & Hl & Hh & Hf & Hgone).
  split_and!; try done.
  - eapply graph_shrinks_trans; [|exact Hs].
    by apply (graph_shrinks_unlink _ _ _
                (λ m, m <| callers ::= unlink_edge e |>)).
  - eapply nodes_frame_trans; [|exact Hf].
    by apply (nodes_frame_insert_links _ _ _ _
                (λ m, m <| callers ::= unlink_edge e |>)).
  - intros e' [->|?]%elem_of_cons; [|by apply Hgone].
    destruct Hs as (_ & _ & _ & _ & Hsub).
    eapply lookup_weaken_None; [|exact Hsub]. simpl.
    by rewrite lookup_delete_eq.
Qed.

Lemma cgraph_node_remove_callees_ok p w w' :
  cgraph_node_remove_callees p w = Ok (tt, w') →
  graph_shrinks w w' ∧ cgraph_nodes w' = cgraph_nodes w
  ∧ cgraph_hash w' = cgraph_hash w
  ∧ nodes_frame (λ _, False) w w'
  ∧ ∃ n n', nodes w !! p = Some n ∧ nodes w' !! p = Some n'
            ∧ callees n' = []
            ∧ ∀ e, e ∈ callees n → edges w' !! e = None.
Proof.
  unfold cgraph_node_remove_callees. intros Hrun. run.
  apply remove_callee_edges_shrinks in Hrun1 as (Hs & Hl & Hh & Hf & Hgone).
  split_and!; try done.
  - eapply graph_shrinks_trans; [exact Hs|].
    by apply (graph_shrinks_set_links _ _ _ (λ n, n <| callees := [] |>)).
  - eapply nodes_frame_trans; [exact Hf|].
    by apply (nodes_frame_insert_links _ _ _ _ (λ n, n <| callees := [] |>)).
  - eexists _, _. split; [done|]. split.
    { simpl. by rewrite lookup_insert_eq. }
    done.
Qed.

(** The first loop of [cgraph_remove_node]. *)
Lemma remove_caller_edges_shrinks l : ∀ w w',
  for_each l (λ e,
    x <- the_edge e ;;
    set_node (caller x) (λ m, m <| callees ::= unlink_edge e |>) ;;
    modify (λ w, w <| edges ::= delete e |>)) w = Ok (tt, w') →
  graph_shrinks w w' ∧ cgraph_nodes w' = cgraph_nodes w
  ∧ cgraph_hash w' = cgraph_hash w
  ∧ nodes_frame (λ _, False) w w'.
Proof.
  induction l as [|e l IH]; intros w w' Hrun.
  { simpl in Hrun. run. split_and!; try done. apply graph_shrinks_refl. }
  apply for_each_cons_ok in Hrun as (w1 & Hhead & Hrest). run.
  apply IH in Hrest as (Hs & Hl & Hh & Hf).
  split_and!; try done.
  - eapply graph_shrinks_trans; [|exact Hs].
    by apply (graph_shrinks_unlink _ _ _
                (λ m, m <| callees ::= unlink_edge e |>)).
  - eapply nodes_frame_trans; [|exact Hf].
    by apply (nodes_frame_insert_links _ _ _ _
                (λ m, m <| callees ::= unlink_edge e |>)).
Qed.

Lemma cgraph_remove_node_ok p w w' :
  cgraph_remove_node p w = Ok (tt, w') →
  graph_shrinks w w'
  ∧ nodes_frame (λ q, q = p) w w'
  ∧ nodes w' !! p = None
  ∧ cgraph_nodes w' = filter (λ x, x ≠ p) (cgraph_nodes w).
Proof.
  unfold cgraph_remove_node. intros Hrun. run.
  apply remove_caller_edges_shrinks in Hrun1 as (Hs1 & Hl1 & Hh1 & Hf1).
  apply cgraph_node_remove_callees_ok in Hrun2 as (Hs2 & Hl2 & Hh2 & Hf2 & _).
  set (detach := λ m : cgraph_node,
         if decide (next_clone m = Some p)
         then m <| next_clone := next_clone nd |> else m).
  assert (∀ m, unlinked (detach m) = unlinked m) as Hdetach.
  { intros m. unfold detach. by destruct (decide _). }
  set (w3 := if decide (cgraph_hash w2 !! decl nd = Some p) then _ else w2).
  assert (outside_graph w3 = outside_graph w2 ∧ nodes w3 = nodes w2
          ∧ edges w3 = edges w2 ∧ cgraph_nodes w3 = cgraph_nodes w2
          ∧ cgraph_nodes_queue w3 = cgraph_nodes_queue w2)
    as (Ho3 & Hn3 & He3 & Hl3 & Hq3).
  { unfold w3. destruct (decide _); [|done]. by destruct (next_clone nd). }
  clearbody w3.
  assert (graph_shrinks w w2) as Hs by by eapply graph_shrinks_trans.
  assert (nodes_frame (λ _, False) w w2) as Hf
    by by eapply nodes_frame_trans.
  destruct Hs as (Ho & Hq & Hn & Hl & He).
  split_and!; simpl.
  - split_and!; simpl.
    + by rewrite <- Ho, <- Ho3.
    + by rewrite Hq3.
    + intros q x'. destruct (decide (p = q)) as [->|Hne].
      { by rewrite lookup_delete_eq. }
      rewrite lookup_delete_ne, lookup_fmap, Hn3 by done.
      destruct (nodes w2 !! q) as [x1|] eqn:Hx1; [|done]. simpl.
      intros [= <-]. apply Hn in Hx1 as (x & Hx & Hu). exists x.
      split; [done|]. by rewrite Hdetach.
    + intros q [_ Hq']%list_elem_of_filter. apply Hl. by rewrite <- Hl3.
    + by rewrite He3.
  - intros q Hq'. simpl. rewrite lookup_delete_ne, lookup_fmap, Hn3 by done.
    rewrite <- Hf by tauto.
    destruct (nodes w2 !! q); [|done]. simpl. by rewrite Hdetach.
  - by rewrite lookup_delete_eq.
  - by rewrite Hl3, Hl2, Hl1.
Qed.

End removal_facts.
Section reset_facts.

Lemma on_chain_next_iff w q x p :
  nodes w !! q = Some x → q ≠ p →
  on_chain w (Some q) p ↔ on_chain w (next_needed x) p.
Proof.
  intros Hq Hne. split.
  - inversion 1; subst; [done|]. by run.
  - by apply on_chain_next.
Qed.

Lemma on_needed_queue_ok fuel : ∀ start p w b w',
  on_needed_queue fuel start p w = Ok (b, w') →
  w' = w ∧ (b = true ↔ on_chain w start p).
Proof.
  induction fuel as [|fuel IH]; intros [q|] p w b w' Hrun; simpl in Hrun.
  - destruct (decide (q = p)) as [->|Hne]; run.
    split; [done|]. split; [|done]. intros _. constructor.
  - run. split; [done|]. split; [done|]. inversion 1.
  - destruct (decide (q = p)) as [->|Hne]; run.
    { split; [done|]. split; [|done]. intros _. constructor. }
    apply IH in Hrun as [-> Hiff]. split; [done|].
    by rewrite Hiff, <- on_chain_next_iff.
  - run. split; [done|]. split; [done|]. inversion 1.
Qed.

(** The chain is read off the [next_needed] fields. *)
Lemma on_chain_same_links w w' start p :
  (∀ q, next_needed <$> nodes w' !! q = next_needed <$> nodes w !! q) →
  on_chain w start p → on_chain w' start p.
Proof.
  intros Hlinks. induction 1 as [|q x p Hq _ IH]; [constructor|].
  specialize (Hlinks q). rewrite Hq in Hlinks.
  destruct (nodes w' !! q) as [x'|] eqn:Hq'; [|done].
  simpl in Hlinks. apply (inj Some) in Hlinks.
  eapply on_chain_next; [done|]. by rewrite Hlinks.
Qed.

(** The loop of [cgraph_reset_node] that removes the inline clones of
    [node]. *)
Lemma remove_inline_clones_ok node l : ∀ w w',
  for_each l (λ n,
    x <- the_node n ;;
    when (bool_decide (inlined_to (global x) = Some node))
      (cgraph_remove_node n)) w = Ok (tt, w') →
  graph_shrinks w w'
  ∧ nodes_frame (inlined_into w node) w w'
  ∧ ∀ m, m ∈ l → ¬ inlined_into w' node m.
Proof.
  induction l as [|m l IH]; intros w w' Hrun.
  { simpl in Hrun. run. split_and!; try done.
    - apply graph_shrinks_refl.
    - by intros m ?%elem_of_nil. }
  apply for_each_cons_ok in Hrun as (w1 & Hhead & Hrest). run.
  apply IH in Hrest as (Hs' & Hf' & Hclean').
  assert (graph_shrinks w w1 ∧ nodes_frame (inlined_into w node) w w1
          ∧ ¬ inlined_into w1 node m) as (Hs & Hf & Hm).
  { destruct (bool_decide _) eqn:Hclone; run.
    - apply bool_decide_eq_true in Hclone.
      apply cgraph_remove_node_ok in Hhead as (Hs & Hf & Hgone & _).
      split_and!; [done| |].
      + eapply nodes_frame_weaken; [|exact Hf]. intros q ->.
        by exists nd.
      + intros (x & Hx & _). by rewrite Hgone in Hx.
    - apply bool_decide_eq_false in Hclone. split_and!.
      + apply graph_shrinks_refl.
      + apply nodes_frame_refl.
      + intros (x & Hx & Hin). by run. }
  assert (∀ q, inlined_into w1 node q → inlined_into w node q) as Hsub.
  { intros q (x1 & Hx1 & Hin). destruct Hs as (_ & _ & Hback & _).
    apply Hback in Hx1 as (x & Hx & Hu). exists x. split; [done|].
    apply unlinked_fields in Hu. destruct Hu as (_ & _ & Hg & _).
    by rewrite <- Hg. }
  assert (∀ q, inlined_into w' node q → inlined_into w1 node q) as Hsub'.
  { intros q (x1 & Hx1 & Hin). destruct Hs' as (_ & _ & Hback & _).
    apply Hback in Hx1 as (x & Hx & Hu). exists x. split; [done|].
    apply unlinked_fields in Hu. destruct Hu as (_ & _ & Hg & _).
    by rewrite <- Hg. }
  split_and!.
  - by eapply graph_shrinks_trans.
  - eapply nodes_frame_trans; [exact Hf|].
    eapply nodes_frame_weaken; [|exact Hf']. done.
  - intros m' [->|Hin]%elem_of_cons; [|by apply Hclean'].
    intros ?%Hsub'. done.
Qed.

Lemma set_nodes_twice w (f g : gmap nat cgraph_node → gmap nat cgraph_node) :
  w <| nodes ::= f |> <| nodes ::= g |> = w <| nodes ::= (λ m, g (f m)) |>.
Proof. reflexivity. Qed.

Lemma set_nodes_ext w (f g : gmap nat cgraph_node → gmap nat cgraph_node) :
  f (nodes w) = g (nodes w) → w <| nodes ::= f |> = w <| nodes ::= g |>.
Proof.
  intros Heq. destruct w. unfold set. simpl in *. by rewrite Heq.
Qed.

(** The straight-line prefix of [cgraph_reset_node], the assertion and
    the six assignments, followed by anything. *)
Lemma reset_node_prefix {A} node (k : M A) w r :
  (n <- the_node node ;;
   gcc_assert (negb (output n)) ;;
   set_node node (λ n, n <| local := zero_local |>) ;;
   set_node node (λ n, n <| global := zero_global |>) ;;
   set_node node (λ n, n <| rtl := zero_rtl |>) ;;
   set_node node (λ n, n <| analyzed := false |>) ;;
   set_node node
     (λ n, n <| local ::= (λ l, l <| redefined_extern_inline := true |>) |>) ;;
   set_node node (λ n, n <| local ::= (λ l, l <| finalized := false |>) |>) ;;
   k) w = Ok r →
  ∃ n, nodes w !! node = Some n ∧ output n = false
       ∧ k (w <| nodes ::= <[node := reset_fields n]> |>) = Ok r.
Proof.
  intros Hrun.
  do 8 (let a := fresh "a" in let w := fresh "w" in let Ha := fresh "Hrun" in
        apply bind_ok in Hrun as (a & w & Ha & Hrun)).
  run. eexists. split; [done|].
  split; [by apply negb_true_iff|].
  revert Hrun. rewrite !set_nodes_twice.
  match goal with
  | |- k ?W = _ → k ?W' = _ => replace W with W'; [done|]
  end.
  apply set_nodes_ext. rewrite !insert_insert_eq. done.
Qed.

Lemma reset_node_prefix_err {A} node (k : M A) w n :
  nodes w !! node = Some n → output n = true →
  (n <- the_node node ;; gcc_assert (negb (output n)) ;; k) w
  = Err AssertFailure.
Proof.
  intros Hn Hout. rewrite (bind_eq _ _ w n w) by by apply the_node_ok.
  by rewrite Hout.
Qed.

(** [cgraph_reset_node] in whole-unit mode. *)
Lemma cgraph_reset_node_unit node w w' :
  flag_unit_at_a_time w = true →
  cgraph_reset_node node w = Ok (tt, w') →
  outside_graph w' = outside_graph w
  ∧ cgraph_nodes w' = cgraph_nodes w
  ∧ cgraph_hash w' = cgraph_hash w
  ∧ cgraph_nodes_queue w' = cgraph_nodes_queue w
  ∧ edges w' ⊆ edges w
  ∧ nodes_frame (λ p, p = node) w w'
  ∧ ∃ n n', nodes w !! node = Some n ∧ output n = false
            ∧ nodes w' !! node = Some n'
            ∧ unlinked n' = unlinked (reset_fields n)
            ∧ callees n' = []
            ∧ ∀ e, e ∈ callees n → edges w' !! e = None.
Proof.
  intros Hunit Hrun. unfold cgraph_reset_node in Hrun.
  apply reset_node_prefix in Hrun as (n & Hn & Hout & Hrun).
  run. simpl (flag_unit_at_a_time _) in *. rew_run Hunit. run.
  match goal with
  | H : cgraph_node_remove_callees _ _ = Ok _ |- _ =>
      apply cgraph_node_remove_callees_ok in H
        as (Hs & Hl & Hh & Hf & n1 & n' & Hn1 & Hn' & Hcallees & Hgone)
  end.
  destruct Hs as (Ho & Hq & _ & _ & He).
  pose proof (outside_graph_fields _ _ Ho) as (_ & _ & _ & Hu & _).
  simpl in Hu. rewrite Hunit in Hu. rew_run Hu. rew_run andb_false_r. run.
  simpl in *.
  split_and!; try done.
  - eapply nodes_frame_trans; [apply nodes_frame_insert|].
    eapply nodes_frame_weaken; [|exact Hf]. done.
  - exists n, n'. split_and!; try done.
    specialize (Hf node). simpl in Hf. rewrite lookup_insert_eq, Hn' in Hf.
    apply (inj Some). apply Hf. tauto.
Qed.

Lemma set_reachable_same (x : cgraph_node) b :
  reachable x = b → x <| reachable := b |> = x.
Proof. intros <-. by destruct x. Qed.

(** [cgraph_reset_node] in streaming mode. *)
Lemma cgraph_reset_node_streaming node w w' :
  flag_unit_at_a_time w = false →
  cgraph_reset_node node w = Ok (tt, w') →
  outside_graph w' = outside_graph w
  ∧ cgraph_nodes_queue w' = cgraph_nodes_queue w
  ∧ edges w' ⊆ edges w
  ∧ (∀ p, p ∈ cgraph_nodes w' → p ∈ cgraph_nodes w)
  ∧ (∀ p x', p ≠ node → nodes w' !! p = Some x' →
       ∃ x, nodes w !! p = Some x ∧ unlinked x' = unlinked x)
  ∧ (∀ m, m ∈ cgraph_nodes w' → ¬ inlined_into w' node m)
  ∧ ∃ n n', nodes w !! node = Some n ∧ output n = false
            ∧ nodes w' !! node = Some n'
            ∧ unlinked n'
              = unlinked ((reset_fields n) <| reachable := reachable n' |>)
            ∧ callees n' = []
            ∧ (reachable n' = true ↔ reachable n = true ∧ queued w' node).
Proof.
  intros Hunit Hrun. unfold cgraph_reset_node in Hrun.
  apply reset_node_prefix in Hrun as (n & Hn & Hout & Hrun).
  set (w0 := w <| nodes ::= <[node := reset_fields n]> |>) in *.
  run. simpl (flag_unit_at_a_time _) in *. rew_run Hunit. run.
  match goal with
  | H : for_each _ _ _ = Ok _ |- _ =>
      apply remove_inline_clones_ok in H as (Hs1 & Hf1 & Hclean1)
  end.
  match goal with
  | H : cgraph_node_remove_callees _ _ = Ok _ |- _ =>
      apply cgraph_node_remove_callees_ok in H
        as (Hs2 & Hl2 & Hh2 & Hf2 & n1 & n2 & Hn1 & Hn2 & Hcallees & _)
  end.
  run.
  match goal with Hs : graph_shrinks w0 ?a |- _ => rename a into wa end.
  match goal with Hs : graph_shrinks wa ?b |- _ => rename b into wb end.
  (* the node itself survives the removal of its clones *)
  assert (unlinked n2 = unlinked (reset_fields n)) as Hu2.
  { assert (unlinked <$> nodes wb !! node = unlinked <$> nodes wa !! node)
      as E2 by (apply Hf2; tauto).
    assert (unlinked <$> nodes wa !! node = unlinked <$> nodes w0 !! node)
      as E1.
    { apply Hf1. intros (x & Hx & Hin). unfold w0 in Hx. simpl in Hx.
      rewrite lookup_insert_eq in Hx. by run. }
    rewrite E1, Hn2 in E2. unfold w0 in E2. simpl in E2.
    rewrite lookup_insert_eq in E2. by apply (inj Some) in E2. }
  pose proof (unlinked_fields _ _ Hu2) as (_&_&_&_&_&Hreach2&_).
  change (reachable (reset_fields n)) with (reachable n) in Hreach2.
  pose proof (graph_shrinks_trans _ _ _ Hs1 Hs2) as (Ho & Hq & Hback & Hl & He).
  pose proof (outside_graph_fields _ _ Ho) as (_ & _ & _ & Hflag & _).
  simpl in Hflag. rew_run Hflag. rew_run Hunit. rew_run andb_true_r.
  (* what is left to say about the last step *)
  assert (∀ wc,
    (wc = wb ∨ wc = wb <| nodes ::= <[node := n2 <| reachable := false |>]> |>) →
    outside_graph wc = outside_graph w
    ∧ cgraph_nodes_queue wc = cgraph_nodes_queue w
    ∧ edges wc ⊆ edges w
    ∧ (∀ p, p ∈ cgraph_nodes wc → p ∈ cgraph_nodes w)
    ∧ (∀ p x', p ≠ node → nodes wc !! p = Some x' →
         ∃ x, nodes w !! p = Some x ∧ unlinked x' = unlinked x)
    ∧ (∀ m, m ∈ cgraph_nodes wc → ¬ inlined_into wc node m)) as Hrest.
  { intros wc Hw3.
    assert (∀ p x', nodes wc !! p = Some x' →
              ∃ x, nodes wb !! p = Some x ∧ global x' = global x) as Hg3.
    { intros p x'. destruct Hw3 as [-> | ->]; [eauto|]. simpl.
      destruct (decide (node = p)) as [<-|Hne].
      - rewrite lookup_insert_eq. intros [= <-]. eauto.
      - rewrite lookup_insert_ne by done. eauto. }
    split_and!.
    - by destruct Hw3 as [-> | ->].
    - by destruct Hw3 as [-> | ->].
    - by destruct Hw3 as [-> | ->].
    - intros p. by destruct Hw3 as [-> | ->]; apply Hl.
    - intros p x' Hne Hx'.
      assert (nodes wb !! p = Some x') as Hx2.
      { destruct Hw3 as [-> | ->]; [done|]. simpl in Hx'.
        by rewrite lookup_insert_ne in Hx'. }
      apply Hback in Hx2 as (x & Hx & Hu). exists x. split; [|done].
      unfold w0 in Hx. simpl in Hx. by rewrite lookup_insert_ne in Hx.
    - intros m Hm (x3 & Hx3 & Hin).
      assert (m ∈ cgraph_nodes w) as Hmw.
      { apply Hl. by destruct Hw3 as [-> | ->]. }
      apply (Hclean1 m Hmw).
      apply Hg3 in Hx3 as (x2 & Hx2 & Hg).
      destruct Hs2 as (_ & _ & Hback2 & _).
      apply Hback2 in Hx2 as (x1 & Hx1 & Hu1).
      exists x1. split; [done|].
      apply unlinked_fields in Hu1. destruct Hu1 as (_ & _ & Hg1 & _).
      by rewrite <- Hg1, <- Hg. }
  destruct (reachable n2) eqn:Hr2; run.
  - match goal with
    | H : on_needed_queue _ _ _ _ = Ok _ |- _ =>
        apply on_needed_queue_ok in H as [-> Hiff]
    end.
    match goal with
    | H : ?b = true ↔ on_chain _ _ _ |- _ => destruct b
    end; run.
    + destruct (Hrest wb) as (?&?&?&?&?&?); [by left|].
      split_and!; try done. exists n, n2. split_and!; try done.
      * rewrite Hu2, Hr2. f_equal. symmetry. by apply set_reachable_same.
      * rewrite Hr2, <- Hreach2. unfold queued. by rewrite <- Hiff.
    + set (wc := wb <| nodes ::= _ |>).
      destruct (Hrest wc) as (?&?&?&?&?&?); [by right|].
      split_and!; try done. exists n, (n2 <| reachable := false |>).
      split_and!; try done.
      * unfold wc. simpl. by rewrite lookup_insert_eq.
      * assert (∀ x b, unlinked (x <| reachable := b |>)
                       = (unlinked x) <| reachable := b |>) as Hcomm by done.
        simpl (reachable _). by rewrite !Hcomm, Hu2.
      * simpl. split; [done|]. intros [_ Hqueued]. exfalso.
        assert (false = true) as Hcontra; [|done]. apply Hiff.
        eapply on_chain_same_links; [|exact Hqueued].
        intros q. unfold wc. simpl.
        destruct (decide (node = q)) as [<-|Hne].
        -- by rewrite lookup_insert_eq, Hn2.
        -- by rewrite lookup_insert_ne.
  - destruct (Hrest wb) as (?&?&?&?&?&?); [by left|].
    split_and!; try done. exists n, n2. split_and!; try done.
    + rewrite Hu2, Hr2. f_equal. symmetry. by apply set_reachable_same.
    + rewrite Hr2, <- Hreach2. split; [done|]. by intros [? _].
Qed.

End reset_facts.

Section reset_consequences.

(** After [cgraph_reset_node] the node is marked as a redefined extern
    inline function, in both modes. *)
Lemma cgraph_reset_node_redefined node w w' n' :
  cgraph_reset_node node w = Ok (tt, w') → nodes w' !! node = Some n' →
  redefined_extern_inline (local n') = true.
Proof.
  intros Hreset Hn'. destruct (flag_unit_at_a_time w) eqn:Hunit.
  - apply cgraph_reset_node_unit in Hreset
      as (_ & _ & _ & _ & _ & _ & n0 & n1 & _ & _ & Hn1 & Hu & _); [|done].
    run. apply unlinked_fields in Hu as (_ & -> & _). done.
  - apply cgraph_reset_node_streaming in Hreset
      as (_ & _ & _ & _ & _ & _ & n0 & n1 & _ & _ & Hn1 & Hu & _); [|done].
    run. apply unlinked_fields in Hu as (_ & -> & _). done.
Qed.

End reset_consequences.
(** * The reference walker *)

Section record_reference_facts.
Context `{Externals}.

(** C7 (as amended).  What [record_reference] does at a tree node [t]:
    a static or external variable has its varpool node marked needed
    and is then handed to the front end's [analyze_expr] hook when there
    is one; any other variable is left alone, [*walk_subtrees]
    untouched; the address of a function declaration has that function's
    node marked needed in whole-unit mode and nothing happens to it
    otherwise; a type or a declaration that is not a variable is pruned;
    a front-end code that is neither a type nor a declaration is handed
    to the hook. *)
Theorem record_reference_cases t ws data w x :
  trees w !! t = Some x →
  (TREE_CODE x = VAR_DECL → TREE_STATIC x || DECL_EXTERNAL x = true →
   ∀ r w', record_reference t ws data w = Ok (r, w') →
     ∃ v w1,
       cgraph_varpool_hash w1 !! t = Some v
       ∧ (∃ n, vnodes w1 !! v = Some n ∧ v_needed n = true)
       ∧ match lang_analyze_expr with
         | Some analyze_expr => ext (analyze_expr t ws data) w1 = Ok (r, w')
         | None => r = (None, ws) ∧ w' = w1
         end)
  ∧ (TREE_CODE x = VAR_DECL → TREE_STATIC x || DECL_EXTERNAL x = false →
     record_reference t ws data w = Ok ((None, ws), w))
  ∧ (TREE_CODE x = ADDR_EXPR ∨ TREE_CODE x = FDESC_EXPR →
     ∀ d dx, TREE_OPERANDS x !! 0 = Some (Some d) →
       trees w !! d = Some dx → TREE_CODE dx = FUNCTION_DECL →
       (flag_unit_at_a_time w = true →
        ∀ r w', record_reference t ws data w = Ok (r, w') →
          r = (None, ws)
          ∧ ∃ n nd, cgraph_hash w' !! d = Some n
                    ∧ nodes w' !! n = Some nd ∧ needed nd = true)
       ∧ (flag_unit_at_a_time w = false →
          record_reference t ws data w = Ok ((None, ws), w)))
  ∧ (IS_TYPE_OR_DECL_P (TREE_CODE x) = true → TREE_CODE x ≠ VAR_DECL →
     record_reference t ws data w = Ok ((None, false), w))
  ∧ (past_generic_codes (TREE_CODE x) = true →
     IS_TYPE_OR_DECL_P (TREE_CODE x) = false →
     ∀ analyze_expr, lang_analyze_expr = Some analyze_expr →
       record_reference t ws data w = ext (analyze_expr t ws data) w).
Proof.
  intros Ht.
  unfold record_reference.
  rewrite (bind_eq _ _ w x w) by by apply the_tree_ok.
  split_and!.
  - intros -> Hstatic r w' Hrun. rewrite Hstatic in Hrun. run.
    apply cgraph_varpool_node_of_decl_ok in Hrun0 as [Hhash _].
    apply cgraph_varpool_mark_needed_node_ok in Hrun1 as (_ & Hh & Hn).
    exists a, w1. rewrite Hh. split_and!; [done..|].
    destruct lang_analyze_expr; [done|]. by run.
  - intros -> Hstatic. by rewrite Hstatic.
  - intros Hcode d dx Hop Hd Hdx.
    split.
    + intros Hunit r w' Hrun.
      destruct Hcode as [Hc | Hc]; rewrite Hc in Hrun.
      all: run; rew_run Hunit; run; rew_run Hop; run; rew_run Hdx;
        simpl in *; run.
      all: match goal with
      | Hn : cgraph_node_of_decl _ _ = Ok _ |- _ =>
          apply cgraph_node_of_decl_ok in Hn as (_ & _ & _ & Hhash & _)
      end.
      all: match goal with
      | Hn : cgraph_mark_needed_node _ _ = Ok _ |- _ =>
          apply cgraph_mark_needed_node_frame in Hn
            as (_ & _ & Hh & _ & _ & n & n' & _ & Hn' & Hu)
      end.
      all: split; [done|]; eexists _, n'; rewrite Hh.
      all: split_and!; [done..|].
      all: apply unlinked_fields in Hu; by destruct Hu as (_&_&_&_&->&_).
    + intros Hunit.
      destruct Hcode as [Hc | Hc]; rewrite Hc; unfold bind, gets;
        by rewrite Hunit.
  - intros Hdecl Hvar.
    destruct (TREE_CODE x); try done; by rewrite ?Hdecl.
  - intros Hpast Hdecl hook Hhook.
    destruct (TREE_CODE x); try done. rewrite Hdecl, Hhook. done.
Qed.

End record_reference_facts.

(** C7, witness: the static variable of the sample is marked needed, its
    address expression marks [f] needed, its types are pruned, and its
    own expressions go to the hook. *)
Lemma record_reference_cases_witness :
  (∃ v n, vnodes (match @record_reference hooked_externals 4 true None
                          sample_world with
                  | Ok (_, w) => w | Err _ => sample_world end) !! v = Some n
          ∧ v_needed n = true)
  ∧ @record_reference sample_externals 3 true None sample_world
    = Ok ((None, true), sample_world)
  ∧ @record_reference sample_externals 6 true None sample_world
    = Ok ((None, false), sample_world)
  ∧ @record_reference hooked_externals 7 true None sample_world
    = Ok ((Some 7, true), sample_world)
  ∧ (∃ w' n nd,
       @record_reference sample_externals 5 true None sample_world
       = Ok ((None, true), w')
       ∧ cgraph_hash w' !! 2 = Some n
       ∧ nodes w' !! n = Some nd ∧ needed nd = true).
Proof.
  pose proof (λ E t x H, @record_reference_cases E t true None sample_world
                           x H) as Hcases.
  split_and!.
  - destruct (@record_reference hooked_externals 4 true None sample_world)
      as [[r w']|e] eqn:Hrun; [|by vm_compute in Hrun].
    destruct (Hcases hooked_externals 4 _ eq_refl) as (Hstatic & _).
    destruct (Hstatic eq_refl eq_refl r w' Hrun)
      as (v & w1 & _ & (n & Hn & Hneeded) & Hhook).
    simpl in Hhook. apply ext_ok in Hhook as (w2 & Hecho & ->).
    unfold echo_analyze_expr in Hecho. apply ret_ok in Hecho as [_ ->].
    exists v, n. done.
  - destruct (Hcases sample_externals 3 _ eq_refl) as (_ & Hauto & _).
    by apply Hauto.
  - destruct (Hcases sample_externals 6 _ eq_refl) as (_ & _ & _ & Hty & _).
    by apply Hty.
  - destruct (Hcases hooked_externals 7 _ eq_refl) as (_ & _ & _ & _ & Hlang).
    by rewrite (Hlang eq_refl eq_refl _ eq_refl).
  - destruct (@record_reference sample_externals 5 true None sample_world)
      as [[r w']|e] eqn:Hrun; [|by vm_compute in Hrun].
    destruct (Hcases sample_externals 5 _ eq_refl) as (_ & _ & Haddr & _).
    destruct (Haddr (or_introl eq_refl) 2 _ eq_refl eq_refl eq_refl)
      as [Hunit _].
    destruct (Hunit eq_refl r w' Hrun) as (-> & n & nd & Hhash & Hn & Hneeded).
    by exists w', n, nd.
Defined.

(** C7, counterexample to the claim as it was written: an automatic
    variable is a declaration and [record_reference] leaves
    [*walk_subtrees] set for it; a type of the front end's own is past
    the generic codes and is pruned, the hook that is installed is not
    called (it would have answered with the node). *)
Lemma record_reference_counterexample :
  (IS_TYPE_OR_DECL_P VAR_DECL = true
   ∧ (TREE_CODE <$> trees sample_world !! 3) = Some VAR_DECL
   ∧ @record_reference sample_externals 3 true None sample_world
     = Ok ((None, true), sample_world))
  ∧ (past_generic_codes (LANG_CODE tcc_type) = true
     ∧ (TREE_CODE <$> trees sample_world !! 6) = Some (LANG_CODE tcc_type)
     ∧ @lang_analyze_expr hooked_externals = Some echo_analyze_expr
     ∧ echo_analyze_expr 6 true None sample_world
       = Ok ((Some 6, true), sample_world)
     ∧ @record_reference hooked_externals 6 true None sample_world
       = Ok ((None, false), sample_world)).
Proof. split_and!; reflexivity. Qed.
(** * Seeding the reasons of the inbound edges *)

Section initialize_inline_failed_facts.

Lemma initialize_inline_failed_edge_ok node n e w :
  nodes w !! node = Some n → seedable w e →
  ∃ x, edges w !! e = Some x
       ∧ initialize_inline_failed_edge node e w
         = Ok (tt, w <| edges ::=
                 <[e := x <| inline_failed := Some (seeded_reason n) |>]> |>).
Proof.
  intros Hn (x & c & Hx & Hc & Hclone & [r Hr]). exists x. split; [done|].
  unfold initialize_inline_failed_edge.
  rewrite (bind_eq _ _ w x w) by by apply the_edge_ok.
  rewrite (bind_eq _ _ w c w) by by apply the_node_ok.
  rewrite Hclone, Hr. simpl.
  rewrite (bind_eq _ _ w tt w) by done.
  rewrite (bind_eq _ _ w tt w) by done.
  rewrite (bind_eq _ _ w n w) by by apply the_node_ok.
  unfold seeded_reason.
  destruct (redefined_extern_inline (local n)), (inlinable (local n));
    simpl; unfold set_edge;
    rewrite (bind_eq _ _ w x w) by (by apply the_edge_ok); done.
Qed.

Lemma initialize_inline_failed_loop node n l : ∀ w,
  nodes w !! node = Some n → (∀ e, e ∈ l → seedable w e) →
  ∃ w', for_each l (initialize_inline_failed_edge node) w = Ok (tt, w')
        ∧ nodes w' = nodes w
        ∧ (∀ e, e ∉ l → edges w' !! e = edges w !! e)
        ∧ (∀ e, e ∈ l →
             ∃ x', edges w' !! e = Some x'
                   ∧ inline_failed x' = Some (seeded_reason n)).
Proof.
  induction l as [|e l IH]; intros w Hn Hl.
  { exists w. split_and!; try done. by intros e ?%elem_of_nil. }
  destruct (initialize_inline_failed_edge_ok node n e w Hn)
    as (x & Hx & Hrun); [apply Hl; by left|].
  set (w1 := w <| edges ::= _ |>) in Hrun.
  destruct (IH w1) as (w' & Hrest & Hnodes & Hout & Hin).
  { done. }
  { intros e' He'. destruct (Hl e') as (x' & c & Hx' & Hc & Hclone & Hr);
      [by right|].
    unfold seedable, w1. simpl. destruct (decide (e = e')) as [->|Hne].
    - rewrite lookup_insert_eq. run. eexists _, c. split_and!; try done.
    - rewrite lookup_insert_ne by done. eexists _, c. split_and!; done. }
  exists w'. split_and!.
  - apply for_each_cons_ok. eauto.
  - done.
  - intros e' [Hne He']%not_elem_of_cons. rewrite Hout by done.
    unfold w1. simpl. by rewrite lookup_insert_ne.
  - intros e' He'. destruct (decide (e' ∈ l)) as [?|Hnotin]; [by apply Hin|].
    apply elem_of_cons in He' as [->|?]; [|done].
    rewrite Hout by done. unfold w1. simpl. rewrite lookup_insert_eq.
    eauto.
Qed.

Lemma initialize_inline_failed_edge_run node n e w w' :
  nodes w !! node = Some n →
  initialize_inline_failed_edge node e w = Ok (tt, w') →
  ∃ x, edges w !! e = Some x ∧ is_Some (inline_failed x)
       ∧ w' = w <| edges ::=
                <[e := x <| inline_failed := Some (seeded_reason n) |>]> |>.
Proof.
  intros Hn. unfold initialize_inline_failed_edge. intros Hrun. run.
  match goal with
  | Hx : edges w !! e = Some ?x |- _ => exists x; split; [exact Hx|]
  end.
  split.
  { match goal with
    | Ha : non_null (inline_failed _) = true |- _ =>
        by destruct (inline_failed _)
    end. }
  unfold seeded_reason.
  destruct (redefined_extern_inline (local n)); run; [done|].
  destruct (inlinable (local n)); simpl in *; by run.
Qed.

Lemma initialize_inline_failed_loop_run node n l : ∀ w w',
  nodes w !! node = Some n →
  for_each l (initialize_inline_failed_edge node) w = Ok (tt, w') →
  nodes w' = nodes w
  ∧ (∀ e x, edges w !! e = Some x →
       inline_failed x = Some (seeded_reason n) →
       ∃ x', edges w' !! e = Some x'
             ∧ inline_failed x' = Some (seeded_reason n))
  ∧ ∀ e, e ∈ l →
      ∃ x', edges w' !! e = Some x'
            ∧ inline_failed x' = Some (seeded_reason n).
Proof.
  induction l as [|e l IH]; intros w w' Hn Hrun.
  { simpl in Hrun. run. split_and!; [done|eauto|].
    by intros e ?%elem_of_nil. }
  apply for_each_cons_ok in Hrun as (w1 & Hhead & Hrest).
  apply (initialize_inline_failed_edge_run _ n) in Hhead
    as (x & Hx & _ & ->); [|done].
  apply IH in Hrest as (Hnodes & Hkeep & Hall); [|done].
  split_and!.
  - done.
  - intros e' x' Hx' Hr. destruct (decide (e = e')) as [<-|Hne].
    + apply (Hkeep e (x <| inline_failed := Some (seeded_reason n) |>));
        [simpl; by rewrite lookup_insert_eq | done].
    + apply (Hkeep e' x'); [simpl; by rewrite lookup_insert_ne | done].
  - intros e' [->|He']%elem_of_cons; [|by apply Hall].
    apply (Hkeep e (x <| inline_failed := Some (seeded_reason n) |>));
      [simpl; by rewrite lookup_insert_eq | done].
Qed.

(** When the two assertions of [initialize_inline_failed] hold of every
    inbound edge of the node, the function returns, changes nothing but
    those edges, and leaves on each of them the reason given by the
    priority. *)
Lemma initialize_inline_failed_returns node n w :
  nodes w !! node = Some n →
  (∀ e, e ∈ callers n → seedable w e) →
  ∃ w', initialize_inline_failed node w = Ok (tt, w')
        ∧ nodes w' = nodes w
        ∧ (∀ e, e ∉ callers n → edges w' !! e = edges w !! e)
        ∧ (∀ e, e ∈ callers n →
             ∃ x', edges w' !! e = Some x'
                   ∧ inline_failed x' = Some (seeded_reason n)).
Proof.
  intros Hn Hl.
  destruct (initialize_inline_failed_loop node n (callers n) w Hn Hl)
    as (w' & Hrun & Hnodes & Hout & Hseeded).
  exists w'. split_and!; try done.
  unfold initialize_inline_failed.
  by rewrite (bind_eq _ _ w n w) by by apply the_node_ok.
Qed.

End initialize_inline_failed_facts.

Section cgraph_analyze_function_seeds_facts.
Context `{Externals}.

(** C6 (as amended).  When [cgraph_analyze_function] returns, the state
    it handed to [pop_cfun], its last call, has the node analyzed and on
    every inbound edge of the node the reason given by the priority
    (redefined extern inline, then not inlinable, then not considered)
    for the flags the node had when [initialize_inline_failed] ran: [b]
    is its [local.inlinable] then.  [flag_really_no_inline] clears
    [local.inlinable] after the edges are seeded, unless the node
    disregards the inline limits, so the node may be left not inlinable
    with edges that say "not considered".  Every inbound edge of a node
    with [redefined_extern_inline] has the first reason, and without
    [flag_really_no_inline] the reasons are those the flags of the
    analyzed node give. *)
Theorem cgraph_analyze_function_seeds node w w' :
  cgraph_analyze_function node w = Ok (tt, w') →
  ∃ w1 w2 n1 b,
    pop_cfun w1 = Ok (tt, w2)
    ∧ w' = w2 <| trace := trace w1 |> <| current_function_decl := None |>
    ∧ nodes w1 !! node = Some n1
    ∧ analyzed n1 = true
    ∧ inlinable (local n1)
      = b && negb (flag_really_no_inline w1
                   && negb (disregard_inline_limits (local n1)))
    ∧ (∀ e, e ∈ callers n1 →
         ∃ x, edges w1 !! e = Some x
              ∧ inline_failed x
                = Some (seeded_reason
                          (n1 <| local ::= (λ l, l <| inlinable := b |>) |>)))
    ∧ (redefined_extern_inline (local n1) = true →
       ∀ e, e ∈ callers n1 →
         ∃ x, edges w1 !! e = Some x
              ∧ inline_failed x = Some reason_redefined_extern_inline)
    ∧ (flag_really_no_inline w1 = false →
       ∀ e, e ∈ callers n1 →
         ∃ x, edges w1 !! e = Some x
              ∧ inline_failed x = Some (seeded_reason n1)).
Proof.
  unfold cgraph_analyze_function. intros Hrun. run.
  match goal with
  | Hext : ext pop_cfun ?u = Ok _ |- _ =>
      apply ext_ok in Hext as (w2 & Hpop & ->); exists u, w2
  end.
  match goal with
  | Hseed : initialize_inline_failed node ?u = Ok (tt, ?v) |- _ =>
      unfold initialize_inline_failed in Hseed;
      apply bind_ok in Hseed as (ns & us & Hns & Hloop);
      apply the_node_ok in Hns as [Hns ->];
      apply (initialize_inline_failed_loop_run _ ns) in Hloop
        as (Hnodes & _ & Hall); [|done]
  end.
  rewrite Hnodes, Hns in Hnode1. apply (inj Some) in Hnode1 as <-.
  eexists _, (inlinable (local ns)).
  split; [exact Hpop|]. split; [done|].
  split; [simpl; by rewrite lookup_insert_eq|]. split; [done|].
  assert (∀ n', redefined_extern_inline (local n')
                = redefined_extern_inline (local ns) →
                inlinable (local n') = inlinable (local ns) →
                callers n' = callers ns →
                ∀ e, e ∈ callers n' →
                  ∃ x, edges w12 !! e = Some x
                       ∧ inline_failed x = Some (seeded_reason n'))
    as Hseeded.
  { intros n' Hredef Hinl Hcallers e He. rewrite Hcallers in He.
    destruct (Hall e He) as (x & Hx & Hr). exists x. split; [done|].
    rewrite Hr. unfold seeded_reason. by rewrite Hredef, Hinl. }
  assert (∀ n', redefined_extern_inline (local n')
                = redefined_extern_inline (local ns) →
                callers n' = callers ns →
                redefined_extern_inline (local n') = true →
                ∀ e, e ∈ callers n' →
                  ∃ x, edges w12 !! e = Some x
                       ∧ inline_failed x = Some reason_redefined_extern_inline)
    as Hfirst.
  { intros n' Hredef Hcallers Hset e He. rewrite Hcallers in He.
    destruct (Hall e He) as (x & Hx & Hr). exists x. split; [done|].
    rewrite Hr. unfold seeded_reason. by rewrite <- Hredef, Hset. }
  destruct (flag_really_no_inline w12
            && negb (disregard_inline_limits (local ns))) eqn:Hclear; run;
    repeat match goal with
           | Hx : nodes w12 !! node = Some _ |- _ =>
               rewrite Hnodes, Hns in Hx; apply (inj Some) in Hx as <-
           end.
  - split; [simpl; unfold const; by rewrite Hclear, andb_false_r|].
    split.
    { match goal with
      | |- context [seeded_reason ?m] => by apply (Hseeded m)
      end. }
    split.
    { match goal with
      | |- redefined_extern_inline (local ?m) = true → _ =>
          by apply (Hfirst m)
      end. }
    simpl. intros Hflag. by rewrite Hflag in Hclear.
  - split; [simpl; by rewrite Hclear, andb_true_r|].
    split.
    { match goal with
      | |- context [seeded_reason ?m] => by apply (Hseeded m)
      end. }
    split.
    { match goal with
      | |- redefined_extern_inline (local ?m) = true → _ =>
          by apply (Hfirst m)
      end. }
    intros _.
    match goal with
    | |- context [seeded_reason ?m] => by apply (Hseeded m)
    end.
Qed.

End cgraph_analyze_function_seeds_facts.

(** C6, witness: the analysis of [f], which [g] calls, leaves on the
    inbound edge the reason "not considered"; the analysis of [f] once
    it has been reset leaves the reason for redefined extern inline
    functions. *)
Lemma cgraph_analyze_function_seeds_witness :
  (∃ w', @cgraph_analyze_function sample_externals 0 sample_called
         = Ok (tt, w')
         ∧ (inline_failed <$> edges w' !! 0)
           = Some (Some reason_not_considered))
  ∧ (∃ w w', cgraph_reset_node 0 sample_called = Ok (tt, w)
             ∧ @cgraph_analyze_function sample_externals 0 w = Ok (tt, w')
             ∧ (inline_failed <$> edges w' !! 0)
               = Some (Some reason_redefined_extern_inline)).
Proof.
  split.
  - destruct (@cgraph_analyze_function sample_externals 0 sample_called)
      as [[[] w']|] eqn:Hrun; [|by vm_compute in Hrun].
    exists w'. split; [done|].
    pose proof Hrun as Hstate. vm_compute in Hstate.
    apply ok_pair_inv in Hstate as [_ Hstate].
    destruct (@cgraph_analyze_function_seeds sample_externals 0
                sample_called w' Hrun)
      as (w1 & w2 & n1 & b & Hpop & Hw' & Hn1 & _ & _ & _ & _ & Hplain).
    apply ok_pair_inv in Hpop as [_ Hw2]. subst w2. rewrite Hw' in Hstate.
    pose proof (f_equal flag_really_no_inline Hstate) as Hflag.
    pose proof (f_equal (λ u, nodes u !! 0) Hstate) as Hnode.
    simpl in Hflag, Hnode. rewrite Hn1 in Hnode.
    apply (inj Some) in Hnode. subst n1.
    destruct (Hplain Hflag 0) as (x & Hx & Hr); [by left|].
    rewrite Hw'. simpl. rewrite Hx. simpl. by rewrite Hr.
  - destruct (cgraph_reset_node 0 sample_called) as [[[] w]|] eqn:Hreset;
      [|by vm_compute in Hreset].
    pose proof Hreset as Hw. vm_compute in Hw.
    apply ok_pair_inv in Hw as [_ Hw].
    destruct (@cgraph_analyze_function sample_externals 0 w)
      as [[[] w']|] eqn:Hrun; [|by rewrite Hw in Hrun; vm_compute in Hrun].
    exists w, w'. split; [done|]. split; [done|].
    pose proof Hrun as Hstate. rewrite Hw in Hstate. vm_compute in Hstate.
    apply ok_pair_inv in Hstate as [_ Hstate].
    destruct (@cgraph_analyze_function_seeds sample_externals 0 w w' Hrun)
      as (w1 & w2 & n1 & b & Hpop & Hw' & Hn1 & _ & _ & _ & Hfirst & _).
    apply ok_pair_inv in Hpop as [_ Hw2]. subst w2. rewrite Hw' in Hstate.
    pose proof (f_equal (λ u, nodes u !! 0) Hstate) as Hnode.
    simpl in Hnode. rewrite Hn1 in Hnode. apply (inj Some) in Hnode. subst n1.
    destruct (Hfirst eq_refl 0) as (x & Hx & Hr); [by left|].
    rewrite Hw'. simpl. rewrite Hx. simpl. by rewrite Hr.
Defined.

(** C6, counterexample to the claim as it was written: under
    [flag_really_no_inline] the analysis of [f] leaves a node that is
    not inlinable and not a redefined extern inline function, and on its
    inbound edge the reason "function not considered for inlining", not
    "function not inlinable". *)
Lemma inline_failed_after_analysis_counterexample :
  (w' ← run_from sample_no_inline (@cgraph_analyze_function sample_externals 0);
   n ← nodes w' !! 0;
   x ← edges w' !! 0;
   Some (analyzed n, redefined_extern_inline (local n), inlinable (local n),
         callers n, inline_failed x))
  = Some (true, false, false, [0], Some reason_not_considered)
  ∧ reason_not_considered ≠ reason_not_inlinable.
Proof. split; [vm_compute; reflexivity|done]. Qed.
(** * Redefinition of a function *)

Section cgraph_reset_node_hash_facts.

(** Removing a node leaves the entry of the intern table of every
    declaration that is interned as another node. *)
Lemma cgraph_remove_node_hash p w w' d q :
  cgraph_remove_node p w = Ok (tt, w') → q ≠ p →
  cgraph_hash w !! d = Some q → cgraph_hash w' !! d = Some q.
Proof.
  unfold cgraph_remove_node. intros Hrun Hne Hd. run.
  apply remove_caller_edges_shrinks in Hrun1 as (_ & _ & Hh1 & _).
  apply cgraph_node_remove_callees_ok in Hrun2 as (_ & _ & Hh2 & _).
  simpl. rewrite <- Hh1, <- Hh2 in Hd.
  destruct (decide (cgraph_hash w2 !! decl nd = Some p)) as [Hp|?]; [|done].
  assert (decl nd ≠ d) as Hdecl by (intros Heq; rewrite Heq in Hp; congruence).
  destruct (next_clone nd); simpl.
  - by rewrite lookup_insert_ne.
  - by rewrite lookup_delete_ne.
Qed.

(** The loop of [cgraph_reset_node] that removes the inline clones of
    [node] does not remove [node], which is no inline clone by then, and
    leaves the entry of its declaration. *)
Lemma remove_inline_clones_hash node d l : ∀ w w',
  for_each l (λ n,
    x <- the_node n ;;
    when (bool_decide (inlined_to (global x) = Some node))
      (cgraph_remove_node n)) w = Ok (tt, w') →
  (∃ x, nodes w !! node = Some x ∧ inlined_to (global x) = None) →
  cgraph_hash w !! d = Some node →
  cgraph_hash w' !! d = Some node.
Proof.
  induction l as [|m l IH]; intros w w' Hrun Hnode Hd.
  { simpl in Hrun. by run. }
  apply for_each_cons_ok in Hrun as (w1 & Hhead & Hrest). run.
  destruct (bool_decide _) eqn:Hclone; run; [|by eapply IH].
  apply bool_decide_eq_true in Hclone.
  destruct Hnode as (x & Hx & Hin).
  assert (node ≠ m) as Hne.
  { intros ->. run. congruence. }
  pose proof (cgraph_remove_node_hash _ _ _ d node Hhead Hne Hd) as Hd1.
  apply cgraph_remove_node_ok in Hhead as (_ & Hf & _).
  eapply IH; [exact Hrest| |exact Hd1].
  specialize (Hf node Hne). rewrite Hx in Hf.
  destruct (nodes w1 !! node) as [x1|]; [|done].
  simpl in Hf. apply (inj Some) in Hf.
  exists x1. split; [done|].
  apply unlinked_fields in Hf as (_ & _ & -> & _). done.
Qed.

(** [cgraph_reset_node] leaves the node interned for its declaration. *)
Lemma cgraph_reset_node_hash node d w w' :
  cgraph_reset_node node w = Ok (tt, w') →
  cgraph_hash w !! d = Some node → cgraph_hash w' !! d = Some node.
Proof.
  intros Hrun Hd. destruct (flag_unit_at_a_time w) eqn:Hunit.
  { apply cgraph_reset_node_unit in Hrun as (_ & _ & -> & _); done. }
  unfold cgraph_reset_node in Hrun.
  apply reset_node_prefix in Hrun as (n & Hn & Hout & Hrun).
  run. simpl (flag_unit_at_a_time _) in *. rew_run Hunit. run.
  match goal with
  | Hloop : for_each _ _ _ = Ok _ |- _ =>
      apply (remove_inline_clones_hash node d) in Hloop as Hd1;
        [|exists (reset_fields n); split;
           [simpl; by rewrite lookup_insert_eq|done]
         |done]
  end.
  match goal with
  | Hc : cgraph_node_remove_callees _ _ = Ok _ |- _ =>
      apply cgraph_node_remove_callees_ok in Hc as (_ & _ & Hh & _)
  end.
  rewrite <- Hh in Hd1.
  destruct (reachable nd && negb (flag_unit_at_a_time w2)); run; [|done].
  match goal with
  | Hq : on_needed_queue _ _ _ _ = Ok _ |- _ =>
      apply on_needed_queue_same in Hq as ->
  end.
  match goal with
  | Hw : when (negb ?b) _ _ = Ok _ |- _ => destruct b; by run
  end.
Qed.

End cgraph_reset_node_hash_facts.

Section cgraph_finalize_function_facts.
Context `{Externals}.

(** C5.  [cgraph_finalize_function] on a declaration whose node is
    already finalized is [cgraph_reset_node] on that node followed by
    [cgraph_finalize_function] on what the reset has left, a node that
    is no longer finalized: it fails as the reset fails and continues
    from the state the reset returns.  [cgraph_reset_node] stops on its
    assertion when [output] is set; otherwise it leaves the node with
    [local] and [global] zero except for [redefined_extern_inline],
    which is set, with [analyzed] and [finalized] clear and with no
    callee edge.  In whole-unit mode no other node is touched beyond its
    links and [reachable] is kept; in streaming mode no node inlined
    into this one is left in the chain of nodes, and [reachable] stays
    set exactly when the node is on the worklist. *)
Theorem cgraph_finalize_function_resets fuel d nested_ w node n :
  cgraph_hash w !! d = Some node → nodes w !! node = Some n →
  finalized (local n) = true →
  (output n = true →
     cgraph_reset_node node w = Err AssertFailure
     ∧ cgraph_finalize_function fuel d nested_ w = Err AssertFailure)
  ∧ cgraph_finalize_function fuel d nested_ w
    = (cgraph_reset_node node ;; cgraph_finalize_function fuel d nested_) w
  ∧ (∀ w1, cgraph_reset_node node w = Ok (tt, w1) →
       output n = false
       ∧ ∃ n1, nodes w1 !! node = Some n1
           ∧ local n1 = zero_local <| redefined_extern_inline := true |>
           ∧ global n1 = zero_global
           ∧ analyzed n1 = false
           ∧ finalized (local n1) = false
           ∧ redefined_extern_inline (local n1) = true
           ∧ callees n1 = []
           ∧ (flag_unit_at_a_time w = true →
                cgraph_nodes w1 = cgraph_nodes w
                ∧ nodes_frame (λ p, p = node) w w1
                ∧ reachable n1 = reachable n
                ∧ ∀ e, e ∈ callees n → edges w1 !! e = None)
           ∧ (flag_unit_at_a_time w = false →
                (∀ m, m ∈ cgraph_nodes w1 → ¬ inlined_into w1 node m)
                ∧ (reachable n1 = true
                   ↔ reachable n = true ∧ queued w1 node))).
Proof.
  intros Hhash Hn Hfin.
  assert (∀ {A} (k : nat → M A),
            (node <- cgraph_node_of_decl d ;; k node) w = k node w) as Hintern.
  { intros A k. unfold cgraph_node_of_decl, bind, get. by rewrite Hhash. }
  split_and!.
  - intros Hout.
    assert (cgraph_reset_node node w = Err AssertFailure) as Hreset.
    { unfold cgraph_reset_node. by apply reset_node_prefix_err with n. }
    split; [done|]. unfold cgraph_finalize_function. rewrite Hintern.
    rewrite (bind_eq _ _ w n w) by by apply the_node_ok.
    rewrite Hfin. by apply bind_err.
  - unfold cgraph_finalize_function at 1. rewrite Hintern.
    rewrite (bind_eq _ _ w n w) by by apply the_node_ok.
    rewrite Hfin.
    change (when true (cgraph_reset_node node))
      with (cgraph_reset_node node).
    destruct (cgraph_reset_node node w) as [[[] w1]|e] eqn:Hreset;
      [|by rewrite !(bind_err _ _ _ _ Hreset)].
    rewrite !(bind_eq _ _ _ _ _ Hreset).
    assert (∃ n1, nodes w1 !! node = Some n1 ∧ finalized (local n1) = false)
      as (n1 & Hn1 & Hfin1).
    { destruct (flag_unit_at_a_time w) eqn:Hunit.
      - apply cgraph_reset_node_unit in Hreset
          as (_ & _ & _ & _ & _ & _ & n0 & n1 & _ & _ & Hn1 & Hu & _);
          [|done].
        exists n1. split; [done|].
        apply unlinked_fields in Hu as (_ & -> & _). done.
      - apply cgraph_reset_node_streaming in Hreset
          as (_ & _ & _ & _ & _ & _ & n0 & n1 & _ & _ & Hn1 & Hu & _);
          [|done].
        exists n1. split; [done|].
        apply unlinked_fields in Hu as (_ & -> & _). done. }
    pose proof (cgraph_reset_node_hash _ _ _ _ Hreset Hhash) as Hhash1.
    unfold cgraph_finalize_function.
    assert (∀ {A} (k : nat → M A),
              (node <- cgraph_node_of_decl d ;; k node) w1 = k node w1)
      as Hintern1.
    { intros A k. unfold cgraph_node_of_decl, bind, get. by rewrite Hhash1. }
    rewrite Hintern1.
    rewrite (bind_eq _ _ w1 n1 w1) by by apply the_node_ok.
    rewrite Hfin1. done.
  - intros w1 Hreset. destruct (flag_unit_at_a_time w) eqn:Hunit.
    + apply cgraph_reset_node_unit in Hreset
        as (_ & Hl & _ & _ & _ & Hf & n0 & n1 & Hn0 & Hout & Hn1 & Hu
            & Hcallees & Hgone); [|done].
      run. split; [done|]. exists n1.
      apply unlinked_fields in Hu
        as (_ & Hlocal & Hglobal & _ & _ & Hreach & _ & Han & _).
      rewrite Hlocal, Hglobal, Han, Hreach. by split_and!.
    + apply cgraph_reset_node_streaming in Hreset
        as (_ & _ & _ & _ & _ & Hclean & n0 & n1 & Hn0 & Hout & Hn1 & Hu
            & Hcallees & Hreach); [|done].
      run. split; [done|]. exists n1.
      apply unlinked_fields in Hu
        as (_ & Hlocal & Hglobal & _ & _ & _ & _ & Han & _).
      rewrite Hlocal, Hglobal, Han. by split_and!.
Qed.

End cgraph_finalize_function_facts.

(** C5, witness: redefining [f] of the sample graph, in whole-unit mode
    and in streaming mode, where the clone inlined into [f] goes and [f],
    which is not on the worklist, is no longer reachable; and
    [cgraph_finalize_function] on the finalized [f] of the queued
    sample, which does what it does on the reset [f] and leaves [f]
    finalized and marked as a redefined extern inline function. *)
Lemma cgraph_finalize_function_resets_witness :
  (∃ w1, @cgraph_reset_node 0 sample_graph = Ok (tt, w1)
         ∧ cgraph_nodes w1 = [2; 1; 0]
         ∧ (callees <$> nodes w1 !! 0) = Some []
         ∧ (reachable <$> nodes w1 !! 0) = Some true)
  ∧ (∃ w1, @cgraph_reset_node 0 sample_graph_streaming = Ok (tt, w1)
           ∧ cgraph_nodes w1 = [1; 0]
           ∧ (reachable <$> nodes w1 !! 0) = Some false)
  ∧ (∃ w1 w',
       cgraph_reset_node 0 sample_queued = Ok (tt, w1)
       ∧ @cgraph_finalize_function sample_externals 10 2 false w1
         = Ok (tt, w')
       ∧ @cgraph_finalize_function sample_externals 10 2 false sample_queued
         = Ok (tt, w')
       ∧ ((λ n, (finalized (local n), redefined_extern_inline (local n)))
            <$> nodes w' !! 0) = Some (true, true)).
Proof.
  split_and!.
  - destruct (cgraph_reset_node 0 sample_graph) as [[[] w1]|] eqn:Hreset;
      [|by vm_compute in Hreset].
    exists w1. split; [done|].
    destruct (@cgraph_finalize_function_resets sample_externals 0 2 false
                sample_graph 0 _ eq_refl eq_refl eq_refl) as (_ & _ & Hdoes).
    destruct (Hdoes w1 Hreset)
      as (_ & n1 & Hn1 & _ & _ & _ & _ & _ & Hcallees & Hunit & _).
    destruct (Hunit eq_refl) as (Hl & _ & Hreach & _).
    rewrite Hl, Hn1. simpl. by rewrite Hcallees, Hreach.
  - destruct (cgraph_reset_node 0 sample_graph_streaming)
      as [[[] w1]|] eqn:Hreset; [|by vm_compute in Hreset].
    exists w1. split; [done|].
    destruct (@cgraph_finalize_function_resets sample_externals 0 2 false
                sample_graph_streaming 0 _ eq_refl eq_refl eq_refl)
      as (_ & _ & Hdoes).
    destruct (Hdoes w1 Hreset)
      as (_ & n1 & Hn1 & _ & _ & _ & _ & _ & _ & _ & Hstream).
    destruct (Hstream eq_refl) as (_ & Hreach).
    assert (cgraph_nodes w1 = [1; 0] ∧ cgraph_nodes_queue w1 = None)
      as [Hl Hq].
    { vm_compute in Hreset. by injection Hreset as <-. }
    split; [done|]. rewrite Hn1. simpl. f_equal.
    destruct (reachable n1); [|done].
    destruct Hreach as [Hreach _]. destruct (Hreach eq_refl) as [_ Hqueued].
    unfold queued in Hqueued. rewrite Hq in Hqueued. inversion Hqueued.
  - destruct (cgraph_reset_node 0 sample_queued) as [[[] w1]|] eqn:Hreset;
      [|by vm_compute in Hreset].
    pose proof Hreset as Hw1. vm_compute in Hw1.
    apply ok_pair_inv in Hw1 as [_ Hw1].
    destruct (@cgraph_finalize_function sample_externals 10 2 false w1)
      as [[[] w']|] eqn:Hagain;
      [|by rewrite Hw1 in Hagain; vm_compute in Hagain].
    exists w1, w'. split; [done|]. split; [done|].
    destruct (@cgraph_finalize_function_resets sample_externals 10 2 false
                sample_queued 0 _ eq_refl eq_refl eq_refl) as (_ & Htie & _).
    unfold bind in Htie. rewrite Hreset in Htie.
    split; [by rewrite Htie|].
    rewrite Hw1 in Hagain. vm_compute in Hagain.
    apply ok_pair_inv in Hagain as [_ Hw']. subst w'. reflexivity.
Defined.
(** * Marking the functions to output *)

Section cgraph_mark_functions_to_output_facts.

Lemma first_not_inlined_same l : ∀ w e w',
  first_not_inlined l w = Ok (e, w') → w' = w.
Proof.
  induction l as [|x l IH]; intros w e w' Hrun; simpl in Hrun; run; [done|].
  destruct (non_null _); run; eauto.
Qed.






End cgraph_mark_functions_to_output_facts.

Section output_facts.
Context `{Externals}.


End output_facts.


(** * Expanding one function *)

Section cgraph_expand_function_facts.
Context `{Externals}.

Lemma cgraph_lower_function_trace node w w' :
  cgraph_lower_function node w = Ok (tt, w') → trace w' = trace w.
Proof.
  unfold cgraph_lower_function. intros Hrun. run.
  destruct (lowered nd); run; [done|].
  match goal with
  | H : ext _ _ = Ok _ |- _ => apply ext_ok in H as (w1 & _ & ->)
  end.
  by run.
Qed.

Lemma any_inline_clone_same fuel : ∀ p w b w',
  any_inline_clone fuel p w = Ok (b, w') → w' = w.
Proof.
  induction fuel as [|fuel IH]; intros [p|] w b w' Hrun; simpl in Hrun;
    run; try done.
  destruct (non_null _); run; eauto.
Qed.

(** The predicate may intern the declaration; it changes nothing else. *)
Lemma cgraph_preserve_function_body_p_frame d w b w' :
  cgraph_preserve_function_body_p d w = Ok (b, w') →
  outside_graph w' = outside_graph w ∧ edges w' = edges w
  ∧ ∀ q x, nodes w !! q = Some x → nodes w' !! q = Some x.
Proof.
  unfold cgraph_preserve_function_body_p. intros Hrun. run.
  destruct (dump_tree_all w); run; [done|].
  destruct (cgraph_global_info_ready w); run; [|done].
  match goal with
  | H : any_inline_clone _ _ _ = Ok _ |- _ =>
      apply any_inline_clone_same in H as ->
  end.
  match goal with
  | H : cgraph_node_of_decl _ _ = Ok _ |- _ =>
      apply cgraph_node_of_decl_ok in H as (Ho & He & _ & _ & Hcase)
  end.
  split_and!; [done..|]. intros q x Hq.
  destruct Hcase as [[_ ->] | (_ & Hfresh & -> & _)]; [done|].
  rewrite lookup_insert_ne; [done|]. intros ->. by rewrite Hfresh in Hq.
Qed.

(** The events of one expansion. *)
Lemma cgraph_expand_function_trace node w n w' :
  nodes w !! node = Some n →
  cgraph_expand_function node w = Ok (tt, w') →
  trace w' = trace w
             ++ (if flag_unit_at_a_time w then [EvAnnounce (decl n)] else [])
             ++ [EvExpand node (decl n)].
Proof.
  intros Hn Hrun. unfold cgraph_expand_function in Hrun. run.
  match goal with
  | H : when (flag_unit_at_a_time w) _ w = Ok (_, ?wa) |- _ =>
      assert (trace wa = trace w
                         ++ (if flag_unit_at_a_time w
                             then [EvAnnounce (decl n)] else [])) as Hwa
        by (destruct (flag_unit_at_a_time w); run;
            simpl; by rewrite ?app_nil_r);
      clear H
  end.
  match goal with
  | H : cgraph_lower_function _ _ = Ok _ |- _ =>
      apply cgraph_lower_function_trace in H as Htrace0
  end.
  match goal with
  | H : ext _ _ = Ok (_, ?wb) |- _ =>
      assert (trace wb = trace w
                         ++ (if flag_unit_at_a_time w
                             then [EvAnnounce (decl n)] else [])
                         ++ [EvExpand node (decl n)]) as Htrace1
        by (apply ext_ok in H as (? & _ & ->); simpl;
            by rewrite Htrace0, Hwa, <- app_assoc);
      clear H
  end.
  match goal with
  | H : cgraph_preserve_function_body_p _ _ = Ok (?b, _) |- _ =>
      apply cgraph_preserve_function_body_p_frame in H as (Ho2 & _);
      apply outside_graph_fields in Ho2 as (_ & _ & _ & _ & _ & Htr2);
      simpl in Htr2; destruct b; run
  end.
  - simpl. by rewrite Htr2.
  - match goal with
    | H : cgraph_node_remove_callees _ _ = Ok _ |- _ =>
        apply cgraph_node_remove_callees_ok in H as ((Ho & _) & _)
    end.
    apply outside_graph_fields in Ho as (_ & _ & _ & _ & _ & Htr).
    simpl in Htr |- *. by rewrite Htr, Htr2.
Qed.

Lemma expansions_app t1 t2 :
  expansions (t1 ++ t2) = expansions t1 ++ expansions t2.
Proof.
  induction t1 as [|[] t1 IH]; simpl; by rewrite ?IH.
Qed.

(** The expand hook is called once by [cgraph_expand_function], on the
    node it was given. *)
Lemma cgraph_expand_function_expansions node w w' :
  cgraph_expand_function node w = Ok (tt, w') →
  expansions (trace w') = expansions (trace w) ++ [node].
Proof.
  intros Hrun.
  assert (∃ n, nodes w !! node = Some n) as [n Hn].
  { unfold cgraph_expand_function in Hrun.
    apply bind_ok in Hrun as (n & w1 & [Hn _]%the_node_ok & _). eauto. }
  rewrite (cgraph_expand_function_trace _ _ _ _ Hn Hrun).
  rewrite !expansions_app. by destruct (flag_unit_at_a_time w).
Qed.

(** C8.  [cgraph_expand_function] stops on its first assertion when the
    node has an [inlined_to].  When it returns, it has announced the
    function in whole-unit mode, lowered it, and called the back end's
    expand hook on the declaration once; the declaration of the node is
    marked written in the state the hook left; and then, when
    [cgraph_preserve_function_body_p] answers yes, the body is kept, and
    when it answers no, the declaration has lost its saved body and its
    [struct function], its initial block is [error_mark_node], and the
    node has no callee edge left.  It stops on its second assertion when
    the declaration is not marked written in the state the hook left. *)
Theorem cgraph_expand_function_spec node w n :
  nodes w !! node = Some n →
  (inlined_to (global n) ≠ None →
     cgraph_expand_function node w = Err AssertFailure)
  ∧ (∀ w', cgraph_expand_function node w = Ok (tt, w') →
       inlined_to (global n) = None
       ∧ trace w' = trace w
                    ++ (if flag_unit_at_a_time w then [EvAnnounce (decl n)]
                        else [])
                    ++ [EvExpand node (decl n)]
       ∧ cgraph_function_flags_ready w' = true
       ∧ ∃ w0 w1 n1 x1 w2 preserve,
           cgraph_lower_function node
             (if flag_unit_at_a_time w
              then w <| trace ::= (λ t, t ++ [EvAnnounce (decl n)]) |>
              else w) = Ok (tt, w0)
           ∧ ext (lang_expand_function (decl n))
               (w0 <| trace ::= (λ t, t ++ [EvExpand node (decl n)]) |>)
             = Ok (tt, w1)
           ∧ nodes w1 !! node = Some n1
           ∧ trees w1 !! decl n1 = Some x1
           ∧ TREE_ASM_WRITTEN x1 = true
           ∧ cgraph_preserve_function_body_p (decl n1)
               (w1 <| current_function_decl := None |>)
             = Ok (preserve, w2)
           ∧ if preserve
             then w' = w2 <| cgraph_function_flags_ready := true |>
             else ∃ x' n',
                 trees w' !! decl n1 = Some x'
                 ∧ DECL_SAVED_TREE x' = None
                 ∧ DECL_STRUCT_FUNCTION x' = None
                 ∧ DECL_INITIAL x' = Some (error_mark_node w2)
                 ∧ nodes w' !! node = Some n'
                 ∧ callees n' = []
                 ∧ ∀ e, e ∈ callees n1 → edges w' !! e = None)
  ∧ (∀ w0 w1 n1 x1,
       inlined_to (global n) = None →
       cgraph_lower_function node
         (if flag_unit_at_a_time w
          then w <| trace ::= (λ t, t ++ [EvAnnounce (decl n)]) |>
          else w) = Ok (tt, w0) →
       ext (lang_expand_function (decl n))
         (w0 <| trace ::= (λ t, t ++ [EvExpand node (decl n)]) |>)
       = Ok (tt, w1) →
       nodes w1 !! node = Some n1 → trees w1 !! decl n1 = Some x1 →
       TREE_ASM_WRITTEN x1 = false →
       cgraph_expand_function node w = Err AssertFailure).
Proof.
  intros Hn. split_and!.
  - intros Hclone. unfold cgraph_expand_function.
    rewrite (bind_eq _ _ w n w) by by apply the_node_ok.
    destruct (inlined_to (global n)); [done|done].
  - intros w' Hrun. unfold cgraph_expand_function in Hrun. run.
    assert (inlined_to (global n) = None) as Hnone.
    { by destruct (inlined_to (global n)). }
    match goal with
    | H : when (flag_unit_at_a_time w) _ w = Ok (_, ?wa) |- _ =>
        assert (wa = if flag_unit_at_a_time w
                     then w <| trace ::= (λ t, t ++ [EvAnnounce (decl n)]) |>
                     else w) as Hwa
          by (destruct (flag_unit_at_a_time w); by run);
        clear H; rewrite Hwa in *; clear dependent wa
    end.
    match goal with
    | H : cgraph_lower_function _ _ = Ok (_, ?wb) |- _ =>
        rename wb into w0; rename H into Hlower
    end.
    pose proof (cgraph_lower_function_trace _ _ _ Hlower) as Htrace0.
    match goal with
    | H : ext _ _ = Ok (_, ?wb) |- _ => rename wb into w1; rename H into Hhook
    end.
    assert (trace w1 = trace w0 ++ [EvExpand node (decl n)]) as Htrace1.
    { apply ext_ok in Hhook as (w1' & _ & ->). done. }
    match goal with
    | H : cgraph_preserve_function_body_p _ _ = Ok (?b, ?wb) |- _ =>
        rename wb into w2; rename b into preserve; rename H into Hpreserve
    end.
    pose proof (cgraph_preserve_function_body_p_frame _ _ _ _ Hpreserve)
      as (Ho2 & He2 & Hn2).
    pose proof (outside_graph_fields _ _ Ho2) as (Ht2 & _ & _ & _ & _ & Htr2).
    simpl in Ht2, Htr2.
    assert (trace w2 = trace w
                       ++ (if flag_unit_at_a_time w
                           then [EvAnnounce (decl n)] else [])
                       ++ [EvExpand node (decl n)]) as Htrace2.
    { rewrite Htr2, Htrace1, Htrace0.
      destruct (flag_unit_at_a_time w); simpl; [|done].
      by rewrite <- app_assoc. }
    destruct preserve; run.
    + split_and!; try done. eexists w0, w1, _, _, _, true.
      split_and!; done.
    + match goal with
      | H : cgraph_node_remove_callees _ _ = Ok _ |- _ =>
          apply cgraph_node_remove_callees_ok in H
            as (Hs & _ & _ & _ & m & m' & Hm & Hm' & Hcallees & Hgone)
      end.
      destruct Hs as (Ho & _).
      pose proof (outside_graph_fields _ _ Ho) as (Ht & _ & _ & _ & _ & Htr).
      simpl in Ht, Htr, Hm.
      split_and!; try done.
      { simpl. by rewrite Htr. }
      eexists w0, w1, _, _, _, false. split_and!; try done.
      eexists _, m'. simpl. rewrite Ht.
      assert (nodes w2 !! node = Some nd0) as Hsame by by apply Hn2.
      run. rewrite lookup_insert_eq. split_and!; done.
  - intros w0 w1 n1 x1 Hnone Hlower Hhook Hn1 Hx1 Hasm.
    unfold cgraph_expand_function.
    rewrite (bind_eq _ _ w n w) by by apply the_node_ok.
    rewrite Hnone. simpl.
    rewrite (bind_eq _ _ w tt w) by done.
    rewrite (bind_eq _ _ w (flag_unit_at_a_time w) w) by done.
    rewrite (bind_eq _ _ w tt
               (if flag_unit_at_a_time w
                then w <| trace ::= (λ t, t ++ [EvAnnounce (decl n)]) |>
                else w)) by by destruct (flag_unit_at_a_time w).
    rewrite (bind_eq _ _ _ _ _ Hlower).
    rewrite (bind_eq _ _ w0 tt
               (w0 <| trace ::= (λ t, t ++ [EvExpand node (decl n)]) |>))
      by done.
    rewrite (bind_eq _ _ _ _ _ Hhook).
    rewrite (bind_eq _ _ w1 (decl n1) w1)
      by (apply decl_of_ok; eauto).
    rewrite (bind_eq _ _ w1 x1 w1) by by apply the_tree_ok.
    by rewrite Hasm.
Qed.

End cgraph_expand_function_facts.

(** C8, witness: expanding [f] of the sample graph.  The back end is
    called once, after the announcement; the body is not preserved, so
    the declaration loses it and the node its callee edges. *)
Lemma cgraph_expand_function_spec_witness :
  ∃ w', @cgraph_expand_function sample_externals 0 sample_graph = Ok (tt, w')
        ∧ trace w' = [EvAnnounce 2; EvExpand 0 2]
        ∧ cgraph_function_flags_ready w' = true
        ∧ (DECL_SAVED_TREE <$> trees w' !! 2) = Some None
        ∧ (callees <$> nodes w' !! 0) = Some [].
Proof.
  destruct (@cgraph_expand_function sample_externals 0 sample_graph)
    as [[[] w']|] eqn:Hrun; [|by vm_compute in Hrun].
  exists w'. split; [done|].
  destruct (@cgraph_expand_function_spec sample_externals 0 sample_graph _
              eq_refl) as (_ & Hok & _).
  destruct (Hok w' Hrun) as (_ & Htrace & Hready & _).
  split; [exact Htrace|]. split; [exact Hready|].
  vm_compute in Hrun. injection Hrun as <-. split; reflexivity.
Defined.
(** * Assembling the pending functions *)

Section cgraph_assemble_pending_functions_facts.
Context `{Externals}.

Lemma pending_function_is_expanded_ok n w go w' :
  pending_function_is_expanded n w = Ok (go, w') →
  w' = w
  ∧ ∃ x, nodes w !! n = Some x
    ∧ (go = true ↔
       inlined_to (global x) = None ∧ alias x = false
       ∧ ∃ d, trees w !! decl x = Some d ∧ DECL_EXTERNAL d = false).
Proof.
  unfold pending_function_is_expanded. intros Hrun. run.
  destruct (inlined_to (global nd)) as [c|] eqn:Hc, (alias nd) eqn:Ha;
    simpl in Hrun; run;
    (split; [done|]); exists nd; (split; [done|]); rewrite ?Hc, ?Ha;
    try (split; [done | by intros (? & ? & _)]).
  split.
  - intros Hgo. split_and!; [done..|]. eexists. split; [done|].
    by destruct (DECL_EXTERNAL _).
  - intros (_ & _ & d & Hd & Hext). run. by rewrite Hext.
Qed.

(** One turn of the loop: the head leaves the worklist with its link
    cleared, and is expanded exactly when the test holds of it. *)
Lemma assemble_pending_function_ok n out w b w' :
  assemble_pending_function n out w = Ok (b, w') →
  ∃ x, nodes w !! n = Some x
    ∧ let w1 := w <| cgraph_nodes_queue := next_needed x |>
                  <| nodes ::= <[n := x <| next_needed := None |>]> |> in
      (inlined_to (global x) = None ∧ alias x = false
       ∧ (∃ d, trees w !! decl x = Some d ∧ DECL_EXTERNAL d = false)
       ∧ b = true ∧ cgraph_expand_function n w1 = Ok (tt, w'))
      ∨ (¬ (inlined_to (global x) = None ∧ alias x = false
            ∧ ∃ d, trees w !! decl x = Some d ∧ DECL_EXTERNAL d = false)
         ∧ b = out ∧ w' = w1).
Proof.
  unfold assemble_pending_function. intros Hrun. run.
  match goal with
  | Hn : nodes w !! n = Some ?x |- _ => exists x; split; [exact Hn|]
  end.
  match goal with
  | H : pending_function_is_expanded _ _ = Ok (?go, _) |- _ =>
      apply pending_function_is_expanded_ok in H as (-> & x & Hx & Hgo);
      rename go into go_
  end.
  simpl in Hx. rewrite lookup_insert_eq in Hx. injection Hx as <-.
  simpl in Hgo.
  destruct go_; run.
  - left. destruct Hgo as [Hgo _]. destruct (Hgo eq_refl) as (? & ? & ?).
    split_and!; done.
  - right. split_and!; [|done..]. intros Hno. apply Hgo in Hno. done.
Qed.

Lemma assemble_pending_function_expansions n out w b w' :
  assemble_pending_function n out w = Ok (b, w') →
  ∃ l, expansions (trace w') = expansions (trace w) ++ l
       ∧ (b = true ↔ out = true ∨ l ≠ []).
Proof.
  intros (x & Hx & [(_ & _ & _ & -> & Hrun) | (_ & -> & ->)])
    %assemble_pending_function_ok.
  - apply cgraph_expand_function_expansions in Hrun. exists [n].
    split; [done|]. split; [by right | done].
  - exists []. split; [by rewrite app_nil_r|]. naive_solver.
Qed.

(** The loop of the model, with enough fuel, is the loop. *)
Lemma assemble_pending_loop_drains fuel : ∀ out w b w',
  assemble_pending_loop fuel out w = Ok (b, w') →
  drains assemble_pending_function w out w' b.
Proof.
  induction fuel as [|fuel IH]; intros out w b w' Hrun; simpl in Hrun;
    run; destruct (cgraph_nodes_queue w) as [n|] eqn:Hq; run;
    try by apply drains_done.
  eapply drains_turn; [done..|]. by apply IH.
Qed.

Lemma drains_assemble_pending_loop w out w' b :
  drains assemble_pending_function w out w' b →
  ∃ fuel0, ∀ fuel, fuel0 ≤ fuel →
    assemble_pending_loop fuel out w = Ok (b, w').
Proof.
  induction 1 as [w a Hq | w a n a1 w1 w' a' Hq Hturn _ [fuel0 IH]].
  - exists 0. intros [|fuel] _; simpl; unfold bind, get; by rewrite Hq.
  - exists (S fuel0). intros [|fuel] Hle; [lia|]. simpl.
    unfold bind at 1, get. rewrite Hq.
    rewrite (bind_eq _ _ _ _ _ Hturn). apply IH. lia.
Qed.

(** What the loop leaves. *)
Lemma drains_assemble_pending w out w' b :
  drains assemble_pending_function w out w' b →
  cgraph_nodes_queue w' = None
  ∧ ∃ l, expansions (trace w') = expansions (trace w) ++ l
         ∧ (b = true ↔ out = true ∨ l ≠ []).
Proof.
  induction 1 as [w a Hq | w a n a1 w1 w' a' Hq Hturn _ (Hend & l & Hl & Hb)].
  - split; [done|]. exists []. split; [by rewrite app_nil_r|]. naive_solver.
  - split; [done|].
    apply assemble_pending_function_expansions in Hturn as (l1 & Hl1 & Ha1).
    exists (l1 ++ l). split.
    + by rewrite Hl, Hl1, app_assoc.
    + rewrite Hb, Ha1. split.
      * intros [[?|?]|?]; [by left | right; by destruct l1
                          | right; by destruct l1, l].
      * intros [?|Hne]; [by left; left|].
        destruct l1; [by right | left; by right].
Qed.

(** C10.  In whole-unit mode [cgraph_assemble_pending_functions] returns
    false and leaves the state as it was, so nothing is expanded.  In
    streaming mode it runs the loop on the worklist: the model with
    enough fuel returns what the loop returns; one turn takes the head
    off the worklist, clears its link, and expands it exactly when it has
    no [inlined_to], is not an alias and its declaration is not
    external; and when the function returns the worklist is empty and
    the result is true exactly when the expand hook was called. *)
Theorem cgraph_assemble_pending_functions_spec w :
  (flag_unit_at_a_time w = true →
     ∀ fuel, cgraph_assemble_pending_functions fuel w = Ok (false, w))
  ∧ (flag_unit_at_a_time w = false →
     (∀ fuel b w',
        cgraph_assemble_pending_functions fuel w = Ok (b, w') →
        drains assemble_pending_function w false w' b
        ∧ cgraph_nodes_queue w' = None
        ∧ ∃ l, expansions (trace w') = expansions (trace w) ++ l
               ∧ (b = true ↔ l ≠ []))
     ∧ (∀ b w',
          drains assemble_pending_function w false w' b →
          ∃ fuel0, ∀ fuel, fuel0 ≤ fuel →
            cgraph_assemble_pending_functions fuel w = Ok (b, w')))
  ∧ (∀ n out w0 b w',
       assemble_pending_function n out w0 = Ok (b, w') →
       ∃ x, nodes w0 !! n = Some x
         ∧ let w1 := w0 <| cgraph_nodes_queue := next_needed x |>
                        <| nodes ::= <[n := x <| next_needed := None |>]> |>
           in
           (inlined_to (global x) = None ∧ alias x = false
            ∧ (∃ d, trees w0 !! decl x = Some d ∧ DECL_EXTERNAL d = false)
            ∧ b = true ∧ cgraph_expand_function n w1 = Ok (tt, w'))
           ∨ (¬ (inlined_to (global x) = None ∧ alias x = false
                 ∧ ∃ d, trees w0 !! decl x = Some d
                        ∧ DECL_EXTERNAL d = false)
              ∧ b = out ∧ w' = w1)).
Proof.
  split_and!.
  - intros Hunit fuel. unfold cgraph_assemble_pending_functions.
    rewrite (bind_eq _ _ w true w) by by rewrite gets_ok. done.
  - intros Hstream.
    assert (∀ fuel, cgraph_assemble_pending_functions fuel w
                    = assemble_pending_loop fuel false w) as Hfun.
    { intros fuel. unfold cgraph_assemble_pending_functions.
      rewrite (bind_eq _ _ w false w) by by rewrite gets_ok. done. }
    split.
    + intros fuel b w' Hrun. rewrite Hfun in Hrun.
      apply assemble_pending_loop_drains in Hrun. split; [done|].
      apply drains_assemble_pending in Hrun as (Hq & l & Hl & Hb).
      split; [done|]. exists l. split; [done|]. naive_solver.
    + intros b w' Hloop.
      apply drains_assemble_pending_loop in Hloop as [fuel0 Hfuel].
      exists fuel0. intros fuel Hle. rewrite Hfun. by apply Hfuel.
  - intros n out w0 b w'. apply assemble_pending_function_ok.
Qed.

End cgraph_assemble_pending_functions_facts.

(** C10, witness: in whole-unit mode the sample graph is left alone; in
    streaming mode, with the clone and [f] on the worklist, the clone is
    skipped, [f] is expanded, and the answer is true. *)
Lemma cgraph_assemble_pending_functions_spec_witness :
  (∀ fuel, @cgraph_assemble_pending_functions sample_externals fuel
             sample_graph = Ok (false, sample_graph))
  ∧ ∃ w', @cgraph_assemble_pending_functions sample_externals 2
            sample_pending = Ok (true, w')
          ∧ cgraph_nodes_queue w' = None
          ∧ expansions (trace w') = [0].
Proof.
  split.
  - exact (proj1 (@cgraph_assemble_pending_functions_spec sample_externals
                    sample_graph) eq_refl).
  - destruct (@cgraph_assemble_pending_functions sample_externals 2
                sample_pending) as [[b w']|] eqn:Hrun;
      [|by vm_compute in Hrun].
    destruct (proj1 (proj1 (proj2 (@cgraph_assemble_pending_functions_spec
                sample_externals sample_pending)) eq_refl) 2 b w' Hrun)
      as (_ & Hq & _).
    exists w'. vm_compute in Hrun.
    injection Hrun as Hb Hw. split; [by rewrite Hb|].
    split; [exact Hq|]. rewrite <- Hw. reflexivity.
Defined.
(** * Expanding all functions *)

Section cgraph_expand_all_functions_facts.
Context `{Externals}.

Lemma keep_output_ok order : ∀ w l w',
  keep_output order w = Ok (l, w') →
  w' = w ∧ l = filter (λ p, output_set w p) order.
Proof.
  induction order as [|p order IH]; intros w l w' Hrun; simpl in Hrun; run;
    [done|].
  match goal with
  | H : keep_output _ _ = Ok _ |- _ => apply IH in H as [-> ->]
  end.
  split; [done|]. rewrite filter_cons.
  match goal with
  | Hn : nodes w !! p = Some ?n |- _ =>
      assert (output_set w p = output n) as Hp
        by (unfold output_set; by rewrite Hn);
      destruct (decide _) as [Ho|Ho]; rewrite Hp in Ho;
      by destruct (output n)
  end.
Qed.

Lemma expand_if_output_ok node w w' :
  expand_if_output node w = Ok (tt, w') →
  ∃ n, nodes w !! node = Some n
    ∧ if output n
      then reachable n = true
           ∧ cgraph_expand_function node
               (w <| nodes ::= <[node := n <| output := false |>]> |>)
             = Ok (tt, w')
      else w' = w.
Proof.
  unfold expand_if_output. intros Hrun. run.
  match goal with
  | Hn : nodes w !! node = Some ?n |- _ =>
      exists n; split; [exact Hn|]; destruct (output n); by run
  end.
Qed.

Lemma expand_if_output_loop l : ∀ w w',
  for_each l expand_if_output w = Ok (tt, w') →
  ∃ l', l' `sublist_of` l
        ∧ expansions (trace w') = expansions (trace w) ++ l'.
Proof.
  induction l as [|p l IH]; intros w w' Hrun.
  - simpl in Hrun. run. exists []. by rewrite app_nil_r.
  - apply for_each_cons_ok in Hrun as (w1 & Hp & Hl).
    apply IH in Hl as (l' & Hsub & Hl').
    apply expand_if_output_ok in Hp as (n & Hn & Hp).
    destruct (output n).
    + destruct Hp as [_ Hp%cgraph_expand_function_expansions].
      exists (p :: l'). split; [by constructor|].
      rewrite Hl', Hp. simpl. by rewrite <- app_assoc.
    + subst w1. exists l'. split; [by constructor|done].
Qed.

(** C4.  [cgraph_expand_all_functions] asks for a postorder of the graph
    and stops on its assertion when the postorder does not have
    [cgraph_n_nodes] entries.  When it returns, it has run its second
    loop on the entries of the postorder whose [output] was set, last
    entry first; a turn of that loop on a node whose [output] is set
    asserts that it is reachable, clears the flag and expands the node,
    and a turn on a node whose [output] is clear does nothing; so the
    nodes handed to the back end are some of the filtered entries, in
    reverse postorder. *)
Theorem cgraph_expand_all_functions_spec w order w0 :
  ext cgraph_postorder w = Ok (order, w0) →
  (length order ≤ cgraph_n_nodes w →
   length order ≠ cgraph_n_nodes w0 →
   cgraph_expand_all_functions w = Err AssertFailure)
  ∧ (∀ w', cgraph_expand_all_functions w = Ok (tt, w') →
       length order = cgraph_n_nodes w0
       ∧ for_each (rev (filter (λ p, output_set w0 p) order))
           expand_if_output w0 = Ok (tt, w')
       ∧ ∃ l, l `sublist_of` rev (filter (λ p, output_set w0 p) order)
              ∧ expansions (trace w') = expansions (trace w) ++ l)
  ∧ (∀ node w1 w2,
       expand_if_output node w1 = Ok (tt, w2) →
       ∃ n, nodes w1 !! node = Some n
         ∧ if output n
           then reachable n = true
                ∧ cgraph_expand_function node
                    (w1 <| nodes ::= <[node := n <| output := false |>]> |>)
                  = Ok (tt, w2)
           else w2 = w1).
Proof.
  intros Horder. split_and!.
  - intros Hroom Hlen. unfold cgraph_expand_all_functions.
    rewrite (bind_eq _ _ w (cgraph_n_nodes w) w) by by rewrite gets_ok.
    rewrite (bind_eq _ _ _ _ _ Horder).
    rewrite decide_True by done.
    rewrite (bind_eq _ _ w0 tt w0) by done.
    rewrite (bind_eq _ _ w0 (cgraph_n_nodes w0) w0) by by rewrite gets_ok.
    by rewrite bool_decide_eq_false_2.
  - intros w' Hrun. unfold cgraph_expand_all_functions in Hrun. run.
    rewrite Horder in *. run.
    destruct (decide _); run.
    match goal with
    | H : bool_decide _ = true |- _ => apply bool_decide_eq_true_1 in H
    end.
    match goal with
    | H : keep_output _ _ = Ok _ |- _ => apply keep_output_ok in H as [-> ->]
    end.
    split_and!; [done..|].
    match goal with
    | H : for_each _ _ _ = Ok _ |- _ =>
        apply expand_if_output_loop in H as (done_ & Hsub & Hl)
    end.
    exists done_. split; [done|]. rewrite Hl.
    apply ext_ok in Horder as (wp & _ & ->). done.
  - intros node w1 w2. apply expand_if_output_ok.
Qed.

End cgraph_expand_all_functions_facts.

(** C4, witness: on the sample graph with [f] marked, the postorder has
    the three nodes, [f] alone is expanded, and its flag is clear at the
    end. *)
Lemma cgraph_expand_all_functions_spec_witness :
  ∃ w', @cgraph_expand_all_functions sample_externals sample_marked
        = Ok (tt, w')
        ∧ expansions (trace w') = [0]
        ∧ output_set w' 0 = false.
Proof.
  destruct (@cgraph_expand_all_functions sample_externals sample_marked)
    as [[[] w']|] eqn:Hrun; [|by vm_compute in Hrun].
  exists w'. split; [done|].
  destruct (@cgraph_expand_all_functions_spec sample_externals sample_marked
              [2; 1; 0] sample_marked eq_refl) as (_ & Hok & _).
  destruct (Hok w' Hrun) as (_ & _ & l & Hsub & Hl).
  vm_compute in Hrun. injection Hrun as Hw. rewrite <- Hw. split; reflexivity.
Defined.
(** * The reclamation sweep *)

Section reclaim_functions_facts.
Context `{Externals}.





(** The stages of [cgraph_finalize_compilation_unit] in whole-unit mode:
    the pending variables, the worklist of functions, the sweep over the
    nodes introduced since the previous call, and the collection. *)
Lemma cgraph_finalize_compilation_unit_stages fuel u u' :
  cgraph_finalize_compilation_unit fuel u = Ok (tt, u') →
  ∃ u0, ext finish_aliases_1 u = Ok (tt, u0)
    ∧ (flag_unit_at_a_time u0 = true →
       ∃ b w1 w2 w3,
         cgraph_varpool_analyze_pending_decls fuel u0 = Ok (b, w1)
         ∧ analyze_queued_functions fuel w1 = Ok (tt, w2)
         ∧ reclaim_functions (cgraph_nodes w2) (first_analyzed w2) w2
           = Ok (tt, w3)
         ∧ ext ggc_collect (w3 <| first_analyzed := head (cgraph_nodes w3) |>)
           = Ok (tt, u')).
Proof.
  unfold cgraph_finalize_compilation_unit. intros Hrun. run.
  match goal with
  | Hf : ext finish_aliases_1 u = Ok (_, ?w0) |- _ =>
      exists w0; split; [exact Hf|]; intros Hunit; rew_run Hunit
  end.
  simpl in Hrun. run. eauto 10.
Qed.


End reclaim_functions_facts.

(** * The worklist of functions *)

Section analyze_queued_functions_facts.
Context `{Externals}.

Lemma marks_reachable_refl w : marks_reachable w w.
Proof. split_and!; [done..|]. intros p n Hn. exists n. eauto. Qed.

Lemma marks_reachable_trans w1 w2 w3 :
  marks_reachable w1 w2 → marks_reachable w2 w3 → marks_reachable w1 w3.
Proof.
  intros (Ho1 & He1 & Hl1 & Hn1) (Ho2 & He2 & Hl2 & Hn2).
  split_and!; [congruence..|].
  intros p n Hn. destruct (Hn1 p n Hn) as (n' & Hn' & Hcase1).
  destruct (Hn2 p n' Hn') as (n'' & Hn'' & Hcase2).
  exists n''. split; [done|].
  destruct Hcase1 as [E1|E1], Hcase2 as [E2|E2].
  - left. congruence.
  - right. rewrite E2.
    change ((unlinked n') <| reachable := true |>
            = (unlinked n) <| reachable := true |>). by rewrite E1.
  - right. congruence.
  - right. rewrite E2.
    change ((unlinked n') <| reachable := true |>
            = unlinked (n <| reachable := true |>)). by rewrite E1.
Qed.

Lemma cgraph_mark_reachable_node_marks q w w' :
  cgraph_mark_reachable_node q w = Ok (tt, w') →
  marks_reachable w w'
  ∧ ∃ n', nodes w' !! q = Some n' ∧ reachable n' = true.
Proof.
  intros (Ho & He & _ & Hl & Hf & n & n' & Hn & Hn' & Hun)
    %cgraph_mark_reachable_node_frame.
  split.
  - split_and!; [done..|]. intros p x Hx.
    destruct (decide (p = q)) as [->|Hne].
    + rewrite Hn in Hx. injection Hx as <-. eauto.
    + destruct (nodes_frame_lookup _ _ _ _ _ Hf Hne Hx) as (x' & ? & ?).
      eauto.
  - exists n'. split; [done|].
    by apply unlinked_fields in Hun as (_ & _ & _ & _ & _ & -> & _).
Qed.

Lemma marks_reachable_keeps w w' p n :
  marks_reachable w w' → nodes w !! p = Some n → reachable n = true →
  ∃ n', nodes w' !! p = Some n' ∧ reachable n' = true.
Proof.
  intros (_ & _ & _ & Hnodes) Hn Hr.
  destruct (Hnodes p n Hn) as (n' & Hn' & [E|E]); exists n'; (split; [done|]);
    by apply unlinked_fields in E as (_ & _ & _ & _ & _ & -> & _).
Qed.

Lemma mark_callee_reachable_ok e w w' :
  mark_callee_reachable e w = Ok (tt, w') →
  marks_reachable w w'
  ∧ ∃ x c, edges w !! e = Some x ∧ nodes w' !! callee x = Some c
           ∧ reachable c = true.
Proof.
  unfold mark_callee_reachable. intros Hrun. run.
  match goal with
  | He : edges w !! e = Some ?x, Hc : nodes w !! callee ?x = Some ?c |- _ =>
      destruct (reachable c) eqn:Hr; simpl in Hrun; run
  end.
  - split; [apply marks_reachable_refl|]. eauto.
  - apply cgraph_mark_reachable_node_marks in Hrun as (? & ? & ? & ?). eauto 10.
Qed.

(** After the loop over the callees, every callee is reachable. *)
Lemma mark_callees_reachable_ok l : ∀ w w',
  for_each l mark_callee_reachable w = Ok (tt, w') →
  marks_reachable w w'
  ∧ ∀ e, e ∈ l →
      ∃ x c, edges w' !! e = Some x ∧ nodes w' !! callee x = Some c
             ∧ reachable c = true.
Proof.
  induction l as [|e l IH]; intros w w' Hrun.
  - simpl in Hrun. run. split; [apply marks_reachable_refl|].
    by intros e ?%elem_of_nil.
  - apply for_each_cons_ok in Hrun as (w1 & He & Hl).
    apply mark_callee_reachable_ok in He as (Hm1 & x & c & Hx & Hc & Hr).
    apply IH in Hl as (Hm & Hall).
    split; [by eapply marks_reachable_trans|].
    intros e' [->|He']%elem_of_cons; [|by apply Hall].
    destruct (marks_reachable_keeps _ _ _ _ Hm Hc Hr) as (c' & Hc' & Hr').
    exists x, c'. split_and!; [|done..].
    destruct Hm as (_ & -> & _). by destruct Hm1 as (_ & -> & _).
Qed.

(** One turn of the loop. *)
Lemma analyze_queued_function_ok fuel node w w' :
  analyze_queued_function fuel node w = Ok (tt, w') →
  ∃ n d, nodes w !! node = Some n ∧ trees w !! decl n = Some d
    ∧ let w1 := w <| cgraph_nodes_queue := next_needed n |>
                  <| nodes ::= <[node := n <| next_needed := None |>]> |> in
      match DECL_SAVED_TREE d with
      | None => cgraph_reset_node node w1 = Ok (tt, w')
      | Some _ =>
          analyzed n = false ∧ reachable n = true
          ∧ ∃ w2 n2 w3 b,
              cgraph_analyze_function node w1 = Ok (tt, w2)
              ∧ nodes w2 !! node = Some n2
              ∧ for_each (callees n2) mark_callee_reachable w2 = Ok (tt, w3)
              ∧ marks_reachable w2 w3
              ∧ (∀ e, e ∈ callees n2 →
                   ∃ x c, edges w3 !! e = Some x
                          ∧ nodes w3 !! callee x = Some c
                          ∧ reachable c = true)
              ∧ cgraph_varpool_analyze_pending_decls fuel w3 = Ok (b, w')
      end.
Proof.
  unfold analyze_queued_function. intros Hrun. run.
  match goal with
  | Hn : nodes w !! node = Some ?n, Hd : trees w !! decl ?n = Some ?d |- _ =>
      exists n, d; split; [exact Hn|]; split; [exact Hd|];
      destruct (DECL_SAVED_TREE d) as [body|] eqn:Hbody; simpl in Hrun;
      [|exact Hrun]
  end.
  run.
  match goal with
  | Ha : negb _ && _ = true |- _ =>
      simpl in Ha; apply andb_true_iff in Ha as [Ha ?];
      apply negb_true_iff in Ha
  end.
  split_and!; [done..|].
  match goal with
  | Hloop : for_each _ _ _ = Ok _ |- _ =>
      pose proof (mark_callees_reachable_ok _ _ _ Hloop) as [? ?]
  end.
  eauto 12.
Qed.

Ltac same_run :=
  repeat match goal with
  | H : bind ?m _ ?w = Ok _ |- bind ?m _ ?w = Ok _ =>
      unfold bind at 1 in H; unfold bind at 1;
      destruct (m w) as [[? ?]|]; [|discriminate H]
  | H : (if ?b then _ else _) ?w = Ok _ |- (if ?b then _ else _) ?w = Ok _ =>
      destruct b; [try exact H|try exact H]
  end.

Lemma varpool_analyze_loop_mono fuel : ∀ fuel' changed w r,
  fuel ≤ fuel' →
  varpool_analyze_loop fuel changed w = Ok r →
  varpool_analyze_loop fuel' changed w = Ok r.
Proof.
  induction fuel as [|fuel IH]; intros [|fuel'] changed w r Hle Hrun;
    try lia; simpl in Hrun |- *;
    rewrite (bind_eq _ _ w w w) in Hrun by done;
    rewrite (bind_eq _ _ w w w) by done;
    destruct (cgraph_varpool_first_unanalyzed_node w); try done.
  same_run. apply IH; [lia|done].
Qed.

Lemma analyze_queued_function_mono fuel fuel' node w r :
  fuel ≤ fuel' →
  analyze_queued_function fuel node w = Ok r →
  analyze_queued_function fuel' node w = Ok r.
Proof.
  intros Hle. unfold analyze_queued_function. intros Hrun. same_run.
  apply bind_ok in Hrun as (b & w' & Hloop & Hret).
  rewrite (bind_eq _ _ _ b w'); [done|].
  by eapply varpool_analyze_loop_mono.
Qed.

(** The loop of the model, with enough fuel, is the loop. *)
Lemma analyze_queued_functions_drains fuel : ∀ k w w',
  fuel ≤ k →
  analyze_queued_functions fuel w = Ok (tt, w') →
  drains (λ node _, analyze_queued_function k node) w tt w' tt.
Proof.
  induction fuel as [|fuel IH]; intros k w w' Hle Hrun; simpl in Hrun;
    run; destruct (cgraph_nodes_queue w) as [n|] eqn:Hq; run;
    try by apply drains_done.
  eapply drains_turn; [done| |].
  - eapply analyze_queued_function_mono; [|done]. lia.
  - apply IH; [lia|done].
Qed.

Lemma drains_analyze_queued_functions k w w' :
  drains (λ node _, analyze_queued_function k node) w tt w' tt →
  ∃ fuel0, ∀ fuel, fuel0 ≤ fuel →
    analyze_queued_functions fuel w = Ok (tt, w').
Proof.
  induction 1 as [w [] Hq | w [] n [] w1 w' [] Hq Hturn _ [fuel0 IH]].
  - exists 0. intros [|fuel] _; simpl; unfold bind, get; by rewrite Hq.
  - exists (S (k + fuel0)). intros [|fuel] Hle; [lia|]. simpl.
    unfold bind at 1, get. rewrite Hq.
    rewrite (bind_eq _ _ w tt w1).
    + apply IH. lia.
    + eapply analyze_queued_function_mono; [|done]. lia.
Qed.

Lemma drains_queue_empty {A} (body : node_ptr → A → M A) w a w' a' :
  drains body w a w' a' → cgraph_nodes_queue w' = None.
Proof. by induction 1. Qed.

(** C2.  One turn of the worklist loop of
    [cgraph_finalize_compilation_unit] takes the head off the worklist
    and clears its link; when the declaration has no saved body the turn
    is [cgraph_reset_node] on the node; otherwise the node is not
    analyzed and is reachable, [cgraph_analyze_function] runs on it,
    [cgraph_mark_reachable_node] runs on every callee that is not
    reachable, so that every callee of an edge of the node is reachable,
    and the pending variables are analyzed.  The loop ends with the
    worklist empty, and the model with enough fuel returns what the loop
    returns.  In whole-unit mode the function runs this loop after the
    pending variables. *)
Theorem analyze_queued_functions_spec :
  (∀ fuel node w w',
     analyze_queued_function fuel node w = Ok (tt, w') →
     ∃ n d, nodes w !! node = Some n ∧ trees w !! decl n = Some d
       ∧ let w1 := w <| cgraph_nodes_queue := next_needed n |>
                     <| nodes ::= <[node := n <| next_needed := None |>]> |>
         in
         match DECL_SAVED_TREE d with
         | None => cgraph_reset_node node w1 = Ok (tt, w')
         | Some _ =>
             analyzed n = false ∧ reachable n = true
             ∧ ∃ w2 n2 w3 b,
                 cgraph_analyze_function node w1 = Ok (tt, w2)
                 ∧ nodes w2 !! node = Some n2
                 ∧ for_each (callees n2) mark_callee_reachable w2
                   = Ok (tt, w3)
                 ∧ marks_reachable w2 w3
                 ∧ (∀ e, e ∈ callees n2 →
                      ∃ x c, edges w3 !! e = Some x
                             ∧ nodes w3 !! callee x = Some c
                             ∧ reachable c = true)
                 ∧ cgraph_varpool_analyze_pending_decls fuel w3
                   = Ok (b, w')
         end)
  ∧ (∀ e w w',
       mark_callee_reachable e w = Ok (tt, w') →
       ∃ x c, edges w !! e = Some x ∧ nodes w !! callee x = Some c
         ∧ if reachable c then w' = w
           else cgraph_mark_reachable_node (callee x) w = Ok (tt, w'))
  ∧ (∀ fuel w w',
       analyze_queued_functions fuel w = Ok (tt, w') →
       cgraph_nodes_queue w' = None
       ∧ drains (λ node _, analyze_queued_function fuel node) w tt w' tt)
  ∧ (∀ k w w',
       drains (λ node _, analyze_queued_function k node) w tt w' tt →
       ∃ fuel0, ∀ fuel, fuel0 ≤ fuel →
         analyze_queued_functions fuel w = Ok (tt, w'))
  ∧ (∀ fuel u u',
       cgraph_finalize_compilation_unit fuel u = Ok (tt, u') →
       ∃ u0, ext finish_aliases_1 u = Ok (tt, u0)
         ∧ (flag_unit_at_a_time u0 = true →
            ∃ b w1 w2,
              cgraph_varpool_analyze_pending_decls fuel u0 = Ok (b, w1)
              ∧ analyze_queued_functions fuel w1 = Ok (tt, w2)
              ∧ cgraph_nodes_queue w2 = None)).
Proof.
  split_and!.
  - apply analyze_queued_function_ok.
  - intros e w w' Hrun. unfold mark_callee_reachable in Hrun. run.
    match goal with
    | He : edges w !! e = Some ?x, Hc : nodes w !! callee ?x = Some ?c |- _ =>
        exists x, c; split; [exact He|]; split; [exact Hc|];
        destruct (reachable c); simpl in Hrun; by run
    end.
  - intros fuel w w' Hrun.
    apply (analyze_queued_functions_drains fuel fuel) in Hrun; [|done].
    split; [by eapply drains_queue_empty|done].
  - apply drains_analyze_queued_functions.
  - intros fuel u u' Hrun.
    apply cgraph_finalize_compilation_unit_stages in Hrun
      as (u0 & Hu0 & Hstages).
    exists u0. split; [done|]. intros Hunit.
    destruct (Hstages Hunit) as (b & w1 & w2 & w3 & Hv & Hloop & _).
    exists b, w1, w2. split_and!; [done..|].
    apply (analyze_queued_functions_drains fuel fuel) in Hloop; [|done].
    by eapply drains_queue_empty.
Qed.

End analyze_queued_functions_facts.

(** C2, witness: [f] is on the worklist and calls [g], which has no body
    in the unit.  The first turn analyzes [f] and marks [g] reachable,
    which puts it on the worklist; the second turn finds [g] without a
    body and resets it; then the worklist is empty. *)
Lemma analyze_queued_functions_spec_witness :
  ∃ w', @analyze_queued_functions calling_externals 3 sample_queued
        = Ok (tt, w')
        ∧ cgraph_nodes_queue w' = None
        ∧ (analyzed <$> nodes w' !! 0) = Some true
        ∧ (reachable <$> nodes w' !! 1) = Some true
        ∧ (redefined_extern_inline ∘ local <$> nodes w' !! 1) = Some true.
Proof.
  destruct (@analyze_queued_functions calling_externals 3 sample_queued)
    as [[[] w']|] eqn:Hrun; [|by vm_compute in Hrun].
  exists w'. split; [done|].
  destruct (@analyze_queued_functions_spec calling_externals)
    as (_ & _ & Hloop & _).
  destruct (Hloop 3 sample_queued w' Hrun) as [Hq _].
  split; [exact Hq|].
  vm_compute in Hrun. injection Hrun as Hw. rewrite <- Hw.
  split_and!; reflexivity.
Defined.
(** * Static constructors and destructors *)

Section cgraph_build_static_cdtor_facts.
Context `{Externals}.

Lemma bind_gets {A B} (f : world → A) (k : A → M B) w :
  bind (gets f) k w = k (f w) w.
Proof. reflexivity. Qed.

Lemma bind_modify {B} f (k : unit → M B) w :
  bind (modify f) k w = k tt (f w).
Proof. reflexivity. Qed.

Lemma bind_alloc_tree {B} x (k : tree → M B) w :
  bind (alloc_tree x) k w
  = k (fresh (dom (trees w)))
      (w <| trees ::= <[fresh (dom (trees w)) := x]> |>).
Proof. reflexivity. Qed.

Lemma bind_set_tree {B} d f (k : unit → M B) w x :
  trees w !! d = Some x →
  bind (set_tree d f) k w = k tt (w <| trees ::= <[d := f x]> |>).
Proof. intros Hx. apply bind_eq. apply set_tree_ok. eauto. Qed.

Lemma bind_set_function {B} p f (k : unit → M B) w x :
  functions w !! p = Some x →
  bind (set_function p f) k w = k tt (w <| functions ::= <[p := f x]> |>).
Proof. intros Hx. apply bind_eq. apply set_function_ok. eauto. Qed.

Lemma bind_allocate_struct_function {B} d (k : unit → M B) w x :
  trees w !! d = Some x →
  let f := fresh (dom (functions w)) in
  bind (allocate_struct_function d) k w
  = k tt (w <| functions ::=
                 <[f := {| cfg := None; unexpanded_var_list := [];
                           function_end_locus := 0 |}]> |>
            <| cfun := Some f |>
            <| trees ::= <[d := x <| DECL_STRUCT_FUNCTION := Some f |>]> |>).
Proof.
  intros Hx f. apply bind_eq. unfold allocate_struct_function.
  rewrite (bind_eq get _ w w w eq_refl). cbv zeta.
  rewrite !bind_modify. apply set_tree_ok. eauto.
Qed.

Lemma fresh_tree_ne (m : gmap nat tree_node) d x :
  m !! d = Some x → d ≠ fresh (dom m).
Proof.
  intros Hd ->. pose proof (is_fresh (dom m)) as Hfresh.
  apply Hfresh. apply elem_of_dom. eauto.
Qed.

Lemma fresh_tree_None (m : gmap nat tree_node) : m !! fresh (dom m) = None.
Proof. apply not_elem_of_dom. apply is_fresh. Qed.

Ltac look :=
  simpl;
  repeat first [ rewrite lookup_insert_eq
               | rewrite lookup_insert_ne by done ];
  reflexivity.

Ltac assign := erewrite bind_set_tree; [|look].

(** The synthesis cannot go wrong: it works on nodes it has made. *)
Lemma synthesize_cdtor_ok body name w :
  ∃ d x w',
    synthesize_cdtor body name w = Ok (d, w')
    ∧ trees w !! d = None
    ∧ trees w' !! d = Some x
    ∧ TREE_CODE x = FUNCTION_DECL
    ∧ DECL_SAVED_TREE x = Some body
    ∧ TREE_PUBLIC x = negb (have_ctors_dtors w)
    ∧ DECL_STATIC_CONSTRUCTOR x = false
    ∧ DECL_STATIC_DESTRUCTOR x = false
    ∧ current_function_decl w' = Some d
    ∧ have_ctors_dtors w' = have_ctors_dtors w
    ∧ trace w' = trace w.
Proof.
  unfold synthesize_cdtor, build_decl.
  exists (fresh (dom (trees w))).
  rewrite bind_alloc_tree.
  pose proof (fresh_tree_None (trees w)) as Hd.
  set (d := fresh (dom (trees w))) in *. clearbody d.
  rewrite bind_modify, bind_alloc_tree.
  match goal with
  | |- context [fresh (dom (trees ?w1))] =>
      pose proof (fresh_tree_ne (trees w1) d _ ltac:(look)) as Hr;
      set (r := fresh (dom (trees w1))) in *
  end.
  clearbody r. assert (r ≠ d) as Hr' by done.
  do 3 assign.
  erewrite bind_allocate_struct_function; [|look]. cbv zeta.
  match goal with
  | |- context [fresh (dom (functions ?w1))] =>
      set (f := fresh (dom (functions w1))) in *
  end.
  clearbody f.
  do 6 assign. rewrite bind_gets. do 2 assign.
  rewrite bind_alloc_tree.
  match goal with
  | |- context [fresh (dom (trees ?w1))] =>
      pose proof (fresh_tree_ne (trees w1) d _ ltac:(look)) as Hb;
      set (b := fresh (dom (trees w1))) in *
  end.
  clearbody b. assert (b ≠ d) as Hb' by done.
  do 2 assign. rewrite bind_gets. assign. rewrite bind_gets.
  simpl (cfun _). rewrite (bind_eq (deref (Some f)) _ _ f _ eq_refl).
  erewrite bind_set_function; [|look].
  eexists _, _. split; [reflexivity|].
  split; [exact Hd|]. split; [look|]. simpl. split_and!; reflexivity.
Qed.

Lemma output_cdtor_ok which d priority w w' :
  output_cdtor which d priority w = Ok (tt, w') →
  if have_ctors_dtors w
  then trace w' = trace w ++ [EvCdtor which d priority]
       ∧ ∃ w1, (if decide (which = "I"%char)
                then asm_out_constructor d priority
                else asm_out_destructor d priority)
                 (w <| trace ::= (λ t, t ++ [EvCdtor which d priority]) |>)
               = Ok (tt, w1)
  else w' = w.
Proof.
  unfold output_cdtor. intros Hrun. run.
  destruct (have_ctors_dtors w); run; [|done].
  destruct (decide _);
    match goal with
    | He : ext _ _ = Ok _ |- _ => apply ext_ok in He as (w1 & He & ->)
    end; eauto.
Qed.

(** C9.  Once [get_file_function_name_long] has answered,
    [cgraph_build_static_cdtor] makes a new declaration with the body it
    was given, public exactly when the target has no constructor
    sections.  With a discriminator other than [I] and [D] it then stops
    at [gcc_unreachable].  With [I] the declaration is marked a static
    constructor, with [D] a static destructor, and it is handed so to
    [gimplify_function_tree]; and at the end a reference of the given
    priority goes to the constructor or destructor section exactly when
    the target has such sections. *)
Theorem cgraph_build_static_cdtor_spec fuel which body priority w name w2 :
  ext (get_file_function_name_long
         (String which ("_" +:+ pretty (counter w))))
    (w <| counter ::= S |>) = Ok (name, w2) →
  ∃ d x w3,
    synthesize_cdtor body name w2 = Ok (d, w3)
    ∧ trees w2 !! d = None
    ∧ trees w3 !! d = Some x
    ∧ DECL_SAVED_TREE x = Some body
    ∧ TREE_PUBLIC x = negb (have_ctors_dtors w2)
    ∧ DECL_STATIC_CONSTRUCTOR x = false
    ∧ DECL_STATIC_DESTRUCTOR x = false
    ∧ (which ≠ "I"%char → which ≠ "D"%char →
         cgraph_build_static_cdtor fuel which body priority w
         = Err Unreachable)
    ∧ (which = "I"%char ∨ which = "D"%char →
         let x' := if decide (which = "I"%char)
                   then x <| DECL_STATIC_CONSTRUCTOR := true |>
                   else x <| DECL_STATIC_DESTRUCTOR := true |> in
         let w4 := w3 <| trees ::= <[d := x']> |> in
         mark_cdtor which d w3 = Ok (tt, w4)
         ∧ ∀ w', cgraph_build_static_cdtor fuel which body priority w
                 = Ok (tt, w') →
             ∃ w5 w6,
               ext (gimplify_function_tree d) w4 = Ok (tt, w5)
               ∧ (if cgraph_global_info_ready w5
                  then ext (tree_lowering_passes d) ;;
                       ext (tree_rest_of_compilation d)
                  else cgraph_finalize_function fuel d false) w5
                 = Ok (tt, w6)
               ∧ output_cdtor which d priority w6 = Ok (tt, w')
               ∧ if have_ctors_dtors w6
                 then trace w' = trace w6 ++ [EvCdtor which d priority]
                      ∧ ∃ w7, (if decide (which = "I"%char)
                               then asm_out_constructor d priority
                               else asm_out_destructor d priority)
                                (w6 <| trace ::=
                                         (λ t, t ++ [EvCdtor which d
                                                       priority]) |>)
                              = Ok (tt, w7)
                 else w' = w6).
Proof.
  intros Hname.
  destruct (synthesize_cdtor_ok body name w2)
    as (d & x & w3 & Hsyn & Hfresh & Hx & _ & Hbody & Hpublic & Hc & Hd & _).
  exists d, x, w3. split_and!; try done.
  - intros HI HD. unfold cgraph_build_static_cdtor.
    rewrite bind_gets, bind_modify. cbv zeta.
    rewrite (bind_eq _ _ _ _ _ Hname), (bind_eq _ _ _ _ _ Hsyn).
    unfold mark_cdtor. by rewrite !decide_False by done.
  - intros Hwhich x' w4.
    assert (mark_cdtor which d w3 = Ok (tt, w4)) as Hmark.
    { unfold mark_cdtor, w4, x'. destruct (decide (which = "I"%char)).
      - apply set_tree_ok. eauto.
      - destruct Hwhich as [?|HD]; [done|]. rewrite decide_True by done.
        apply set_tree_ok. eauto. }
    split; [done|]. intros w' Hrun.
    unfold cgraph_build_static_cdtor in Hrun.
    rewrite bind_gets, bind_modify in Hrun. cbv zeta in Hrun.
    rewrite (bind_eq _ _ _ _ _ Hname), (bind_eq _ _ _ _ _ Hsyn),
      (bind_eq _ _ _ _ _ Hmark) in Hrun.
    apply bind_ok in Hrun as ([] & w5 & Hgimplify & Hrun).
    rewrite bind_gets in Hrun.
    apply bind_ok in Hrun as ([] & w6 & Hmiddle & Hrun).
    exists w5, w6. split_and!; [done..|].
    by apply output_cdtor_ok.
Qed.

End cgraph_build_static_cdtor_facts.

(** C9, witness: on the sample state the discriminator [X] stops the
    function; [I] gives a public static constructor and no reference;
    and on a target with sections [D] gives a destructor that is not
    public, and its reference. *)
Lemma cgraph_build_static_cdtor_spec_witness :
  @cgraph_build_static_cdtor sample_externals 10 "X"%char 1 0%Z sample_world
  = Err Unreachable
  ∧ (∃ w' d x,
       @cgraph_build_static_cdtor sample_externals 10 "I"%char 1 0%Z
         sample_world = Ok (tt, w')
       ∧ trees w' !! d = Some x
       ∧ DECL_STATIC_CONSTRUCTOR x = true ∧ TREE_PUBLIC x = true
       ∧ trace w' = [])
  ∧ (∃ w' d x,
       @cgraph_build_static_cdtor sample_externals 10 "D"%char 1 5%Z
         sample_world_with_sections = Ok (tt, w')
       ∧ trees w' !! d = Some x
       ∧ DECL_STATIC_DESTRUCTOR x = true ∧ TREE_PUBLIC x = false
       ∧ trace w' = [EvCdtor "D"%char d 5%Z]).
Proof.
  split_and!.
  - destruct (@cgraph_build_static_cdtor_spec sample_externals 10 "X"%char
                1 0%Z sample_world _ _ eq_refl)
      as (d & x & w3 & _ & _ & _ & _ & _ & _ & _ & Hstop & _).
    by apply Hstop.
  - destruct (@cgraph_build_static_cdtor sample_externals 10 "I"%char 1 0%Z
                sample_world) as [[[] w']|] eqn:Hrun;
      [|by vm_compute in Hrun].
    destruct (@cgraph_build_static_cdtor_spec sample_externals 10 "I"%char
                1 0%Z sample_world _ _ eq_refl)
      as (d & x & w3 & Hsyn & _ & _ & _ & _ & _ & _ & _ & Hgo).
    destruct (Hgo ltac:(by left)) as (_ & Hok).
    destruct (Hok w' Hrun) as (w5 & w6 & _ & _ & _ & _).
    vm_compute in Hsyn. injection Hsyn as <- _.
    vm_compute in Hrun. injection Hrun as <-.
    eexists _, 8, _. split; [reflexivity|]. split; [reflexivity|].
    split_and!; reflexivity.
  - destruct (@cgraph_build_static_cdtor sample_externals 10 "D"%char 1 5%Z
                sample_world_with_sections) as [[[] w']|] eqn:Hrun;
      [|by vm_compute in Hrun].
    destruct (@cgraph_build_static_cdtor_spec sample_externals 10 "D"%char
                1 5%Z sample_world_with_sections _ _ eq_refl)
      as (d & x & w3 & Hsyn & _ & _ & _ & _ & _ & _ & _ & Hgo).
    destruct (Hgo ltac:(by right)) as (_ & Hok).
    destruct (Hok w' Hrun) as (w5 & w6 & _ & _ & _ & _).
    vm_compute in Hsyn. injection Hsyn as <- _.
    vm_compute in Hrun. injection Hrun as <-.
    eexists _, 8, _. split; [reflexivity|]. split; [reflexivity|].
    split_and!; reflexivity.
Defined.
(** * More on marking the functions to output *)

Section cgraph_mark_functions_to_output_more.

Lemma first_not_inlined_edges l : ∀ w1 w2 e,
  edges w2 = edges w1 →
  first_not_inlined l w1 = Ok (e, w1) → first_not_inlined l w2 = Ok (e, w2).
Proof.
  induction l as [|x l IH]; intros w1 w2 e He Hrun; simpl in *; run; [done|].
  match goal with
  | Hx : edges w1 !! x = Some ?y |- _ =>
      rewrite (bind_eq _ _ w2 y w2) by (apply the_edge_ok; by rewrite He);
      destruct (non_null (inline_failed y)); run; [done|]
  end.
  by eapply IH.
Qed.

(** One turn of the loop, with what the second assertion says when the
    node is left alone. *)
Lemma mark_function_to_output_turn node w w' :
  mark_function_to_output node w = Ok (tt, w') →
  ∃ n d,
    nodes w !! node = Some n ∧ trees w !! decl n = Some d
    ∧ output n = false
    ∧ (w' = w <| nodes ::= <[node := n <| output := true |>]> |>
       ∧ is_Some (DECL_SAVED_TREE d) ∧ inlined_to (global n) = None
       ∧ DECL_EXTERNAL d = false ∧ TREE_ASM_WRITTEN d = false
       ∧ (needed n = true ∨ reachable n = true)
       ∨ w' = w
         ∧ ¬ (is_Some (DECL_SAVED_TREE d) ∧ inlined_to (global n) = None
              ∧ DECL_EXTERNAL d = false)).
Proof.
  unfold mark_function_to_output. intros Hrun. run.
  match goal with
  | H : first_not_inlined _ _ = Ok _ |- _ =>
      apply first_not_inlined_same in H as ->
  end.
  run.
  match goal with
  | Hn : nodes w !! node = Some ?n, Hd : trees w !! decl ?n = Some ?d |- _ =>
      exists n, d; split; [exact Hn|]; split; [exact Hd|]
  end.
  split; [by apply negb_true_iff|].
  match goal with
  | H : (if ?c then _ else _) _ = Ok _ |- _ => destruct c eqn:Hcond
  end; run.
  - left. split; [done|].
    apply andb_prop in Hcond as [Hcond Hext].
    apply andb_prop in Hcond as [Hcond Hasm].
    apply andb_prop in Hcond as [Hcond Hneed].
    apply andb_prop in Hcond as [Hbody Hin].
    split_and!.
    + by destruct (DECL_SAVED_TREE _).
    + by destruct (inlined_to _).
    + by apply negb_true_iff.
    + by apply negb_true_iff.
    + apply orb_prop in Hneed as [?|[_ ?]%andb_prop]; eauto.
  - right. split; [done|]. intros ([body Hbody] & Hin & Hext).
    match goal with
    | Ha : orb (orb _ _) _ = true |- _ =>
        by rewrite Hbody, Hin, Hext in Ha
    end.
Qed.

Lemma cgraph_node_eq_but_output (n n' : cgraph_node) :
  but_output n' = but_output n → output n' = output n → n' = n.
Proof.
  destruct n, n'. unfold but_output. simpl. intros [= -> -> -> -> -> -> ->
    -> -> -> -> -> -> ->] ->. done.
Qed.

(** A turn that leaves the node alone does so again in any state with
    the same node, edges and trees. *)
Lemma mark_function_to_output_replay node w1 w2 :
  nodes w2 !! node = nodes w1 !! node →
  edges w2 = edges w1 → trees w2 = trees w1 →
  mark_function_to_output node w1 = Ok (tt, w1) →
  mark_function_to_output node w2 = Ok (tt, w2).
Proof.
  intros Hn He Ht. unfold mark_function_to_output. intros Hrun. run.
  match goal with
  | H : first_not_inlined _ _ = Ok (_, ?w3) |- _ =>
      pose proof (first_not_inlined_same _ _ _ _ H) as ->;
      pose proof (first_not_inlined_edges _ _ w2 _ He H) as Hfirst
  end.
  run.
  match goal with
  | Hx : nodes w1 !! node = Some ?n |- _ =>
      rewrite (bind_eq _ _ w2 n w2) by (apply the_node_ok; by rewrite Hn)
  end.
  match goal with
  | Ha : negb (output ?n) = true |- _ => rewrite Ha
  end.
  simpl. rewrite (bind_eq _ _ w2 tt w2) by done.
  rewrite (bind_eq _ _ _ _ _ Hfirst).
  match goal with
  | Hd : trees w1 !! _ = Some ?d |- _ =>
      rewrite (bind_eq _ _ w2 d w2) by (apply the_tree_ok; by rewrite Ht)
  end.
  match goal with
  | H : (if ?c then _ else _) _ = Ok _ |- _ => destruct c eqn:Hcond
  end; run.
  - exfalso.
    match goal with
    | Hw : w1 = _, Hx : nodes w1 !! node = Some ?n,
      Ha : negb (output ?n) = true |- _ =>
        apply (f_equal (λ w, output <$> nodes w !! node)) in Hw;
        simpl in Hw; rewrite lookup_insert_eq, Hx in Hw; simpl in Hw;
        injection Hw as Hw; rewrite Hw in Ha; done
    end.
  - match goal with
    | Ha : orb (orb _ _) _ = true |- _ => by rewrite Ha
    end.
Qed.

Lemma mark_functions_loop_settles l : ∀ w w',
  for_each l mark_function_to_output w = Ok (tt, w') →
  trees w' = trees w ∧ edges w' = edges w
  ∧ cgraph_nodes w' = cgraph_nodes w
  ∧ (∀ p, p ∈ l ∨ output_settled w p → output_settled w' p)
  ∧ (∀ p, p ∈ l ∨ (∀ n, nodes w !! p = Some n → output n = false →
                     mark_function_to_output p w = Ok (tt, w)) →
       ∀ n, nodes w' !! p = Some n → output n = false →
         mark_function_to_output p w' = Ok (tt, w')).
Proof.
  induction l as [|q l IH]; intros w w' Hrun.
  { simpl in Hrun. run. split_and!; try done.
    - by intros p [?%elem_of_nil|?].
    - by intros p [?%elem_of_nil|?]. }
  apply for_each_cons_ok in Hrun as (w1 & Hhead & Hrest).
  pose proof Hhead as Hturn.
  apply mark_function_to_output_turn in Hturn
    as (nq & dq & Hq & Hdq & Hout & Hcase).
  apply IH in Hrest as (Ht & He & Hl & Hsettled & Hstable).
  assert (trees w1 = trees w ∧ edges w1 = edges w
          ∧ cgraph_nodes w1 = cgraph_nodes w
          ∧ ∀ p, p ≠ q → nodes w1 !! p = nodes w !! p)
    as (Ht1 & He1 & Hl1 & Hn1).
  { destruct Hcase as [(-> & _) | (-> & _)]; split_and!; try done.
    intros p Hp. simpl. by rewrite lookup_insert_ne. }
  split_and!; try congruence.
  - intros p Hp. apply Hsettled.
    destruct (decide (p = q)) as [->|Hne].
    + right. destruct Hcase
        as [(-> & Hbody & Hin & Hext & Hasm & Hneed) | (-> & Hnot)].
      * eexists _, dq. simpl. rewrite lookup_insert_eq.
        split_and!; [done..| |]; simpl; done.
      * exists nq, dq. split_and!; [done..| |];
          rewrite Hout; [split; [done|by intros ?] | done].
    + destruct Hp as [[?|?]%elem_of_cons | (n & d & Hn & Hd & Hiff)];
        [done | by left |].
      right. exists n, d. rewrite Hn1, Ht1 by done. done.
  - intros p Hp. apply Hstable.
    destruct (decide (p = q)) as [->|Hne].
    + right. intros n Hn Houtn.
      destruct Hcase as [(-> & _) | (-> & _)]; [|done].
      simpl in Hn. rewrite lookup_insert_eq in Hn. by injection Hn as <-.
    + destruct Hp as [[?|?]%elem_of_cons | Hp]; [done | by left |].
      right. intros n Hn Houtn. rewrite Hn1 in Hn by done.
      apply (mark_function_to_output_replay p w w1);
        [by rewrite Hn1 | done | done | by apply (Hp n)].
Qed.

(** X1.  When [cgraph_mark_functions_to_output] returns, the trees, the
    edges and the chain of nodes are as they were, and every node of the
    chain has [output] set exactly when its declaration has a saved body
    and is not external and the node is not an inline clone; the body of
    such a node has not been written, and the node is needed or
    reachable.  So the function does not return when a function that
    has a body was written already, or is neither needed nor reachable. *)
Theorem cgraph_mark_functions_to_output_settles w w' :
  cgraph_mark_functions_to_output w = Ok (tt, w') →
  trees w' = trees w ∧ edges w' = edges w
  ∧ cgraph_nodes w' = cgraph_nodes w
  ∧ ∀ p, p ∈ cgraph_nodes w → output_settled w' p.
Proof.
  unfold cgraph_mark_functions_to_output. intros Hrun.
  rewrite (bind_eq _ _ w w w) in Hrun by done.
  apply mark_functions_loop_settles in Hrun as (Ht & He & Hl & Hsettled & _).
  split_and!; [done..|]. intros p Hp. apply Hsettled. by left.
Qed.

(** X2.  The marking cannot be run twice in a row: once it has set
    [output] on a node of the chain, a second run stops on the
    assertion [!node->output]. *)
Theorem cgraph_mark_functions_to_output_twice w w' p n' :
  cgraph_mark_functions_to_output w = Ok (tt, w') →
  p ∈ cgraph_nodes w → nodes w' !! p = Some n' → output n' = true →
  cgraph_mark_functions_to_output w' = Err AssertFailure.
Proof.
  unfold cgraph_mark_functions_to_output. intros Hrun Hp Hn' Hout.
  rewrite (bind_eq _ _ w w w) in Hrun by done.
  rewrite (bind_eq _ _ w' w' w') by done.
  apply mark_functions_loop_settles in Hrun
    as (_ & _ & Hl & Hsettled & Hstable).
  assert (∀ q, q ∈ cgraph_nodes w → is_Some (nodes w' !! q)) as Hthere.
  { intros q Hq. destruct (Hsettled q (or_introl Hq)) as (n & _ & Hn & _).
    eauto. }
  rewrite Hl. clear Hl Hsettled.
  revert Hp Hthere Hstable.
  generalize (cgraph_nodes w). intros l.
  induction l as [|q l IH]; intros Hp Hthere Hstable.
  { by apply elem_of_nil in Hp. }
  simpl. destruct (Hthere q) as [nq Hnq]; [by left|].
  destruct (output nq) eqn:Houtq.
  - apply bind_err. unfold mark_function_to_output.
    rewrite (bind_eq _ _ w' nq w') by by apply the_node_ok.
    by rewrite Houtq.
  - rewrite (bind_eq _ _ w' tt w').
    + apply IH.
      * apply elem_of_cons in Hp as [->|?]; [|done].
        rewrite Hn' in Hnq. injection Hnq as <-. by rewrite Hout in Houtq.
      * intros q' Hq'. apply Hthere. by right.
      * intros q' [Hq'|Hq']; apply Hstable; [left; by right | by right].
    + apply (Hstable q) with nq; [left; by left | done..].
Qed.

End cgraph_mark_functions_to_output_more.

(** X1, witness: on the sample graph [f], which has a body, is marked;
    [g], which has none, and the inline clone are not. *)
Lemma cgraph_mark_functions_to_output_settles_witness :
  ∃ w', cgraph_mark_functions_to_output sample_graph = Ok (tt, w')
        ∧ output_settled w' 0 ∧ output_settled w' 1 ∧ output_settled w' 2
        ∧ (output <$> nodes w' !! 0) = Some true
        ∧ (output <$> nodes w' !! 1) = Some false
        ∧ (output <$> nodes w' !! 2) = Some false.
Proof.
  destruct (cgraph_mark_functions_to_output sample_graph)
    as [[[] w']|] eqn:Hrun; [|by vm_compute in Hrun].
  exists w'. split; [done|].
  destruct (cgraph_mark_functions_to_output_settles _ _ Hrun)
    as (_ & _ & _ & Hall).
  split; [apply Hall; by apply (bool_decide_unpack _)|].
  split; [apply Hall; by apply (bool_decide_unpack _)|].
  split; [apply Hall; by apply (bool_decide_unpack _)|].
  vm_compute in Hrun. injection Hrun as <-. split_and!; reflexivity.
Defined.

(** X2, witness: a second marking of the sample graph stops. *)
Lemma cgraph_mark_functions_to_output_twice_witness :
  ∃ w', cgraph_mark_functions_to_output sample_graph = Ok (tt, w')
        ∧ cgraph_mark_functions_to_output w' = Err AssertFailure.
Proof.
  destruct (cgraph_mark_functions_to_output sample_graph)
    as [[[] w']|] eqn:Hrun; [|by vm_compute in Hrun].
  exists w'. split; [done|].
  assert (∃ n', nodes w' !! 0 = Some n' ∧ output n' = true)
    as (n' & Hn' & Hout).
  { vm_compute in Hrun. injection Hrun as <-. eexists. split; reflexivity. }
  apply (cgraph_mark_functions_to_output_twice sample_graph w' 0 n' Hrun);
    [by apply (bool_decide_unpack _) | done..].
Defined.
(** * Whether a function is needed *)

Section decide_is_function_needed_facts.
Context `{Externals}.

Lemma origin_is_external_ok fuel : ∀ o w b w',
  origin_is_external fuel o w = Ok (b, w') →
  w' = w ∧ (b = true ↔ enclosed_by_external w o).
Proof.
  induction fuel as [|fuel IH]; intros [o|] w b w' Hrun; simpl in Hrun; run;
    try (split; [done|]; split; [done|]; by inversion 1).
  match goal with
  | Hx : trees w !! o = Some ?x |- _ =>
      destruct (DECL_EXTERNAL x) eqn:Hext; run
  end.
  - split; [done|]. split; [|done]. intros _. by eapply enclosed_here.
  - apply IH in Hrun as [-> Hiff]. split; [done|]. rewrite Hiff. split.
    + intros ?. by eapply enclosed_further.
    + inversion 1; run; congruence.
Qed.

(** The two halves of the function: the reasons that hold in both
    modes, and, when none of them holds, the deferral. *)
Lemma decide_is_function_needed_ok node d_ w b w' n d :
  nodes w !! node = Some n → trees w !! d_ = Some d →
  decide_is_function_needed node d_ w = Ok (b, w') →
  (forced_needed w n d ∧ b = true
   ∧ w' = if MAIN_NAME_P d && TREE_PUBLIC d
          then w <| nodes ::=
                 <[node := n <| local ::=
                     (λ l, l <| externally_visible := true |>) |>]> |>
          else w)
  ∨ (¬ forced_needed w n d
     ∧ (flag_unit_at_a_time w = true → b = false ∧ w' = w)
     ∧ (flag_unit_at_a_time w = false →
        (DECL_EXTERNAL d = true ∨ DECL_COMDAT d = true
         ∨ enclosed_by_external w (DECL_CONTEXT_FN d) →
         b = false ∧ w' = w)
        ∧ (DECL_EXTERNAL d = false → DECL_COMDAT d = false →
           ¬ enclosed_by_external w (DECL_CONTEXT_FN d) →
           DECL_INLINE d = false → b = true ∧ w' = w))).
Proof.
  intros Hn Hd Hrun. unfold decide_is_function_needed in Hrun. run.
  destruct (MAIN_NAME_P d && TREE_PUBLIC d) eqn:Hmain; run.
  { left. split_and!; [|done..]. left. by apply andb_prop. }
  destruct (externally_visible (local n)) eqn:Hvisible;
    cbn [orb] in Hrun; run.
  { left. split_and!; [|done..]. right. by left. }
  destruct (lookup_attribute "used" (DECL_ATTRIBUTES d)) eqn:Hused; run.
  { left. split_and!; [|done..]. right. right. by left. }
  match goal with
  | Hr : match DECL_ASSEMBLER_NAME d with _ => _ end w = Ok (?r, ?w0) |- _ =>
      assert (w0 = w ∧ (r = true ↔ assembler_name_referenced w d))
        as [-> Href];
      [|clear Hr; destruct r; run]
  end.
  { destruct (DECL_ASSEMBLER_NAME d) as [name|] eqn:Hname; run.
    - split; [done|]. split.
      + intros Hr. eexists _, _. split_and!; done.
      + intros (name' & x & Ha & Hx & Hr). rewrite Hname in Ha.
        injection Ha as <-. by run.
    - split; [done|]. split; [done|]. intros (? & ? & Ha & _).
      by rewrite Hname in Ha. }
  { left. split_and!; [|done..]. do 3 right. left. by apply Href. }
  destruct (needed n) eqn:Hneeded; run.
  { left. split_and!; [|done..]. do 4 right. by left. }
  destruct (TREE_PUBLIC d && negb (flag_whole_program w)
            && negb (DECL_COMDAT d) && negb (DECL_EXTERNAL d)) eqn:Hpublic;
    run.
  { left. split_and!; [|done..]. do 5 right. left.
    apply andb_prop in Hpublic as [Hpublic ?%negb_true_iff].
    apply andb_prop in Hpublic as [Hpublic ?%negb_true_iff].
    apply andb_prop in Hpublic as [Hpublic ?%negb_true_iff]. done. }
  destruct (DECL_STATIC_CONSTRUCTOR d) eqn:Hctor; cbn [orb] in Hrun; run.
  { left. split_and!; [|done..]. do 6 right. by left. }
  destruct (DECL_STATIC_DESTRUCTOR d) eqn:Hdtor; run.
  { left. split_and!; [|done..]. do 7 right. done. }
  right.
  assert (¬ forced_needed w n d) as Hfree.
  { intros [[Hm Hp]
           | [? | [? | [?%Href | [? | [(Hp & Hw & Hc & He) | [?|?]]]]]]].
    - by rewrite Hm, Hp in Hmain.
    - congruence.
    - congruence.
    - done.
    - congruence.
    - by rewrite Hp, Hw, Hc, He in Hpublic.
    - congruence.
    - congruence. }
  split; [done|].
  destruct (flag_unit_at_a_time w) eqn:Hunit; run.
  { split; [done|]. by intros ?. }
  split; [by intros ?|]. intros _.
  destruct (DECL_EXTERNAL d) eqn:Hext; run.
  { split; [done|]. by intros ?. }
  match goal with
  | Ho : origin_is_external _ _ _ = Ok (?r, _) |- _ =>
      apply origin_is_external_ok in Ho as [-> Hnested]; destruct r; run
  end.
  { split; [done|]. intros _ _ Hno. destruct Hno. by apply Hnested. }
  assert (¬ enclosed_by_external w (DECL_CONTEXT_FN d)) as Hno.
  { by intros ?%Hnested. }
  destruct (DECL_COMDAT d) eqn:Hcomdat; run.
  { split; [done|]. by intros ?. }
  split.
  { intros [?|[?|?]]; done. }
  intros _ _ _ Hinline. rewrite Hinline in Hrun. by run.
Qed.

(** X3.  Whenever [decide_is_function_needed] returns, it has answered
    yes for a function that is the public [main], is externally visible,
    has the attribute [used], has a referenced assembler name, was
    needed before, is a public definition that is not COMDAT, or is a
    static constructor or destructor.  In whole-unit mode these are the
    only reasons for a yes, and nothing is changed but the
    [externally_visible] flag of the node of a public [main]. *)
Theorem decide_is_function_needed_forced node d_ w b w' n d :
  nodes w !! node = Some n → trees w !! d_ = Some d →
  decide_is_function_needed node d_ w = Ok (b, w') →
  (forced_needed w n d → b = true)
  ∧ (flag_unit_at_a_time w = true →
     (b = true ↔ forced_needed w n d)
     ∧ w' = if MAIN_NAME_P d && TREE_PUBLIC d
            then w <| nodes ::=
                   <[node := n <| local ::=
                       (λ l, l <| externally_visible := true |>) |>]> |>
            else w).
Proof.
  intros Hn Hd Hrun.
  destruct (decide_is_function_needed_ok _ _ _ _ _ _ _ Hn Hd Hrun)
    as [(Hforced & -> & ->) | (Hfree & Hunit & _)].
  - split; [done|]. intros _. split; [done|done].
  - split; [done|]. intros [-> ->]%Hunit. split; [done|].
    destruct (MAIN_NAME_P d && TREE_PUBLIC d) eqn:Hmain; [|done].
    destruct Hfree. left. by apply andb_prop.
Qed.

(** X4.  In streaming mode, [decide_is_function_needed] defers a
    function that nothing forces when it is [DECL_EXTERNAL], when it is
    COMDAT, and when one of the functions around it, at any depth, is
    [DECL_EXTERNAL]; it changes nothing then.  A function that is none of
    these and is not [DECL_INLINE] is to be emitted now. *)
Theorem decide_is_function_needed_deferred node d_ w b w' n d :
  nodes w !! node = Some n → trees w !! d_ = Some d →
  flag_unit_at_a_time w = false → ¬ forced_needed w n d →
  decide_is_function_needed node d_ w = Ok (b, w') →
  (DECL_EXTERNAL d = true ∨ DECL_COMDAT d = true
   ∨ enclosed_by_external w (DECL_CONTEXT_FN d) →
   b = false ∧ w' = w)
  ∧ (DECL_EXTERNAL d = false → DECL_COMDAT d = false →
     ¬ enclosed_by_external w (DECL_CONTEXT_FN d) →
     DECL_INLINE d = false → b = true ∧ w' = w).
Proof.
  intros Hn Hd Hstream Hfree Hrun.
  destruct (decide_is_function_needed_ok _ _ _ _ _ _ _ Hn Hd Hrun)
    as [(Hforced & _) | (_ & _ & Hdefer)]; [done|].
  by apply Hdefer.
Qed.

End decide_is_function_needed_facts.

(** X3, witness: the static constructor of the sample is needed, and in
    whole-unit mode [g], which nothing forces, is not. *)
Lemma decide_is_function_needed_forced_witness :
  @decide_is_function_needed sample_externals 5 13 sample_nested
  = Ok (true, sample_nested)
  ∧ @decide_is_function_needed sample_externals 1 8 sample_graph
    = Ok (false, sample_graph).
Proof.
  split.
  - destruct (@decide_is_function_needed sample_externals 5 13 sample_nested)
      as [[b w']|] eqn:Hrun; [|by vm_compute in Hrun].
    destruct (@decide_is_function_needed_forced sample_externals 5 13
                sample_nested b w' _ _ eq_refl eq_refl Hrun) as [Hyes _].
    rewrite Hyes by (do 6 right; by left).
    vm_compute in Hrun. by injection Hrun as _ <-.
  - destruct (@decide_is_function_needed sample_externals 1 8 sample_graph)
      as [[b w']|] eqn:Hrun; [|by vm_compute in Hrun].
    destruct (@decide_is_function_needed_forced sample_externals 1 8
                sample_graph b w' _ _ eq_refl eq_refl Hrun) as [_ Hunit].
    destruct (Hunit eq_refl) as [_ ->].
    vm_compute in Hrun. by injection Hrun as <-.
Defined.

(** X4, witness: in streaming mode neither the [extern inline] function
    of the sample nor the function nested in it is needed. *)
Lemma decide_is_function_needed_deferred_witness :
  @decide_is_function_needed sample_externals 3 11 sample_nested
  = Ok (false, sample_nested)
  ∧ @decide_is_function_needed sample_externals 4 12 sample_nested
    = Ok (false, sample_nested).
Proof.
  split.
  - destruct (@decide_is_function_needed sample_externals 3 11 sample_nested)
      as [[b w']|] eqn:Hrun; [|by vm_compute in Hrun].
    destruct (@decide_is_function_needed_deferred sample_externals 3 11
                sample_nested b w' _ _ eq_refl eq_refl eq_refl) as [Hdefer _];
      [|exact Hrun|].
    + intros [[Hm _] | [? | [Hu | [(a & x & Ha & _) | [? | [(Hp & _) | [?|?]]]]]]];
        try done; by vm_compute in Hu.
    + by destruct Hdefer as [-> ->]; [by left|].
  - destruct (@decide_is_function_needed sample_externals 4 12 sample_nested)
      as [[b w']|] eqn:Hrun; [|by vm_compute in Hrun].
    destruct (@decide_is_function_needed_deferred sample_externals 4 12
                sample_nested b w' _ _ eq_refl eq_refl eq_refl) as [Hdefer _];
      [|exact Hrun|].
    + intros [[Hm _] | [? | [Hu | [(a & x & Ha & _) | [? | [(Hp & _) | [?|?]]]]]]];
        try done; by vm_compute in Hu.
    + destruct Hdefer as [-> ->]; [|done].
      right. right. by eapply enclosed_here.
Defined.
(** * Lowering a function *)

Section cgraph_lower_function_facts.
Context `{Externals}.

(** X5.  When [cgraph_lower_function] returns, the node is marked
    lowered, and the lowering passes have run if and only if it was not:
    on a node that is lowered already nothing is done at all, so a
    second call in a row does nothing. *)
Theorem cgraph_lower_function_once node w w' :
  cgraph_lower_function node w = Ok (tt, w') →
  (∃ n', nodes w' !! node = Some n' ∧ lowered n' = true)
  ∧ (∀ n, nodes w !! node = Some n → lowered n = true → w' = w)
  ∧ (∀ n, nodes w !! node = Some n → lowered n = false →
       ∃ w1, ext (tree_lowering_passes (decl n)) w = Ok (tt, w1))
  ∧ cgraph_lower_function node w' = Ok (tt, w').
Proof.
  intros Hrun.
  assert (∃ n', nodes w' !! node = Some n' ∧ lowered n' = true)
    as (n' & Hn' & Hlowered).
  { unfold cgraph_lower_function in Hrun. run.
    match goal with
    | Hn : nodes w !! node = Some ?n |- _ => destruct (lowered n) eqn:Hl; run
    end; [eauto|].
    eexists. simpl. rewrite lookup_insert_eq. done. }
  split_and!.
  - eauto.
  - intros n Hn Hl. unfold cgraph_lower_function in Hrun. run.
    rew_run Hl. by run.
  - intros n Hn Hl. unfold cgraph_lower_function in Hrun. run.
    rew_run Hl. run. eauto.
  - unfold cgraph_lower_function.
    rewrite (bind_eq _ _ w' n' w') by by apply the_node_ok.
    by rewrite Hlowered.
Qed.

End cgraph_lower_function_facts.

(** X5, witness: lowering [f] of the sample graph, and lowering it
    again. *)
Lemma cgraph_lower_function_once_witness :
  ∃ w', @cgraph_lower_function sample_externals 0 sample_graph = Ok (tt, w')
        ∧ (lowered <$> nodes w' !! 0) = Some true
        ∧ @cgraph_lower_function sample_externals 0 w' = Ok (tt, w').
Proof.
  destruct (@cgraph_lower_function sample_externals 0 sample_graph)
    as [[[] w']|] eqn:Hrun; [|by vm_compute in Hrun].
  exists w'. split; [done|].
  destruct (@cgraph_lower_function_once sample_externals 0 sample_graph w'
              Hrun) as ((n' & Hn' & Hl) & _ & _ & Hagain).
  split; [by rewrite Hn'; simpl; rewrite Hl|done].
Defined.
(** * The reasons and the inlining predicate *)

Section cgraph_inline_p_facts.

(** X6.  Right after [initialize_inline_failed] on a node,
    [cgraph_inline_p] refuses every inbound edge of the node, with the
    reason the node's flags give ("redefined extern inline" before "not
    inlinable" before "not considered"); the nodes are untouched. *)
Theorem cgraph_inline_p_after_initialize node n w w' :
  nodes w !! node = Some n →
  initialize_inline_failed node w = Ok (tt, w') →
  nodes w' = nodes w
  ∧ ∀ e, e ∈ callers n →
      cgraph_inline_p e w' = Ok ((false, Some (seeded_reason n)), w').
Proof.
  intros Hn Hrun. unfold initialize_inline_failed in Hrun. run.
  apply (initialize_inline_failed_loop_run _ n) in Hrun
    as (Hnodes & _ & Hall); [|done].
  split; [done|]. intros e He. destruct (Hall e He) as (x' & Hx' & Hr).
  unfold cgraph_inline_p.
  rewrite (bind_eq _ _ w' x' w') by by apply the_edge_ok.
  by rewrite Hr.
Qed.

End cgraph_inline_p_facts.

(** X6, witness: [g] of the sample graph has one inbound edge, which is
    refused as "not inlinable". *)
Lemma cgraph_inline_p_after_initialize_witness :
  ∃ w', initialize_inline_failed 1 sample_graph = Ok (tt, w')
        ∧ cgraph_inline_p 0 w' = Ok ((false, Some reason_not_inlinable), w').
Proof.
  destruct (initialize_inline_failed 1 sample_graph) as [[[] w']|] eqn:Hrun;
    [|by vm_compute in Hrun].
  exists w'. split; [done|].
  destruct (cgraph_inline_p_after_initialize 1 _ sample_graph w' eq_refl Hrun)
    as [_ Hall].
  apply (Hall 0). by apply (bool_decide_unpack _).
Defined.
(** * The pending variables *)

Section cgraph_varpool_analyze_pending_decls_facts.
Context `{Externals}.

Lemma varpool_analyze_loop_ok fuel : ∀ changed w b w',
  varpool_analyze_loop fuel changed w = Ok (b, w') →
  cgraph_varpool_first_unanalyzed_node w' = None
  ∧ (b = true ↔
     changed = true ∨ cgraph_varpool_first_unanalyzed_node w ≠ None)
  ∧ (cgraph_varpool_first_unanalyzed_node w = None → w' = w).
Proof.
  induction fuel as [|fuel IH]; intros changed w b w' Hrun;
    simpl in Hrun; run;
    destruct (cgraph_varpool_first_unanalyzed_node w) as [p|] eqn:Hp; run;
    try (split_and!; [done | naive_solver | done]).
  match goal with
  | Hloop : varpool_analyze_loop _ _ _ = Ok _ |- _ =>
      apply IH in Hloop as (Hend & Hb & _)
  end.
  split_and!; [done | | done]. rewrite Hb.
  split; intros _; [by right | by left].
Qed.

(** X7.  When [cgraph_varpool_analyze_pending_decls] returns, no variable
    is pending analysis any more; it answers true exactly when one was
    pending on entry, and when none was it has changed nothing. *)
Theorem cgraph_varpool_analyze_pending_decls_drains fuel w b w' :
  cgraph_varpool_analyze_pending_decls fuel w = Ok (b, w') →
  cgraph_varpool_first_unanalyzed_node w' = None
  ∧ (b = true ↔ cgraph_varpool_first_unanalyzed_node w ≠ None)
  ∧ (cgraph_varpool_first_unanalyzed_node w = None → w' = w).
Proof.
  unfold cgraph_varpool_analyze_pending_decls.
  intros (Hend & Hb & Hsame)%varpool_analyze_loop_ok.
  split_and!; [done | | done]. rewrite Hb. naive_solver.
Qed.

Lemma pending_chain_same w1 w2 l : ∀ start,
  (∀ p, p ∈ l → v_next_needed <$> vnodes w2 !! p
                = v_next_needed <$> vnodes w1 !! p) →
  pending_chain w1 start l → pending_chain w2 start l.
Proof.
  induction l as [|p l IH]; intros start Hsame; simpl; [done|].
  intros (-> & v & Hv & Hrest). split; [done|].
  pose proof (Hsame p ltac:(by left)) as Hp. rewrite Hv in Hp.
  destruct (vnodes w2 !! p) as [v2|] eqn:Hv2; [|done].
  injection Hp as Hp. exists v2. split; [done|]. rewrite Hp.
  apply IH; [|done]. intros q Hq. apply Hsame. by right.
Qed.

Lemma varpool_analyze_loop_uninitialized l : ∀ fuel changed w,
  pending_chain w (cgraph_varpool_first_unanalyzed_node w) l →
  NoDup l → (∀ p, p ∈ l → uninitialized w p) →
  length l ≤ fuel →
  ∃ w', varpool_analyze_loop fuel changed w
        = Ok (changed || bool_decide (l ≠ []), w')
        ∧ cgraph_varpool_first_unanalyzed_node w' = None
        ∧ trees w' = trees w ∧ nodes w' = nodes w ∧ edges w' = edges w
        ∧ (∀ p, p ∈ l →
             vnodes w' !! p
             = (λ v, v <| v_analyzed := true |>) <$> vnodes w !! p)
        ∧ (∀ p, p ∉ l → vnodes w' !! p = vnodes w !! p).
Proof.
  induction l as [|p l IH]; intros fuel changed w Hchain Hnodup Hfree Hfuel.
  { simpl in Hchain. exists w.
    assert (varpool_analyze_loop fuel changed w = Ok (changed, w)) as ->.
    { destruct fuel; simpl; unfold bind, get; by rewrite Hchain. }
    rewrite orb_false_r. split_and!; try done.
    by intros p ?%elem_of_nil. }
  destruct fuel as [|fuel]; [simpl in Hfuel; lia|].
  destruct Hchain as (Hstart & v & Hv & Hrest).
  apply NoDup_cons in Hnodup as [Hp Hnodup].
  destruct (Hfree p ltac:(by left)) as (v0 & d & Hv0 & Hd & Hinit).
  rewrite Hv in Hv0. injection Hv0 as <-.
  set (w1 := w <| vnodes ::= <[p := v <| v_analyzed := true |>]> |>
               <| cgraph_varpool_first_unanalyzed_node := v_next_needed v |>).
  assert (varpool_analyze_loop (S fuel) changed w
          = varpool_analyze_loop fuel true w1) as ->.
  { simpl. rewrite (bind_eq _ _ w w w) by done. rewrite Hstart.
    rewrite (bind_eq _ _ w v w) by by apply the_vnode_ok.
    rewrite (bind_eq _ _ w tt
               (w <| vnodes ::= <[p := v <| v_analyzed := true |>]> |>))
      by (apply set_vnode_ok; eauto).
    rewrite (bind_eq _ _ _ (v <| v_analyzed := true |>) _)
      by (apply the_vnode_ok; simpl; by rewrite lookup_insert_eq).
    rewrite (bind_eq _ _ _ tt w1) by done.
    rewrite (bind_eq _ _ w1 d w1) by by apply the_tree_ok.
    rewrite Hinit. simpl. by rewrite (bind_eq _ _ w1 tt w1). }
  destruct (IH fuel true w1) as (w' & Hrun & Hend & Ht & Hn & He & Hin & Hout).
  { simpl. apply (pending_chain_same w); [|done].
    intros q Hq. simpl. rewrite lookup_insert_ne; [done|]. by intros ->. }
  { done. }
  { intros q Hq. destruct (Hfree q ltac:(by right)) as (vq & dq & ? & ? & ?).
    exists vq, dq. split_and!; [|done..]. simpl.
    rewrite lookup_insert_ne; [done|]. by intros ->. }
  { simpl in Hfuel. lia. }
  exists w'. rewrite Hrun. simpl.
  rewrite orb_true_r. split_and!; try done.
  - intros q [->|Hq]%elem_of_cons.
    + rewrite Hout by done. simpl. by rewrite lookup_insert_eq, Hv.
    + rewrite Hin by done. simpl. rewrite lookup_insert_ne; [done|].
      by intros ->.
  - intros q [Hne Hq]%not_elem_of_cons. rewrite Hout by done. simpl.
    by rewrite lookup_insert_ne.
Qed.

(** X8.  On a finite chain of pending variables without repetition whose
    declarations have no initializer, [cgraph_varpool_analyze_pending_decls]
    returns, whatever the length of the chain: it has marked the
    variables of the chain analyzed, has changed no other variable, no
    tree and nothing of the callgraph, and answers whether the chain had
    a variable. *)
Theorem cgraph_varpool_analyze_pending_decls_uninitialized l fuel w :
  pending_chain w (cgraph_varpool_first_unanalyzed_node w) l →
  NoDup l → (∀ p, p ∈ l → uninitialized w p) →
  length l ≤ fuel →
  ∃ w', cgraph_varpool_analyze_pending_decls fuel w
        = Ok (bool_decide (l ≠ []), w')
        ∧ cgraph_varpool_first_unanalyzed_node w' = None
        ∧ trees w' = trees w ∧ nodes w' = nodes w ∧ edges w' = edges w
        ∧ (∀ p, p ∈ l →
             vnodes w' !! p
             = (λ v, v <| v_analyzed := true |>) <$> vnodes w !! p)
        ∧ (∀ p, p ∉ l → vnodes w' !! p = vnodes w !! p).
Proof.
  intros Hchain Hnodup Hfree Hfuel.
  exact (varpool_analyze_loop_uninitialized l fuel false w Hchain Hnodup
           Hfree Hfuel).
Qed.

End cgraph_varpool_analyze_pending_decls_facts.

(** X7, witness: two variables pending. *)
Lemma cgraph_varpool_analyze_pending_decls_drains_witness :
  ∃ w', @cgraph_varpool_analyze_pending_decls sample_externals 2
          sample_pending_variables = Ok (true, w')
        ∧ cgraph_varpool_first_unanalyzed_node w' = None.
Proof.
  destruct (@cgraph_varpool_analyze_pending_decls sample_externals 2
              sample_pending_variables) as [[b w']|] eqn:Hrun;
    [|by vm_compute in Hrun].
  destruct (@cgraph_varpool_analyze_pending_decls_drains sample_externals 2
              sample_pending_variables b w' Hrun) as (Hend & Hb & _).
  exists w'. split; [|done]. f_equal. f_equal. by apply Hb.
Defined.

(** X8, witness: the two pending variables of the sample have no
    initializer; both end analyzed. *)
Lemma cgraph_varpool_analyze_pending_decls_uninitialized_witness :
  ∃ w', @cgraph_varpool_analyze_pending_decls sample_externals 2
          sample_pending_variables = Ok (true, w')
        ∧ (v_analyzed <$> vnodes w' !! 0) = Some true
        ∧ (v_analyzed <$> vnodes w' !! 1) = Some true.
Proof.
  destruct (@cgraph_varpool_analyze_pending_decls_uninitialized
              sample_externals [0; 1] 2 sample_pending_variables)
    as (w' & Hrun & _ & _ & _ & _ & Hin & _).
  - simpl. split; [done|]. eexists. split; [reflexivity|].
    simpl. split; [done|]. eexists. split; [reflexivity|]. done.
  - by apply (bool_decide_unpack _).
  - intros p [->|[->|?%elem_of_nil]%elem_of_cons]%elem_of_cons; [| |done];
      eexists _, _; split_and!; reflexivity.
  - simpl. lia.
  - exists w'. split; [exact Hrun|].
    rewrite !Hin by by apply (bool_decide_unpack _). done.
Defined.
(** * Visibility of the functions and variables *)

Section visibility_facts.
Context `{Ipa}.

Lemma made_private_refl w : made_private w w.
Proof. intros t. split; [done|]. intros x Hx. exists x. done. Qed.

Lemma made_private_trans w1 w2 w3 :
  made_private w1 w2 → made_private w2 w3 → made_private w1 w3.
Proof.
  intros H12 H23 t. destruct (H12 t) as [Hnone12 Hsome12].
  destruct (H23 t) as [Hnone23 Hsome23]. split; [eauto|].
  intros x Hx. destruct (Hsome12 x Hx) as (x2 & Hx2 & Heq2 & Hpub2).
  destruct (Hsome23 x2 Hx2) as (x3 & Hx3 & Heq3 & Hpub3).
  exists x3. split_and!; [done | congruence | eauto].
Qed.

Lemma made_private_clear w t x :
  trees w !! t = Some x →
  made_private w (w <| trees ::= <[t := x <| TREE_PUBLIC := false |>]> |>).
Proof.
  intros Hx t'. simpl. destruct (decide (t = t')) as [<-|Hne].
  - rewrite lookup_insert_eq. split; [by rewrite Hx|].
    intros x' Hx'. rewrite Hx in Hx'. injection Hx' as <-.
    eexists. split_and!; done.
  - rewrite lookup_insert_ne by done. split; [done|]. intros x' Hx'.
    exists x'. done.
Qed.

Lemma made_private_fields w w' t x x' :
  made_private w w' → trees w !! t = Some x → trees w' !! t = Some x' →
  DECL_EXTERNAL x' = DECL_EXTERNAL x ∧ DECL_COMDAT x' = DECL_COMDAT x
  ∧ TREE_STATIC x' = TREE_STATIC x
  ∧ (TREE_PUBLIC x' = true → TREE_PUBLIC x = true).
Proof.
  intros Hp Hx Hx'. destruct (Hp t) as [_ Hsome].
  destruct (Hsome x Hx) as (x2 & Hx2 & Heq & Hpub).
  rewrite Hx' in Hx2. injection Hx2 as <-.
  split_and!; [| | |done].
  - exact (f_equal DECL_EXTERNAL Heq).
  - exact (f_equal DECL_COMDAT Heq).
  - exact (f_equal TREE_STATIC Heq).
Qed.

(** One turn of the loop over the functions. *)
Lemma function_visibility_ok node w w' :
  function_visibility node w = Ok (tt, w') →
  ∃ n n',
    nodes w !! node = Some n ∧ nodes w' !! node = Some n'
    ∧ but_visibility n' = but_visibility n
    ∧ (∀ p, p ≠ node → nodes w' !! p = nodes w !! p)
    ∧ made_private w w'
    ∧ but_nodes_and_trees w' = but_nodes_and_trees w
    ∧ (flag_whole_program w = false → trees w' = trees w)
    ∧ (externally_visible (local n') = true →
       externally_visible (local n) = true ∨ exported_function w n)
    ∧ visibility_settled w' node.
Proof.
  unfold function_visibility. intros Hrun. run.
  match goal with
  | Hn : nodes w !! node = Some ?n0,
    H1 : _ w = Ok (?a0, ?w1),
    H2 : when ?a0 _ ?w1 = Ok (_, ?w2),
    Hn2 : nodes ?w2 !! node = Some ?n2,
    H3 : _ ?w2 = Ok (?a3, ?w4),
    H4 : when ?a3 _ ?w4 = Ok (_, ?w5),
    Hn5 : nodes ?w5 !! node = Some ?n5,
    H5 : _ ?w5 = Ok (?a6, ?w7),
    Hn7 : nodes ?w7 !! node = Some ?n7 |- _ =>
      rename n0 into n; rename a0 into exported; rename w1 into wa;
      rename w2 into wb; rename n2 into nb; rename a3 into hidden;
      rename w4 into wc; rename w5 into wd; rename n5 into nd_;
      rename a6 into loc; rename w7 into we; rename n7 into ne;
      rename Hn into Hn0; rename H1 into Hexported; rename H2 into Hset;
      rename Hn2 into Hnb; rename H3 into Hhidden; rename H4 into Hclear;
      rename Hn5 into Hnd; rename H5 into Hloc; rename Hn7 into Hne
  end.
  (* the first test *)
  assert (wa = w ∧ (exported = true → exported_function w n))
    as [-> Hwhy].
  { destruct (reachable n) eqn:Hreach; run; [|done].
    match goal with
    | Hd : trees w !! decl n = Some ?d |- _ =>
        destruct (DECL_COMDAT d) eqn:Hcomdat; run
    end.
    - split; [done|]. intros _. split; [done|]. eauto.
    - split; [done|]. intros Hyes. split; [done|].
      apply andb_prop in Hyes as [Hyes ?%negb_true_iff].
      apply andb_prop in Hyes as [?%negb_true_iff ?]. eauto 10. }
  assert (nodes wb !! node
          = Some (if exported
                  then n <| local ::=
                         (λ l, l <| externally_visible := true |>) |>
                  else n)
          ∧ (∀ p, p ≠ node → nodes wb !! p = nodes w !! p)
          ∧ trees wb = trees w
          ∧ but_nodes_and_trees wb = but_nodes_and_trees w)
    as (Hnb' & Hothers_b & Htrees_b & Hframe_b).
  { destruct exported; run; [|done]. simpl.
    rewrite lookup_insert_eq. split_and!; [done| |done..].
    intros p Hp. by rewrite lookup_insert_ne. }
  rewrite Hnb in Hnb'. injection Hnb' as Hnb'. clear Hset.
  (* the second test *)
  assert (wc = wb
          ∧ (hidden = true →
             externally_visible (local nb) = false ∧ analyzed nb = true
             ∧ ∃ d, trees wb !! decl nb = Some d ∧ DECL_EXTERNAL d = false)
          ∧ (hidden = false →
             externally_visible (local nb) = true ∨ analyzed nb = false
             ∨ ∃ d, trees wb !! decl nb = Some d ∧ DECL_EXTERNAL d = true))
    as (-> & Hhid_yes & Hhid_no).
  { destruct (externally_visible (local nb)) eqn:Hev; cbn [negb andb] in *;
      run; [split_and!; [done | done | by left]|].
    destruct (analyzed nb) eqn:Han; run;
      [|split_and!; [done | done | right; by left]].
    match goal with
    | Hd : trees wb !! decl nb = Some ?d |- _ =>
        destruct (DECL_EXTERNAL d) eqn:Hext
    end; simpl; split_and!; try done; eauto 10. }
  clear Hhidden.
  assert (nodes wd = nodes wb ∧ made_private wb wd
          ∧ but_nodes_and_trees wd = but_nodes_and_trees wb
          ∧ (flag_whole_program wb = false → trees wd = trees wb)
          ∧ (hidden = true →
             ∃ d, trees wd !! decl nb = Some d ∧ TREE_PUBLIC d = false))
    as (Hnodes_d & Hprivate & Hframe_d & Hchecked & Hcleared).
  { destruct hidden; run.
    - split_and!; [done | by apply made_private_clear | done | |].
      + intros Hwhole. simpl.
        match goal with
        | Ha : orb _ _ = true |- _ => rewrite Hwhole in Ha; simpl in Ha;
            apply negb_true_iff in Ha
        end.
        apply insert_id.
        match goal with
        | Hd : trees wb !! _ = Some ?d |- _ => rewrite Hd; f_equal;
            destruct d; simpl in *; by subst
        end.
      + intros _. eexists. simpl. rewrite lookup_insert_eq. done.
    - split_and!; [done | apply made_private_refl | done | done | done]. }
  clear Hclear.
  rewrite Hnodes_d, Hnb in Hnd. injection Hnd as <-.
  (* the third test *)
  assert (we = wd
          ∧ (loc = true →
             needed nb = false ∧ analyzed nb = true
             ∧ externally_visible (local nb) = false
             ∧ ∃ d, trees wd !! decl nb = Some d ∧ DECL_EXTERNAL d = false)
          ∧ (loc = false →
             needed nb = true ∨ analyzed nb = false
             ∨ externally_visible (local nb) = true
             ∨ ∃ d, trees wd !! decl nb = Some d ∧ DECL_EXTERNAL d = true))
    as (-> & Hloc_yes & Hloc_no).
  { destruct (needed nb) eqn:Hneeded; cbn [negb andb] in *; run;
      [split_and!; [done | done | by left]|].
    destruct (analyzed nb) eqn:Han; run;
      [|split_and!; [done | done | right; by left]].
    match goal with
    | Hd : trees wd !! decl nb = Some ?d |- _ =>
        destruct (DECL_EXTERNAL d) eqn:Hext,
          (externally_visible (local nb)) eqn:Hev
    end; simpl; split_and!; try done; eauto 10. }
  clear Hloc.
  rewrite Hnodes_d, Hnb in Hne. injection Hne as <-.
  exists n, (nb <| local ::= (λ l, l <| is_local := loc |>) |>).
  simpl. rewrite lookup_insert_eq.
  assert (made_private w wd) as Hprivate'.
  { intros t. destruct (Hprivate t) as [Hnone Hsome].
    rewrite Htrees_b in Hnone, Hsome. done. }
  split_and!; try done.
  - rewrite Hnb'. by destruct exported.
  - intros p Hp. rewrite lookup_insert_ne by done.
    rewrite Hnodes_d. by apply Hothers_b.
  - rewrite <- Hframe_b, <- Hframe_d. done.
  - intros Hwhole. rewrite <- Htrees_b. apply Hchecked.
    pose proof (f_equal flag_whole_program Hframe_b) as Hsame.
    simpl in Hsame. congruence.
  - rewrite Hnb'. destruct exported; [right; by apply Hwhy | by left].
  - eexists. simpl. rewrite lookup_insert_eq. split; [done|]. simpl.
    split_and!.
    + intros Hl. destruct (Hloc_yes Hl) as (? & Han & Hev & d & Hd & Hext).
      split_and!; [done..|]. exists d. split_and!; [done..|].
      destruct hidden.
      * destruct (Hcleared eq_refl) as (d' & Hd' & ?). congruence.
      * destruct (Hhid_no eq_refl) as [?|[?|(d' & Hd' & Hext')]];
          [congruence..|].
        destruct (Hprivate (decl nb)) as [_ Hsome].
        destruct (Hsome d' Hd') as (d2 & Hd2 & Heq & _).
        rewrite Hd in Hd2. injection Hd2 as <-.
        pose proof (f_equal DECL_EXTERNAL Heq) as Hsame. simpl in Hsame.
        congruence.
    + done.
    + intros Han Hev. destruct hidden.
      * destruct (Hcleared eq_refl) as (d' & Hd' & ?). eauto.
      * destruct (Hhid_no eq_refl) as [?|[?|(d' & Hd' & Hext')]];
          [congruence..|].
        destruct (Hprivate (decl nb)) as [_ Hsome].
        destruct (Hsome d' Hd') as (d2 & Hd2 & Heq & _).
        exists d2. split; [done|]. left.
        pose proof (f_equal DECL_EXTERNAL Heq) as Hsame. simpl in Hsame.
        congruence.
Qed.

Lemma visibility_settled_keep w w' p :
  nodes w' !! p = nodes w !! p → made_private w w' →
  visibility_settled w p → visibility_settled w' p.
Proof.
  intros Hn Hp (n & Hn0 & Hlocal & Hother & Hhidden).
  exists n. rewrite Hn. split; [done|].
  assert (∀ d, trees w !! decl n = Some d →
            ∃ d', trees w' !! decl n = Some d'
                  ∧ DECL_EXTERNAL d' = DECL_EXTERNAL d
                  ∧ (TREE_PUBLIC d = false → TREE_PUBLIC d' = false))
    as Hback.
  { intros d Hd. destruct (Hp (decl n)) as [_ Hsome].
    destruct (Hsome d Hd) as (d' & Hd' & Heq & Hpub).
    exists d'. split_and!; [done| |].
    - exact (f_equal DECL_EXTERNAL Heq).
    - intros Hno. destruct (TREE_PUBLIC d') eqn:Hyes; [|done].
      rewrite Hpub in Hno; done. }
  split_and!.
  - intros Hl. destruct (Hlocal Hl) as (? & ? & ? & d & Hd & Hext & Hpub).
    split_and!; [done..|]. destruct (Hback d Hd) as (d' & ? & Hsame & Hkeep).
    exists d'. split_and!; [done | congruence | eauto].
  - intros Hl. destruct (Hother Hl) as [?|[?|[?|(d & Hd & Hext)]]]; eauto.
    destruct (Hback d Hd) as (d' & ? & Hsame & _). do 3 right.
    exists d'. split; [done|congruence].
  - intros Han Hev. destruct (Hhidden Han Hev) as (d & Hd & Hcase).
    destruct (Hback d Hd) as (d' & ? & Hsame & Hkeep).
    exists d'. split; [done|]. destruct Hcase; [left; congruence | eauto].
Qed.

Lemma exported_function_back w w' n n' :
  made_private w w' → flag_whole_program w' = flag_whole_program w →
  but_visibility n' = but_visibility n →
  exported_function w' n' → exported_function w n.
Proof.
  intros Hp Hwhole Hn (Hreach & d' & Hd' & Hcase).
  pose proof (f_equal reachable Hn) as Hr. simpl in Hr.
  pose proof (f_equal decl Hn) as Hdecl. simpl in Hdecl.
  split; [congruence|]. rewrite Hdecl in Hd'.
  destruct (trees w !! decl n) as [d|] eqn:Hd.
  - destruct (made_private_fields _ _ _ _ _ Hp Hd Hd')
      as (Hext & Hcomdat & _ & Hpub).
    exists d. split; [done|].
    destruct Hcase as [?|(? & ? & ?)]; [left; congruence|].
    right. split_and!; [congruence | eauto | congruence].
  - destruct (Hp (decl n)) as [Hnone _]. rewrite Hnone in Hd'; done.
Qed.

(** The loop over the functions. *)
Lemma functions_visibility_ok l : ∀ w w',
  for_each l function_visibility w = Ok (tt, w') →
  (∀ p, but_visibility <$> nodes w' !! p = but_visibility <$> nodes w !! p)
  ∧ made_private w w'
  ∧ but_nodes_and_trees w' = but_nodes_and_trees w
  ∧ (flag_whole_program w = false → trees w' = trees w)
  ∧ (∀ p n', nodes w' !! p = Some n' →
       externally_visible (local n') = true →
       ∃ n, nodes w !! p = Some n
            ∧ (externally_visible (local n) = true ∨ exported_function w n))
  ∧ (∀ p, p ∈ l ∨ visibility_settled w p → visibility_settled w' p).
Proof.
  induction l as [|q l IH]; intros w w' Hrun.
  { simpl in Hrun. run. split_and!; try done.
    - apply made_private_refl.
    - eauto.
    - by intros p [?%elem_of_nil|?]. }
  apply for_each_cons_ok in Hrun as (w1 & Hhead & Hrest).
  apply function_visibility_ok in Hhead
    as (n & n1 & Hn & Hn1 & Hsame & Hothers & Hp1 & Hf1 & Hc1 & Hev1 & Hs1).
  apply IH in Hrest as (Hbut & Hp & Hf & Hc & Hev & Hs).
  pose proof (f_equal flag_whole_program Hf1) as Hwhole1. simpl in Hwhole1.
  assert (∀ p, but_visibility <$> nodes w1 !! p
               = but_visibility <$> nodes w !! p) as Hbut1.
  { intros p. destruct (decide (p = q)) as [->|Hne].
    - rewrite Hn, Hn1. simpl. by rewrite Hsame.
    - by rewrite Hothers. }
  split_and!.
  - intros p. by rewrite Hbut, Hbut1.
  - by eapply made_private_trans.
  - by rewrite Hf.
  - intros Hwhole. rewrite Hc by congruence. by apply Hc1.
  - intros p n' Hn' Hvis. destruct (Hev p n' Hn' Hvis) as (m1 & Hm1 & Hcase).
    pose proof (Hbut1 p) as Hbp. rewrite Hm1 in Hbp.
    destruct (nodes w !! p) as [m|] eqn:Hm; [|done].
    simpl in Hbp. apply (inj Some) in Hbp. exists m. split; [done|].
    assert (exported_function w1 m1 → exported_function w m) as Hback
      by by apply exported_function_back.
    destruct Hcase as [Hvis1|?]; [|right; by apply Hback].
    destruct (decide (p = q)) as [->|Hne].
    + rewrite Hn in Hm. injection Hm as <-.
      rewrite Hn1 in Hm1. injection Hm1 as <-. by apply Hev1.
    + rewrite Hothers, Hm in Hm1 by done. injection Hm1 as <-. by left.
  - intros p Hcase. apply Hs. destruct (decide (p = q)) as [->|Hne].
    + by right.
    + destruct Hcase as [[?|?]%elem_of_cons | Hsettled];
        [done | by left |].
      right. apply (visibility_settled_keep w); [by apply Hothers|done..].
Qed.

(** One turn of the loop over the variables. *)
Lemma variable_visibility_ok vnode w w' :
  variable_visibility vnode w = Ok (tt, w') →
  ∃ v v',
    vnodes w !! vnode = Some v ∧ vnodes w' !! vnode = Some v'
    ∧ v' <| v_externally_visible := false |>
      = v <| v_externally_visible := false |>
    ∧ (∀ p, p ≠ vnode → vnodes w' !! p = vnodes w !! p)
    ∧ made_private w w'
    ∧ but_vnodes_and_trees w' = but_vnodes_and_trees w
    ∧ (flag_whole_program w = false → trees w' = trees w)
    ∧ (v_externally_visible v' = true →
       v_externally_visible v = true ∨ exported_variable w v)
    ∧ variable_settled w' vnode.
Proof.
  unfold variable_visibility. intros Hrun. run.
  match goal with
  | Hv : vnodes w !! vnode = Some ?v0,
    H1 : _ w = Ok (?a0, ?w1),
    H2 : when ?a0 _ ?w1 = Ok (_, ?w2),
    Hv2 : vnodes ?w2 !! vnode = Some ?v2,
    H4 : when _ _ ?w2 = Ok (_, ?w5),
    Hv5 : vnodes ?w5 !! vnode = Some ?v5,
    Hd5 : trees ?w5 !! _ = Some ?d5 |- _ =>
      rename v0 into v; rename a0 into exported; rename w1 into wa;
      rename w2 into wb; rename v2 into vb; rename w5 into wd;
      rename v5 into vd; rename d5 into dd;
      rename Hv into Hv0; rename H1 into Hexported; rename H2 into Hset;
      rename Hv2 into Hvb; rename H4 into Hclear; rename Hv5 into Hvd;
      rename Hd5 into Hdd
  end.
  assert (wa = w ∧ (exported = true → exported_variable w v)) as [-> Hwhy].
  { destruct (v_needed v) eqn:Hneeded; cbn [andb] in *; run; [|done].
    destruct (flag_whole_program w) eqn:Hwhole; cbn [negb] in *; run;
      [done|].
    split; [done|]. intros Hyes. split_and!; [done..|].
    eexists. split; [done|]. by apply orb_prop in Hyes. }
  assert (vnodes wb !! vnode
          = Some (if exported then v <| v_externally_visible := true |>
                  else v)
          ∧ (∀ p, p ≠ vnode → vnodes wb !! p = vnodes w !! p)
          ∧ trees wb = trees w
          ∧ but_vnodes_and_trees wb = but_vnodes_and_trees w)
    as (Hvb' & Hothers_b & Htrees_b & Hframe_b).
  { destruct exported; run; [|done]. simpl.
    rewrite lookup_insert_eq. split_and!; [done| |done..].
    intros p Hp. by rewrite lookup_insert_ne. }
  rewrite Hvb in Hvb'. injection Hvb' as Hvb'. clear Hset Hexported.
  assert (vnodes wd = vnodes wb ∧ made_private wb wd
          ∧ but_vnodes_and_trees wd = but_vnodes_and_trees wb
          ∧ (flag_whole_program wb = false → trees wd = trees wb)
          ∧ (v_externally_visible vb = false →
             ∃ d, trees wd !! v_decl vb = Some d ∧ TREE_PUBLIC d = false))
    as (Hvnodes_d & Hprivate & Hframe_d & Hchecked & Hcleared).
  { destruct (v_externally_visible vb) eqn:Hev; cbn [negb] in *; run.
    - split_and!; [done | apply made_private_refl | done | done | done].
    - split_and!; [done | by apply made_private_clear | done | |].
      + intros Hwhole. simpl.
        match goal with
        | Ha : orb _ _ = true |- _ => rewrite Hwhole in Ha; simpl in Ha;
            apply negb_true_iff in Ha
        end.
        apply insert_id.
        match goal with
        | Hd : trees wb !! _ = Some ?d |- _ => rewrite Hd; f_equal;
            destruct d; simpl in *; by subst
        end.
      + intros _. eexists. simpl. rewrite lookup_insert_eq. done. }
  clear Hclear.
  rewrite Hvnodes_d, Hvb in Hvd. injection Hvd as <-.
  exists v, vb. rewrite Hvnodes_d.
  assert (made_private w wd) as Hprivate'.
  { intros t. destruct (Hprivate t) as [Hnone Hsome].
    rewrite Htrees_b in Hnone, Hsome. done. }
  split_and!; try done.
  - rewrite Hvb'. by destruct exported.
  - by rewrite <- Hframe_b, <- Hframe_d.
  - intros Hwhole. rewrite <- Htrees_b. apply Hchecked.
    pose proof (f_equal flag_whole_program Hframe_b) as Hsame.
    simpl in Hsame. congruence.
  - rewrite Hvb'. destruct exported; [right; by apply Hwhy | by left].
  - exists vb, dd. rewrite Hvnodes_d. split_and!; [done..| |].
    + match goal with
      | Ha : TREE_STATIC dd = true |- _ => exact Ha
      end.
    + intros Hev. destruct (Hcleared Hev) as (d & Hd & ?). congruence.
Qed.

Lemma variable_settled_keep w w' p :
  vnodes w' !! p = vnodes w !! p → made_private w w' →
  variable_settled w p → variable_settled w' p.
Proof.
  intros Hv Hp (v & d & Hv0 & Hd & Hstatic & Hpub).
  destruct (Hp (v_decl v)) as [_ Hsome].
  destruct (Hsome d Hd) as (d' & Hd' & Heq & Hpub').
  exists v, d'. rewrite Hv. split_and!; [done..| |].
  - pose proof (f_equal TREE_STATIC Heq) as Hsame. simpl in Hsame.
    congruence.
  - intros Hev. destruct (TREE_PUBLIC d') eqn:Hyes; [|done].
    rewrite Hpub' in Hpub; [|done]. by apply Hpub.
Qed.

Lemma on_variable_queue_same w w' start p :
  (∀ q, v_next_needed <$> vnodes w' !! q = v_next_needed <$> vnodes w !! q) →
  on_variable_queue w start p → on_variable_queue w' start p.
Proof.
  intros Hsame. induction 1 as [p | q v p Hq _ IH]; [constructor|].
  pose proof (Hsame q) as Hq'. rewrite Hq in Hq'.
  destruct (vnodes w' !! q) as [v'|] eqn:Hv'; [|done].
  simpl in Hq'. apply (inj Some) in Hq'.
  apply (on_variable_queue_next _ q v'); [done|]. by rewrite Hq'.
Qed.

Lemma exported_variable_back w w' v v' :
  made_private w w' → flag_whole_program w' = flag_whole_program w →
  v' <| v_externally_visible := false |>
  = v <| v_externally_visible := false |> →
  exported_variable w' v' → exported_variable w v.
Proof.
  intros Hp Hwhole Hv (Hneeded & Hw & d' & Hd' & Hcase).
  pose proof (f_equal v_needed Hv) as Hn. simpl in Hn.
  pose proof (f_equal v_decl Hv) as Hdecl. simpl in Hdecl.
  split_and!; [congruence..|]. rewrite Hdecl in Hd'.
  destruct (trees w !! v_decl v) as [d|] eqn:Hd.
  - destruct (made_private_fields _ _ _ _ _ Hp Hd Hd')
      as (_ & Hcomdat & _ & Hpub).
    exists d. split; [done|].
    destruct Hcase; [left; congruence | right; eauto].
  - destruct (Hp (v_decl v)) as [Hnone _]. rewrite Hnone in Hd'; done.
Qed.

(** The loop over the variables. *)
Lemma variables_visibility_ok fuel : ∀ start w w',
  variables_visibility fuel start w = Ok (tt, w') →
  (∀ p, (λ v, v <| v_externally_visible := false |>) <$> vnodes w' !! p
        = (λ v, v <| v_externally_visible := false |>) <$> vnodes w !! p)
  ∧ made_private w w'
  ∧ but_vnodes_and_trees w' = but_vnodes_and_trees w
  ∧ (flag_whole_program w = false → trees w' = trees w)
  ∧ (∀ p v', vnodes w' !! p = Some v' → v_externally_visible v' = true →
       ∃ v, vnodes w !! p = Some v
            ∧ (v_externally_visible v = true ∨ exported_variable w v))
  ∧ (∀ p, on_variable_queue w start p ∨ variable_settled w p →
       variable_settled w' p).
Proof.
  induction fuel as [|fuel IH]; intros [q|] w w' Hrun; simpl in Hrun; run;
    try (split_and!; [done | apply made_private_refl | done | done | eauto |];
         intros p [Hq|?]; [inversion Hq | done]).
  match goal with
  | Hturn : variable_visibility q w = Ok (_, ?wa),
    Hloop : variables_visibility fuel _ ?wa = Ok _,
    Hread : vnodes ?wa !! q = Some ?va |- _ =>
      rename wa into w1; rename va into v1; rename Hread into Hv1;
      apply variable_visibility_ok in Hturn
        as (v & v1' & Hv & Hv1' & Hsame & Hothers & Hp1 & Hf1 & Hc1 & Hev1
            & Hs1);
      apply IH in Hloop as (Hbut & Hp & Hf & Hc & Hev & Hs)
  end.
  rewrite Hv1 in Hv1'. injection Hv1' as <-.
  pose proof (f_equal flag_whole_program Hf1) as Hwhole1. simpl in Hwhole1.
  assert (∀ p, (λ v, v <| v_externally_visible := false |>)
                 <$> vnodes w1 !! p
               = (λ v, v <| v_externally_visible := false |>)
                   <$> vnodes w !! p) as Hbut1.
  { intros p. destruct (decide (p = q)) as [->|Hne].
    - rewrite Hv, Hv1. simpl. by rewrite Hsame.
    - by rewrite Hothers. }
  assert (∀ p, v_next_needed <$> vnodes w1 !! p
               = v_next_needed <$> vnodes w !! p) as Hlinks.
  { intros p. pose proof (Hbut1 p) as Hbp.
    destruct (vnodes w1 !! p) as [x1|], (vnodes w !! p) as [x|];
      try done. simpl in *. apply (inj Some) in Hbp.
    f_equal. exact (f_equal v_next_needed Hbp). }
  split_and!.
  - intros p. by rewrite Hbut, Hbut1.
  - by eapply made_private_trans.
  - by rewrite Hf.
  - intros Hwhole. rewrite Hc by congruence. by apply Hc1.
  - intros p v' Hv' Hvis. destruct (Hev p v' Hv' Hvis) as (m1 & Hm1 & Hcase).
    pose proof (Hbut1 p) as Hbp. rewrite Hm1 in Hbp.
    destruct (vnodes w !! p) as [m|] eqn:Hm; [|done].
    simpl in Hbp. apply (inj Some) in Hbp. exists m. split; [done|].
    assert (exported_variable w1 m1 → exported_variable w m) as Hback
      by by apply exported_variable_back.
    destruct Hcase as [Hvis1|?]; [|right; by apply Hback].
    destruct (decide (p = q)) as [->|Hne].
    + rewrite Hv in Hm. injection Hm as <-.
      rewrite Hv1 in Hm1. injection Hm1 as <-. by apply Hev1.
    + rewrite Hothers, Hm in Hm1 by done. injection Hm1 as <-. by left.
  - intros p Hcase. apply Hs. destruct (decide (p = q)) as [->|Hne].
    + by right.
    + destruct Hcase as [Hchain | Hsettled].
      * left. inversion Hchain as [|? x ? Hx Hnext]; subst; [done|].
        rewrite Hv in Hx. injection Hx as <-.
        apply (on_variable_queue_same w); [done|].
        pose proof (f_equal v_next_needed Hsame) as Hnn. simpl in Hnn.
        by rewrite Hnn.
      * right. apply (variable_settled_keep w); [by apply Hothers|done..].
Qed.

(** The stages of the pass. *)
Lemma cgraph_function_and_variable_visibility_stages fuel w w' :
  cgraph_function_and_variable_visibility fuel w = Ok (tt, w') →
  ∃ w1 w2 b w3,
    for_each (cgraph_nodes w) function_visibility w = Ok (tt, w1)
    ∧ variables_visibility fuel (cgraph_varpool_nodes_queue w) w1
      = Ok (tt, w2)
    ∧ ext (cgraph_remove_unreachable_nodes true) w2 = Ok (b, w3)
    ∧ w' = w3 <| cgraph_function_flags_ready := true |>
    ∧ vnodes w1 = vnodes w ∧ nodes w2 = nodes w1
    ∧ flag_whole_program w1 = flag_whole_program w.
Proof.
  unfold cgraph_function_and_variable_visibility. intros Hrun. run.
  match goal with
  | Hf : for_each _ _ w = Ok (_, ?w1),
    Hv : variables_visibility _ _ ?w1 = Ok (_, ?w2) |- _ =>
      pose proof (functions_visibility_ok _ _ _ Hf) as (_ & _ & Hf1 & _);
      pose proof (variables_visibility_ok _ _ _ _ Hv) as (_ & _ & Hf2 & _);
      pose proof (f_equal cgraph_varpool_nodes_queue Hf1) as Hq;
      pose proof (f_equal vnodes Hf1) as Hvn;
      pose proof (f_equal flag_whole_program Hf1) as Hwh;
      pose proof (f_equal nodes Hf2) as Hnn;
      simpl in Hq, Hvn, Hwh, Hnn; rewrite Hq in Hv
  end.
  eauto 15.
Qed.

(** X9.  In the state in which [cgraph_function_and_variable_visibility]
    calls [cgraph_remove_unreachable_nodes], every node of the chain has
    [local.local] set exactly when it is analyzed, not needed, not
    externally visible and its declaration is not external; every
    analyzed function that is not external is externally visible or has
    a declaration that is not public, so a local function is never
    public; and the trees differ from those on entry by cleared
    [TREE_PUBLIC] flags only. *)
Theorem visibility_of_functions fuel w w' :
  cgraph_function_and_variable_visibility fuel w = Ok (tt, w') →
  ∃ w2 b w3,
    ext (cgraph_remove_unreachable_nodes true) w2 = Ok (b, w3)
    ∧ w' = w3 <| cgraph_function_flags_ready := true |>
    ∧ made_private w w2
    ∧ ∀ p, p ∈ cgraph_nodes w → visibility_settled w2 p.
Proof.
  intros (w1 & w2 & b & w3 & Hf & Hv & Hx & -> & _ & Hnodes & _)
    %cgraph_function_and_variable_visibility_stages.
  apply functions_visibility_ok in Hf as (_ & Hp1 & _ & _ & _ & Hs1).
  apply variables_visibility_ok in Hv as (_ & Hp2 & _).
  exists w2, b, w3. split_and!; [done..| |].
  - by eapply made_private_trans.
  - intros p Hp. apply (visibility_settled_keep w1);
      [by rewrite Hnodes | done |]. apply Hs1. by left.
Qed.

(** X10.  The pass makes externally visible only a function that is
    reachable and is COMDAT or, outside whole-program mode, a public
    definition, and only a variable that is needed and, outside
    whole-program mode, COMDAT or public: whatever is externally visible
    when [cgraph_remove_unreachable_nodes] is called was so on entry or
    is one of these.  In whole-program mode no variable and no function
    that is not COMDAT becomes externally visible. *)
Theorem visibility_only_exported fuel w w' :
  cgraph_function_and_variable_visibility fuel w = Ok (tt, w') →
  ∃ w2 b w3,
    ext (cgraph_remove_unreachable_nodes true) w2 = Ok (b, w3)
    ∧ w' = w3 <| cgraph_function_flags_ready := true |>
    ∧ (∀ p n2, nodes w2 !! p = Some n2 →
         externally_visible (local n2) = true →
         ∃ n, nodes w !! p = Some n
              ∧ (externally_visible (local n) = true
                 ∨ exported_function w n))
    ∧ (∀ p v2, vnodes w2 !! p = Some v2 →
         v_externally_visible v2 = true →
         ∃ v, vnodes w !! p = Some v
              ∧ (v_externally_visible v = true ∨ exported_variable w v)).
Proof.
  intros (w1 & w2 & b & w3 & Hf & Hv & Hx & -> & Hvnodes & Hnodes & Hwhole)
    %cgraph_function_and_variable_visibility_stages.
  apply functions_visibility_ok in Hf as (_ & Hp1 & _ & _ & Hev1 & _).
  apply variables_visibility_ok in Hv as (_ & _ & _ & _ & Hev2 & _).
  exists w2, b, w3. split_and!; [done..| |].
  - intros p n2 Hn2. rewrite Hnodes in Hn2. by apply Hev1.
  - intros p v2 Hv2 Hvis. destruct (Hev2 p v2 Hv2 Hvis) as (v & Hv & Hcase).
    rewrite Hvnodes in Hv. exists v. split; [done|].
    destruct Hcase as [?|Hexp]; [by left|]. right.
    by apply (exported_variable_back w w1 v v).
Qed.

(** X11.  Outside whole-program mode the pass only checks the
    declarations: it changes no tree, and it returns only if every
    analyzed function of the chain whose declaration is public and not
    external was externally visible on entry or is reachable, and every
    variable of the queue whose declaration is public was externally
    visible on entry or is needed. *)
Theorem visibility_checks_public fuel w w' :
  flag_whole_program w = false →
  cgraph_function_and_variable_visibility fuel w = Ok (tt, w') →
  ∃ w2 b w3,
    ext (cgraph_remove_unreachable_nodes true) w2 = Ok (b, w3)
    ∧ w' = w3 <| cgraph_function_flags_ready := true |>
    ∧ trees w2 = trees w
    ∧ (∀ p n d, p ∈ cgraph_nodes w → nodes w !! p = Some n →
         trees w !! decl n = Some d → analyzed n = true →
         DECL_EXTERNAL d = false → TREE_PUBLIC d = true →
         externally_visible (local n) = true ∨ reachable n = true)
    ∧ (∀ p v d, on_variable_queue w (cgraph_varpool_nodes_queue w) p →
         vnodes w !! p = Some v → trees w !! v_decl v = Some d →
         TREE_PUBLIC d = true →
         v_externally_visible v = true ∨ v_needed v = true).
Proof.
  intros Hwhole
    (w1 & w2 & b & w3 & Hf & Hv & Hx & -> & Hvnodes & Hnodes & Hwhole1)
    %cgraph_function_and_variable_visibility_stages.
  apply functions_visibility_ok in Hf as (Hbut1 & Hp1 & _ & Hc1 & Hev1 & Hs1).
  apply variables_visibility_ok in Hv as (Hbut2 & Hp2 & _ & Hc2 & Hev2 & Hs2).
  assert (trees w2 = trees w) as Htrees.
  { rewrite Hc2 by congruence. by apply Hc1. }
  exists w2, b, w3. split_and!; [done..| |].
  - intros p n d Hp Hn Hd Han Hext Hpub.
    destruct (Hs1 p (or_introl Hp)) as (n1 & Hn1 & _ & _ & Hhidden).
    pose proof (Hbut1 p) as Hbp. rewrite Hn, Hn1 in Hbp.
    simpl in Hbp. apply (inj Some) in Hbp.
    pose proof (f_equal analyzed Hbp) as Han1.
    pose proof (f_equal decl Hbp) as Hdecl1. simpl in Han1, Hdecl1.
    destruct (externally_visible (local n1)) eqn:Hvis.
    + destruct (Hev1 p n1 Hn1 Hvis) as (n0 & Hn0 & [?|[? _]]);
        rewrite Hn in Hn0; injection Hn0 as <-; eauto.
    + destruct Hhidden as (d1 & Hd1 & Hcase); [congruence|done|].
      rewrite Hc1, Hdecl1, Hd in Hd1 by done. injection Hd1 as <-.
      destruct Hcase; congruence.
  - intros p v d Hp Hv Hd Hpub.
    assert (on_variable_queue w1 (cgraph_varpool_nodes_queue w) p) as Hp'.
    { apply (on_variable_queue_same w); [|done]. intros q.
      by rewrite Hvnodes. }
    destruct (Hs2 p (or_introl Hp')) as (v2 & d2 & Hv2 & Hd2 & _ & Hhidden).
    pose proof (Hbut2 p) as Hbp. rewrite Hvnodes, Hv, Hv2 in Hbp.
    simpl in Hbp. apply (inj Some) in Hbp.
    pose proof (f_equal v_decl Hbp) as Hdecl2. simpl in Hdecl2.
    destruct (v_externally_visible v2) eqn:Hvis.
    + destruct (Hev2 p v2 Hv2 Hvis) as (v0 & Hv0 & Hcase).
      rewrite Hvnodes, Hv in Hv0. injection Hv0 as <-.
      destruct Hcase as [?|(? & _)]; eauto.
    + rewrite Htrees, Hdecl2, Hd in Hd2. injection Hd2 as <-.
      rewrite Hhidden in Hpub; done.
Qed.

(** X12.  In the state in which the pass calls
    [cgraph_remove_unreachable_nodes], the declaration of every variable
    of the queue is static, and is not public unless the variable is
    externally visible. *)
Theorem visibility_of_variables fuel w w' :
  cgraph_function_and_variable_visibility fuel w = Ok (tt, w') →
  ∃ w2 b w3,
    ext (cgraph_remove_unreachable_nodes true) w2 = Ok (b, w3)
    ∧ w' = w3 <| cgraph_function_flags_ready := true |>
    ∧ ∀ p, on_variable_queue w (cgraph_varpool_nodes_queue w) p →
        variable_settled w2 p.
Proof.
  intros (w1 & w2 & b & w3 & Hf & Hv & Hx & -> & Hvnodes & _)
    %cgraph_function_and_variable_visibility_stages.
  apply variables_visibility_ok in Hv as (_ & _ & _ & _ & _ & Hs2).
  exists w2, b, w3. split_and!; [done..|].
  intros p Hp. apply Hs2. left.
  apply (on_variable_queue_same w); [|done]. intros q. by rewrite Hvnodes.
Qed.

End visibility_facts.

(** X9, witness: [g] of the sample, analyzed and not public, ends local;
    the public [f], which is needed, does not. *)
Lemma visibility_of_functions_witness :
  ∃ w', @cgraph_function_and_variable_visibility sample_ipa 2
          sample_visible_variables = Ok (tt, w')
        ∧ (∃ w2, visibility_settled w2 0 ∧ visibility_settled w2 1)
        ∧ (is_local ∘ local <$> nodes w' !! 1) = Some true
        ∧ (is_local ∘ local <$> nodes w' !! 0) = Some false.
Proof.
  destruct (@cgraph_function_and_variable_visibility sample_ipa 2
              sample_visible_variables) as [[[] w']|] eqn:Hrun;
    [|by vm_compute in Hrun].
  exists w'. split; [done|].
  destruct (@visibility_of_functions sample_ipa 2 sample_visible_variables
              w' Hrun) as (w2 & b & w3 & _ & _ & _ & Hall).
  split.
  { exists w2. split; apply Hall; by apply (bool_decide_unpack _). }
  vm_compute in Hrun. injection Hrun as <-. split; reflexivity.
Defined.

(** X10, witness: the public [f] becomes externally visible, as does the
    public variable; [g] and the other variable do not. *)
Lemma visibility_only_exported_witness :
  ∃ w', @cgraph_function_and_variable_visibility sample_ipa 2
          sample_visible_variables = Ok (tt, w')
        ∧ (externally_visible ∘ local <$> nodes w' !! 0) = Some true
        ∧ (externally_visible ∘ local <$> nodes w' !! 1) = Some false
        ∧ (v_externally_visible <$> vnodes w' !! 0) = Some false
        ∧ (v_externally_visible <$> vnodes w' !! 1) = Some true
        ∧ ∃ n, nodes sample_visible_variables !! 0 = Some n
               ∧ exported_function sample_visible_variables n.
Proof.
  destruct (@cgraph_function_and_variable_visibility sample_ipa 2
              sample_visible_variables) as [[[] w']|] eqn:Hrun;
    [|by vm_compute in Hrun].
  exists w'. split; [done|].
  destruct (@visibility_only_exported sample_ipa 2 sample_visible_variables
              w' Hrun) as (w2 & b & w3 & Hx & Hw' & Hfun & _).
  assert (∃ n2, nodes w2 !! 0 = Some n2
                ∧ externally_visible (local n2) = true) as (n2 & Hn2 & Hvis).
  { apply ext_ok in Hx as (w4 & Hx & ->). unfold sample_ipa in Hx.
    simpl in Hx. apply ret_ok in Hx as [_ ->].
    vm_compute in Hrun. injection Hrun as Hrun. rewrite <- Hrun in Hw'.
    apply (f_equal (λ w, nodes w !! 0)) in Hw'. simpl in Hw'.
    rewrite <- Hw'. eexists. split; reflexivity. }
  destruct (Hfun 0 n2 Hn2 Hvis) as (n & Hn & Hcase).
  vm_compute in Hrun. injection Hrun as <-.
  split_and!; try reflexivity. exists n. split; [done|].
  destruct Hcase as [Hwas|?]; [|done].
  vm_compute in Hn. injection Hn as <-. done.
Defined.

(** X11, witness: the sample is compiled outside whole-program mode; its
    trees are as they were. *)
Lemma visibility_checks_public_witness :
  ∃ w', @cgraph_function_and_variable_visibility sample_ipa 2
          sample_visible_variables = Ok (tt, w')
        ∧ trees w' = trees sample_visible_variables.
Proof.
  destruct (@cgraph_function_and_variable_visibility sample_ipa 2
              sample_visible_variables) as [[[] w']|] eqn:Hrun;
    [|by vm_compute in Hrun].
  exists w'. split; [done|].
  destruct (@visibility_checks_public sample_ipa 2 sample_visible_variables
              w' eq_refl Hrun) as (w2 & b & w3 & Hx & -> & Htrees & _).
  apply ext_ok in Hx as (w4 & Hx & ->). unfold sample_ipa in Hx.
  simpl in Hx. apply ret_ok in Hx as [_ ->]. exact Htrees.
Defined.

(** X12, witness: the two variables of the sample queue. *)
Lemma visibility_of_variables_witness :
  ∃ w', @cgraph_function_and_variable_visibility sample_ipa 2
          sample_visible_variables = Ok (tt, w')
        ∧ variable_settled w' 0 ∧ variable_settled w' 1.
Proof.
  destruct (@cgraph_function_and_variable_visibility sample_ipa 2
              sample_visible_variables) as [[[] w']|] eqn:Hrun;
    [|by vm_compute in Hrun].
  exists w'. split; [done|].
  destruct (@visibility_of_variables sample_ipa 2 sample_visible_variables
              w' Hrun) as (w2 & b & w3 & Hx & -> & Hall).
  apply ext_ok in Hx as (w4 & Hx & ->). unfold sample_ipa in Hx.
  simpl in Hx. apply ret_ok in Hx as [_ ->].
  assert (variable_settled w2 0 ∧ variable_settled w2 1) as [H0 H1].
  { split; apply Hall.
    - constructor.
    - eapply on_variable_queue_next; [reflexivity|]. constructor. }
  split; [destruct H0 as (v & d & ?) | destruct H1 as (v & d & ?)];
    exists v, d; done.
Defined.
(** * The bounds of the reclamation sweep *)

Section reclaim_functions_bounds.

(** X13.  The sweep stops where the previous one began: when
    [first_analyzed] is the head of the chain no node is visited and
    nothing changes.  When [first_analyzed] is not null and not on the
    chain, the sweep runs off the end of the chain and cannot return. *)
Theorem reclaim_functions_bounds stop l w :
  reclaim_functions (stop :: l) (Some stop) w = Ok (tt, w)
  ∧ (stop ∉ l → ∃ e, reclaim_functions l (Some stop) w = Err e).
Proof.
  split.
  - simpl. by rewrite decide_True.
  - revert w. induction l as [|q l IH]; intros w Hstop.
    + by exists BadPointer.
    + apply not_elem_of_cons in Hstop as [Hne Hstop]. simpl.
      rewrite decide_False by congruence.
      unfold bind at 1. destruct (reclaim_function q w) as [[[] w1]|e].
      * by apply IH.
      * by exists e.
Qed.

End reclaim_functions_bounds.

(** X13, witness: a sweep of the sample graph up to a node that is not
    on its chain. *)
Lemma reclaim_functions_bounds_witness :
  reclaim_functions [2; 1; 0] (Some 2) sample_graph = Ok (tt, sample_graph)
  ∧ ∃ e, reclaim_functions [2; 1; 0] (Some 7) sample_graph = Err e.
Proof.
  split.
  - exact (proj1 (reclaim_functions_bounds 2 [1; 0] sample_graph)).
  - apply (proj2 (reclaim_functions_bounds 7 [2; 1; 0] sample_graph)).
    by apply (bool_decide_unpack _).
Defined.
(** * Keeping the body of a function *)

Section cgraph_preserve_function_body_p_facts.
Context `{Externals}.

Lemma any_inline_clone_ok fuel : ∀ p w b w',
  any_inline_clone fuel p w = Ok (b, w') →
  w' = w
  ∧ (b = true ↔
     ∃ q x, on_clone_chain w p q ∧ nodes w !! q = Some x
            ∧ inlined_to (global x) ≠ None).
Proof.
  induction fuel as [|fuel IH]; intros [p|] w b w' Hrun; simpl in Hrun; run;
    try (split; [done|]; split; [done|];
         intros (q & x & Hq & _); by inversion Hq).
  match goal with
  | Hx : nodes w !! p = Some ?x |- _ =>
      destruct (inlined_to (global x)) as [t|] eqn:Hin; simpl in Hrun; run
  end.
  - split; [done|]. split; [|done]. intros _. eexists p, _.
    split_and!; [constructor | done | by rewrite Hin].
  - apply IH in Hrun as [-> Hiff]. split; [done|]. rewrite Hiff. split.
    + intros (q & x & Hq & Hx & Hclone). exists q, x.
      split_and!; [|done..]. by eapply on_clone_chain_next.
    + intros (q & x & Hq & Hx & Hclone).
      inversion Hq as [|? y ? Hy Hnext]; subst.
      * run. by rewrite Hin in Hclone.
      * run. eauto.
Qed.

(** X14.  Once the global information is ready (and the trees are not
    being dumped), [cgraph_preserve_function_body_p] keeps the body of a
    declaration exactly when a node on the chain of clones of its node
    has an [inlined_to]; it changes nothing when the declaration has a
    node, and for a declaration without one it creates the node and
    answers no. *)
Theorem cgraph_preserve_function_body_p_clones d w b w' :
  dump_tree_all w = false → cgraph_global_info_ready w = true →
  cgraph_preserve_function_body_p d w = Ok (b, w') →
  (∀ n0, cgraph_hash w !! d = Some n0 →
     w' = w
     ∧ (b = true ↔
        ∃ q x, on_clone_chain w (Some n0) q ∧ nodes w !! q = Some x
               ∧ inlined_to (global x) ≠ None))
  ∧ (cgraph_hash w !! d = None →
     b = false
     ∧ ∃ p, cgraph_hash w' !! d = Some p ∧ nodes w !! p = None
            ∧ nodes w' !! p = Some (new_cgraph_node d)).
Proof.
  intros Hdump Hready Hrun. unfold cgraph_preserve_function_body_p in Hrun.
  run. rew_run Hdump. run. rew_run Hready. cbn [negb] in Hrun. run.
  match goal with
  | Hn : cgraph_node_of_decl _ _ = Ok (?p, ?w1),
    Hc : any_inline_clone _ _ _ = Ok _ |- _ =>
      apply cgraph_node_of_decl_ok in Hn as (_ & _ & _ & Hhash & Hcase);
      apply any_inline_clone_ok in Hc as [-> Hiff];
      rename p into n1
  end.
  split.
  - intros n0 Hn0.
    destruct Hcase as [[Hold ->] | (Hnone & _)]; [|congruence].
    rewrite Hn0 in Hold. injection Hold as ->. done.
  - intros Hnone.
    destruct Hcase as [[Hold _] | (_ & Hfresh & Hnodes & _)]; [congruence|].
    split.
    + destruct b; [|done]. destruct Hiff as [Hiff _].
      destruct (Hiff eq_refl) as (q & x & Hq & Hx & Hclone).
      rewrite Hnodes in Hx.
      inversion Hq as [|? y ? Hy Hnext]; subst.
      * rewrite lookup_insert_eq in Hx. injection Hx as <-. done.
      * rewrite Hnodes, lookup_insert_eq in Hy. injection Hy as <-.
        inversion Hnext.
    + exists n1. rewrite Hnodes, lookup_insert_eq. done.
Qed.

End cgraph_preserve_function_body_p_facts.

(** X14, witness: the body of [g], which has an inline clone, is kept;
    that of [f] is not; asking about tree 1, which the callgraph does
    not know, creates a node. *)
Lemma cgraph_preserve_function_body_p_clones_witness :
  cgraph_preserve_function_body_p 8 sample_ready = Ok (true, sample_ready)
  ∧ cgraph_preserve_function_body_p 2 sample_ready = Ok (false, sample_ready)
  ∧ ∃ w' p, cgraph_preserve_function_body_p 1 sample_ready = Ok (false, w')
            ∧ nodes w' !! p = Some (new_cgraph_node 1).
Proof.
  split_and!.
  - destruct (cgraph_preserve_function_body_p 8 sample_ready)
      as [[b w']|] eqn:Hrun; [|by vm_compute in Hrun].
    destruct (cgraph_preserve_function_body_p_clones 8 sample_ready b w'
                eq_refl eq_refl Hrun) as [Hknown _].
    destruct (Hknown 1 eq_refl) as [-> Hiff]. f_equal. f_equal.
    apply Hiff. eexists 2, _. split_and!; [|reflexivity|done].
    eapply on_clone_chain_next; [reflexivity|]. constructor.
  - destruct (cgraph_preserve_function_body_p 2 sample_ready)
      as [[b w']|] eqn:Hrun; [|by vm_compute in Hrun].
    destruct (cgraph_preserve_function_body_p_clones 2 sample_ready b w'
                eq_refl eq_refl Hrun) as [Hknown _].
    destruct (Hknown 0 eq_refl) as [-> _].
    vm_compute in Hrun. by injection Hrun as <-.
  - destruct (cgraph_preserve_function_body_p 1 sample_ready)
      as [[b w']|] eqn:Hrun; [|by vm_compute in Hrun].
    destruct (cgraph_preserve_function_body_p_clones 1 sample_ready b w'
                eq_refl eq_refl Hrun) as [_ Hnew].
    destruct (Hnew eq_refl) as (-> & p & _ & _ & Hp). eauto.
Defined.
(** * The analysis of one function *)

Section cgraph_analyze_function_facts.
Context `{Externals}.

(** X15.  When [cgraph_analyze_function] returns, [current_function_decl]
    is null again, and the state it handed to [pop_cfun], its last call,
    has the node marked analyzed with [global.insns] equal to
    [local.self_insns]; under [flag_really_no_inline] the node is left
    inlinable only if it disregards the inline limits.  What the state
    becomes afterwards is [pop_cfun]'s doing. *)
Theorem cgraph_analyze_function_result node w w' :
  cgraph_analyze_function node w = Ok (tt, w') →
  current_function_decl w' = None
  ∧ ∃ w1 w2 n1,
      pop_cfun w1 = Ok (tt, w2)
      ∧ w' = w2 <| trace := trace w1 |> <| current_function_decl := None |>
      ∧ nodes w1 !! node = Some n1
      ∧ analyzed n1 = true
      ∧ insns (global n1) = self_insns (local n1)
      ∧ (flag_really_no_inline w1 = true → inlinable (local n1) = true →
         disregard_inline_limits (local n1) = true).
Proof.
  unfold cgraph_analyze_function. intros Hrun. run.
  split; [done|].
  match goal with
  | Hext : ext pop_cfun ?u = Ok _ |- _ =>
      apply ext_ok in Hext as (w2 & Hpop & ->); exists u, w2
  end.
  eexists. split; [exact Hpop|]. split; [done|].
  split; [simpl; by rewrite lookup_insert_eq|].
  split; [done|]. split; [done|]. simpl.
  match goal with
  | Hwhen : when (flag_really_no_inline ?u && _) _ _ = Ok _ |- _ =>
      destruct (flag_really_no_inline u) eqn:Hflag;
      [|apply when_false_ok in Hwhen; subst; by rewrite Hflag]
  end.
  match goal with
  | Hwhen : when (true && negb (disregard_inline_limits (local ?n))) _ _
            = Ok _ |- _ =>
      destruct (disregard_inline_limits (local n)) eqn:Hlimits;
      cbn [andb negb] in Hwhen; run
  end; done.
Qed.

End cgraph_analyze_function_facts.

(** X15, witness: the analysis of [f] in the sample state with a queued
    function. *)
Lemma cgraph_analyze_function_result_witness :
  ∃ w', @cgraph_analyze_function sample_externals 0 sample_queued
        = Ok (tt, w')
        ∧ current_function_decl w' = None.
Proof.
  destruct (@cgraph_analyze_function sample_externals 0 sample_queued)
    as [[[] w']|] eqn:Hrun; [|by vm_compute in Hrun].
  exists w'. split; [done|].
  exact (proj1 (@cgraph_analyze_function_result sample_externals 0
                  sample_queued w' Hrun)).
Defined.
(** * The verifier *)

Section for_each_found_facts.
Context {A : Type} (body : A → bool → M bool).

Lemma for_each_found_clean (Q : A → world → Prop) :
  (∀ x f w w', body x f w = Ok (false, w') → f = false ∧ w' = w ∧ Q x w) →
  ∀ l f w w', for_each_found l body f w = Ok (false, w') →
    f = false ∧ w' = w ∧ ∀ x, x ∈ l → Q x w.
Proof.
  intros Hbody. induction l as [|x l IH]; intros f w w' Hrun; simpl in Hrun.
  - run. split_and!; [done..|]. intros x Hx. by apply elem_of_nil in Hx.
  - apply bind_ok in Hrun as (f1 & w1 & Hx & Hl).
    apply IH in Hl as (-> & -> & Hl).
    apply Hbody in Hx as (-> & -> & Hx).
    split_and!; [done..|]. intros y [->|Hy]%elem_of_cons; auto.
Qed.

Lemma for_each_found_mono :
  (∀ x f w w', body x f w = Ok (false, w') → f = false) →
  ∀ l f w w', for_each_found l body f w = Ok (false, w') → f = false.
Proof.
  intros Hbody. induction l as [|x l IH]; intros f w w' Hrun; simpl in Hrun.
  - by run.
  - apply bind_ok in Hrun as (f1 & w1 & Hx & Hl).
    apply IH in Hl as ->. by apply Hbody in Hx.
Qed.

Lemma for_each_found_pass l w :
  (∀ x, x ∈ l → body x false w = Ok (false, w)) →
  for_each_found l body false w = Ok (false, w).
Proof.
  induction l as [|x l IH]; intros Hl; [done|]. simpl.
  unfold bind at 1. rewrite Hl by (apply elem_of_cons; by left).
  apply IH. intros y Hy. apply Hl. apply elem_of_cons. by right.
Qed.

End for_each_found_facts.

Section verify_facts.
Context `{Externals} `{Diagnostics}.

Lemma verify_callee_aux_clean e f w w' :
  verify_callee_aux e f w = Ok (false, w') →
  f = false ∧ w' = w ∧ ∃ x, edges w !! e = Some x ∧ aux x = false.
Proof.
  unfold verify_callee_aux. intros Hrun. run.
  destruct (aux ed) eqn:Haux; run; [done|]. eauto.
Qed.

Lemma verify_caller_clean node e f w w' :
  verify_caller node e f w = Ok (false, w') →
  f = false ∧ w' = w
  ∧ ∃ n x, nodes w !! node = Some n ∧ edges w !! e = Some x
      ∧ match inline_failed x with
        | None =>
            ∃ c, nodes w !! caller x = Some c
                 ∧ inlined_to (global n)
                   = Some (default (caller x) (inlined_to (global c)))
                 ∧ ∃ first, callers n = [first]
        | Some _ => inlined_to (global n) = None
        end.
Proof.
  unfold verify_caller. intros Hrun. run.
  destruct (inline_failed ed) as [reason|] eqn:Hfailed; cbn [non_null negb] in Hrun;
    run.
  - destruct (inlined_to (global nd)) eqn:Hin; cbn [non_null] in Hrun; run;
      try done.
    split_and!; [done..|]. eexists _, _. split_and!; [done..|].
    by rewrite Hfailed.
  - destruct (callers nd !! 1) as [second|] eqn:Hsecond;
      cbn [non_null] in Hrun; run; try done.
    match goal with
    | Hif : (if negb (bool_decide ?P) then _ else _) _ = Ok _ |- _ =>
        destruct (bool_decide P) eqn:Htarget; cbn [negb] in Hif; run;
        try done; apply bool_decide_eq_true in Htarget
    end.
    split_and!; [done..|]. eexists _, _. split_and!; [done..|].
    rewrite Hfailed. eexists. split_and!; [done| |].
    + rewrite Htarget. by destruct (inlined_to (global nd0)).
    + destruct (callers nd1) as [|first [|? ?]]; [done| |done]. by exists first.
Qed.

Lemma verify_call_stmt_mono node stmt f w w' :
  verify_call_stmt node stmt f w = Ok (false, w') → f = false.
Proof.
  unfold verify_call_stmt. intros Hrun. run.
  repeat match goal with
         | Hm : match ?c with Some _ => _ | None => _ end _ = Ok _ |- _ =>
             destruct c; run; try done
         | Hif : (if aux ?x then _ else _) _ = Ok _ |- _ =>
             destruct (aux x); run; try done
         end.
Qed.

Lemma verify_callee_stmt_run e f w w' :
  verify_callee_stmt e f w = Ok (false, w') →
  f = false
  ∧ ∃ x, edges w !! e = Some x
         ∧ w' = w <| edges ::= <[e := x <| aux := false |>]> |>.
Proof.
  unfold verify_callee_stmt. intros Hrun. run.
  match goal with
  | Hif : (if negb (aux ?x) then _ else _) _ = Ok _ |- _ =>
      destruct (aux x) eqn:Haux; cbn [negb] in Hif; run; try done
  end.
  eauto.
Qed.

(** The last loop clears [aux] on every edge it visits and leaves the
    rest of the state. *)
Lemma verify_callee_stmt_loop l : ∀ f w w',
  for_each_found l verify_callee_stmt f w = Ok (false, w') →
  f = false
  ∧ nodes w' = nodes w
  ∧ (∀ e x, edges w !! e = Some x → aux x = false →
       ∃ x', edges w' !! e = Some x' ∧ aux x' = false)
  ∧ ∀ e, e ∈ l → ∃ x', edges w' !! e = Some x' ∧ aux x' = false.
Proof.
  induction l as [|e l IH]; intros f w w' Hrun; simpl in Hrun.
  - run. split_and!; [done..| |]; [eauto|].
    intros e He. by apply elem_of_nil in He.
  - apply bind_ok in Hrun as (f1 & w1 & He & Hl).
    apply IH in Hl as (-> & Hnodes & Hkeep & Hl).
    apply verify_callee_stmt_run in He as (-> & x & Hx & ->).
    split_and!; [done..| |].
    + intros e' x' Hx' Haux. destruct (decide (e' = e)) as [->|Hne].
      * apply (Hkeep e (x <| aux := false |>)); [|done].
        simpl. by rewrite lookup_insert_eq.
      * apply (Hkeep e' x'); [|done]. simpl. by rewrite lookup_insert_ne.
    + intros e' [->|He']%elem_of_cons; [|by apply Hl].
      apply (Hkeep e (x <| aux := false |>)); [|done].
      simpl. by rewrite lookup_insert_eq.
Qed.

Lemma find_main_clone_same fuel : ∀ p node w r w',
  find_main_clone fuel p node w = Ok (r, w') → w' = w.
Proof.
  induction fuel as [|fuel IH]; intros [m|] node w r w' Hrun; simpl in Hrun;
    run; try done.
  - destruct (decide (m = node)); by run.
  - destruct (decide (m = node)); run; [done|]. eauto.
Qed.

Lemma verify_cgraph_node_stages fuel node w w' :
  verify_cgraph_node fuel node w = Ok (tt, w') →
  ∃ w0 w3 w4,
    timevar_push w = Ok (tt, w0)
    ∧ inline_links_consistent (w0 <| trace := trace w |>) node
    ∧ (∀ n0 d0 n d,
         nodes w !! node = Some n0 → trees w !! decl n0 = Some d0 →
         nodes w0 !! node = Some n → trees w0 !! decl n = Some d →
         body_to_verify n d = true →
         ∃ fp fn blocks, DECL_STRUCT_FUNCTION d0 = Some fp
                         ∧ functions w0 !! fp = Some fn
                         ∧ cfg fn = Some blocks)
    ∧ timevar_pop w3 = Ok (tt, w4)
    ∧ w' = w4 <| trace := trace w3 |>
    ∧ ∃ n, nodes w3 !! node = Some n
           ∧ ∀ e, e ∈ callees n →
               ∃ x, edges w3 !! e = Some x ∧ aux x = false.
Proof.
  unfold verify_cgraph_node. intros Hrun. run.
  match goal with
  | Hwhen : when ?b _ _ = Ok _ |- _ =>
      destruct b; [rewrite when_true in Hwhen; run; done|];
      apply when_false_ok in Hwhen; subst
  end.
  assert (a13 = false) as ->.
  { destruct a15; [|by run]. run.
    match goal with
    | Hfn : functions _ !! _ = Some ?fn |- _ => destruct (cfg fn); run
    end.
    match goal with
    | Hloop : for_each_found _ verify_callee_stmt _ _ = Ok _ |- _ =>
        apply verify_callee_stmt_loop in Hloop as (-> & _)
    end.
    match goal with
    | Hblocks : for_each_found _ _ ?f _ = Ok (false, _) |- ?f = false =>
        apply for_each_found_mono in Hblocks; [done|]
    end.
    intros bb f u u' Hbb. eapply for_each_found_mono; [|exact Hbb].
    intros stmt f' v v'. apply verify_call_stmt_mono. }
  cbn [non_null negb] in Hrun14. run.
  destruct (bool_decide (inlined_to (global nd1) = Some node)) eqn:Hself;
    run; [done|]. apply bool_decide_eq_false in Hself.
  destruct (negb (non_null (head (callers nd2)))
            && non_null (inlined_to (global nd2))) eqn:Hnone; run; [done|].
  eapply for_each_found_clean in Hrun6 as (-> & -> & Hcallers);
    [|intros e f u u'; apply verify_caller_clean].
  eapply for_each_found_clean in Hrun4 as (_ & -> & Hcallees);
    [|intros e f u u'; apply verify_callee_aux_clean].
  run.
  apply ext_ok in Hrun2 as (w0 & Hpush & ->).
  apply ext_ok in Hrun as (w4 & Hpop & ->).
  exists w0, w17, w4. split; [done|]. split.
  { exists nd4. split; [done|]. split; [exact Hcallees|]. split; [|split].
    - intros e He. destruct (Hcallers e He) as (n & x & Hn & Hx & Hcase).
      rewrite Hnode4 in Hn. apply (inj Some) in Hn as <-.
      exists x. split; [done|].
      destruct (inline_failed x); [done|].
      destruct Hcase as (c & Hc & Hin & first & Hfirst).
      exists c. split_and!; [done..|].
      rewrite Hfirst in He |- *. by apply list_elem_of_singleton in He as ->.
    - intros Hnil. rewrite Hnil in Hnone. simpl in Hnone.
      by destruct (inlined_to (global nd4)).
    - done. }
  apply find_main_clone_same in Hrun13 as ->.
  apply cgraph_node_of_decl_ok in Hrun12 as (Hout & Hedges & _ & _ & Hcase).
  apply outside_graph_fields in Hout as (Htrees & Hfuns & _).
  simpl in Htrees, Hfuns.
  assert (nd = nd4) as ->.
  { destruct Hcase as [[_ ->] | (_ & Hfresh & Hnodes & _)].
    - rewrite Hnode4 in Hnode. by apply (inj Some) in Hnode.
    - rewrite Hnodes, lookup_insert_ne in Hnode by congruence.
      rewrite Hnode4 in Hnode. by apply (inj Some) in Hnode. }
  split.
  { intros n0 d0 n d Hn0 Hd0 Hn Hd Hbody. simpl in Hnode4. run.
    unfold body_to_verify in Hbody.
    destruct (analyzed nd4); [|done]. cbn [andb] in Hbody. run.
    match goal with
    | Hread : trees w12 !! _ = Some _ |- _ => rewrite Htrees, Hd in Hread
    end.
    run. rewrite Hbody in Hrun17. run.
    match goal with
    | Hfn : functions w12 !! ?fp = Some ?fn |- _ =>
        rewrite Hfuns in Hfn; exists fp, fn;
        destruct (cfg fn) as [blocks|] eqn:Hcfg; run; eauto
    end. }
  split; [done|]. split; [done|].
  destruct a15.
  - run.
    match goal with
    | Hfn : functions _ !! _ = Some ?fn |- _ => destruct (cfg fn); run
    end.
    match goal with
    | Hloop : for_each_found (callees ?n) verify_callee_stmt _ _ = Ok _,
      Hn : nodes _ !! node = Some ?n |- _ =>
        apply verify_callee_stmt_loop in Hloop as (_ & Hnodes & _ & Hclear);
        exists n; split; [by rewrite Hnodes|exact Hclear]
    end.
  - assert (w16 = w12) as -> by (destruct (analyzed nd4); by run).
    run. exists nd4. split; [done|]. intros e He. rewrite Hedges.
    by apply Hcallees.
Qed.

Lemma bind_ret {A B} (a : A) (k : A → M B) w : bind (ret a) k w = k a w.
Proof. reflexivity. Qed.

Lemma bind_assoc {A B C} (m : M A) (k : A → M B) (k' : B → M C) w :
  bind (bind m k) k' w = bind m (λ a, bind (k a) k') w.
Proof. unfold bind. by destruct (m w) as [[a w1]|e]. Qed.

Lemma bind_same {A B} (m : M A) (k k' : A → M B) w :
  (∀ a w1, m w = Ok (a, w1) → k a w1 = k' a w1) → bind m k w = bind m k' w.
Proof. intros Hk. unfold bind. destruct (m w) as [[a w1]|e]; auto. Qed.

Lemma bind_the_node {B} p (k : cgraph_node → M B) w n :
  nodes w !! p = Some n → bind (the_node p) k w = k n w.
Proof. intros Hn. unfold the_node, bind, get. by rewrite Hn. Qed.

Lemma bind_the_edge {B} e (k : cgraph_edge → M B) w x :
  edges w !! e = Some x → bind (the_edge e) k w = k x w.
Proof. intros Hx. unfold the_edge, bind, get. by rewrite Hx. Qed.

Lemma bind_the_tree {B} t (k : tree_node → M B) w x :
  trees w !! t = Some x → bind (the_tree t) k w = k x w.
Proof. intros Hx. unfold the_tree, bind, get. by rewrite Hx. Qed.

Lemma verify_callee_aux_pass e w x :
  edges w !! e = Some x → aux x = false →
  verify_callee_aux e false w = Ok (false, w).
Proof.
  intros Hx Haux. unfold verify_callee_aux.
  rewrite (bind_the_edge _ _ _ _ Hx), Haux. done.
Qed.

Lemma verify_caller_pass node e w n :
  inline_links_consistent w node → nodes w !! node = Some n →
  e ∈ callers n →
  verify_caller node e false w = Ok (false, w).
Proof.
  intros (n' & Hn' & _ & Hcallers & _) Hn He.
  rewrite Hn in Hn'. apply (inj Some) in Hn' as <-.
  destruct (Hcallers e He) as (x & Hx & Hcase).
  unfold verify_caller. rewrite (bind_the_edge _ _ _ _ Hx).
  destruct (inline_failed x) as [reason|]; cbn [non_null negb].
  - rewrite (bind_the_node _ _ _ _ Hn), Hcase. done.
  - destruct Hcase as (c & Hc & Hin & Hone).
    rewrite (bind_the_node _ _ _ _ Hn), (bind_the_node _ _ _ _ Hc).
    rewrite bool_decide_true by (rewrite Hin; by destruct (inlined_to (global c))).
    cbn [negb]. unfold bind at 1. unfold ret at 1.
    rewrite (bind_the_node _ _ _ _ Hn), Hone. simpl.
    unfold bind at 1. unfold ret at 1.
    rewrite (bind_the_edge _ _ _ _ Hx). done.
Qed.

(** X16.  [verify_cgraph_node] is sound for its checks on the edges of
    the node: if it returns, then in the state [timevar_push] handed
    back no callee edge of the node had [aux] set, a node with an
    inlined caller edge had only this caller and was inlined into what
    the caller is inlined into (or into the caller), a node with a
    caller edge that was not inlined, or with no caller, had no
    [inlined_to], and the node was not inlined into itself. *)
Theorem verify_cgraph_node_sound fuel node w w' :
  verify_cgraph_node fuel node w = Ok (tt, w') →
  ∃ w0, timevar_push w = Ok (tt, w0)
        ∧ inline_links_consistent (w0 <| trace := trace w |>) node.
Proof.
  intros Hrun.
  destruct (verify_cgraph_node_stages _ _ _ _ Hrun)
    as (w0 & _ & _ & Hpush & Hlinks & _).
  by exists w0.
Qed.

(** X17.  [verify_cgraph_node] leaves no scratch mark behind: if it
    returns, every callee edge of the node has [aux] clear in the state
    it hands to [timevar_pop], its last call. *)
Theorem verify_cgraph_node_clears_aux fuel node w w' :
  verify_cgraph_node fuel node w = Ok (tt, w') →
  ∃ w3 w4 n,
    timevar_pop w3 = Ok (tt, w4) ∧ w' = w4 <| trace := trace w3 |>
    ∧ nodes w3 !! node = Some n
    ∧ ∀ e, e ∈ callees n → ∃ x, edges w3 !! e = Some x ∧ aux x = false.
Proof.
  intros Hrun.
  destruct (verify_cgraph_node_stages _ _ _ _ Hrun)
    as (_ & w3 & w4 & _ & _ & _ & Hpop & -> & n & Hn & Hclear).
  by exists w3, w4, n.
Qed.

(** X18.  On a node that is not analyzed, whose edges pass the checks
    and whose declaration the hash knows, [verify_cgraph_node] does what
    its search along the chain of clones and [timevar_pop] do: the
    outcome of the search is not looked at, so a node that is not on the
    chain of its declaration is not reported. *)
Theorem verify_cgraph_node_unanalyzed fuel node w w0 n0 d0 n m :
  nodes w !! node = Some n0 → trees w !! decl n0 = Some d0 →
  timevar_push w = Ok (tt, w0) →
  let w1 := w0 <| trace := trace w |> in
  inline_links_consistent w1 node →
  nodes w1 !! node = Some n → analyzed n = false →
  cgraph_hash w1 !! decl n = Some m →
  verify_cgraph_node fuel node w
  = (find_main_clone fuel (Some m) node ;; ext timevar_pop) w1.
Proof.
  intros Hn0 Hd0 Hpush w1 Hlinks Hn Hanalyzed Hm.
  unfold verify_cgraph_node.
  rewrite (bind_the_node _ _ _ _ Hn0), (bind_the_tree _ _ _ _ Hd0).
  assert (ext timevar_push w = Ok (tt, w1)) as Hext
    by (apply ext_ok; by exists w0).
  rewrite (bind_eq _ _ _ _ _ Hext).
  rewrite (bind_the_node _ _ _ _ Hn).
  pose proof Hlinks as (n' & Hn' & Hcallees & _ & Hnone & Hself).
  rewrite Hn in Hn'. apply (inj Some) in Hn' as <-.
  rewrite (bind_eq _ _ _ false w1).
  2:{ apply for_each_found_pass. intros e He.
      destruct (Hcallees e He) as (x & Hx & Haux).
      by apply verify_callee_aux_pass with x. }
  rewrite (bind_the_node _ _ _ _ Hn).
  rewrite (bind_eq _ _ _ false w1).
  2:{ apply for_each_found_pass. intros e He.
      by apply verify_caller_pass with n. }
  rewrite (bind_the_node _ _ _ _ Hn).
  assert (negb (non_null (head (callers n)))
          && non_null (inlined_to (global n)) = false) as ->.
  { destruct (callers n); [|done]. by rewrite Hnone. }
  cbv iota. rewrite bind_ret.
  rewrite (bind_the_node _ _ _ _ Hn), bool_decide_false by done.
  cbv iota. rewrite bind_ret.
  unfold decl_of. rewrite bind_assoc, (bind_the_node _ _ _ _ Hn), bind_ret.
  assert (cgraph_node_of_decl (decl n) w1 = Ok (m, w1)) as Hhash.
  { unfold cgraph_node_of_decl, bind, get. by rewrite Hm. }
  rewrite (bind_eq _ _ _ _ _ Hhash).
  apply bind_same. intros r w2 Hfind.
  apply find_main_clone_same in Hfind as ->.
  cbn [non_null negb]. cbv iota. rewrite bind_ret.
  rewrite (bind_the_node _ _ _ _ Hn), Hanalyzed.
  cbv iota. rewrite bind_ret. cbv iota. rewrite bind_ret.
  reflexivity.
Qed.

(** X19.  [verify_cgraph_node] does not return for a node with a body to
    compare that has no CFG: if it returns and, after [timevar_push],
    the node is analyzed with a body that is not written, and is not
    external or is an inline clone, then the function its declaration
    had on entry has a CFG. *)
Theorem verify_cgraph_node_needs_cfg fuel node w w' n0 d0 w0 n d :
  verify_cgraph_node fuel node w = Ok (tt, w') →
  nodes w !! node = Some n0 → trees w !! decl n0 = Some d0 →
  timevar_push w = Ok (tt, w0) →
  nodes w0 !! node = Some n → trees w0 !! decl n = Some d →
  body_to_verify n d = true →
  ∃ fp fn blocks, DECL_STRUCT_FUNCTION d0 = Some fp
                  ∧ functions w0 !! fp = Some fn ∧ cfg fn = Some blocks.
Proof.
  intros Hrun Hn0 Hd0 Hpush Hn Hd Hbody.
  destruct (verify_cgraph_node_stages _ _ _ _ Hrun)
    as (w0' & _ & _ & Hpush' & _ & Hcfg & _).
  rewrite Hpush in Hpush'. apply ok_pair_inv in Hpush' as [_ <-].
  by apply (Hcfg n0 d0 n d).
Qed.

End verify_facts.

(** X16, witness: the lowered function [f] of the sample verifies, and
    its edges are consistent. *)
Lemma verify_cgraph_node_sound_witness :
  ∃ w', @verify_cgraph_node calls_externals sample_diagnostics 5 0
          sample_lowered = Ok (tt, w')
        ∧ inline_links_consistent sample_lowered 0.
Proof.
  destruct (@verify_cgraph_node calls_externals sample_diagnostics 5 0
              sample_lowered) as [[[] w']|] eqn:Hrun; [|by vm_compute in Hrun].
  exists w'. split; [done|].
  destruct (@verify_cgraph_node_sound calls_externals sample_diagnostics
              5 0 sample_lowered w' Hrun) as (w0 & Hpush & Hlinks).
  apply ok_pair_inv in Hpush as [_ <-]. exact Hlinks.
Defined.

(** X17, witness: after the verification of [f], whose two callee edges
    were marked on the way, no mark is left. *)
Lemma verify_cgraph_node_clears_aux_witness :
  ∃ w' n, @verify_cgraph_node calls_externals sample_diagnostics 5 0
            sample_lowered = Ok (tt, w')
          ∧ nodes w' !! 0 = Some n
          ∧ ∀ e, e ∈ callees n → ∃ x, edges w' !! e = Some x ∧ aux x = false.
Proof.
  destruct (@verify_cgraph_node calls_externals sample_diagnostics 5 0
              sample_lowered) as [[[] w']|] eqn:Hrun; [|by vm_compute in Hrun].
  destruct (@verify_cgraph_node_clears_aux calls_externals sample_diagnostics
              5 0 sample_lowered w' Hrun)
    as (w3 & w4 & n & Hpop & -> & Hn & Hclear).
  apply ok_pair_inv in Hpop as [_ Heq]. subst.
  eexists _, n. split; [reflexivity|]. split; [exact Hn|exact Hclear].
Defined.

(** X18, witness: the inline clone of [g] in the sample graph verifies,
    although the chain of clones of its declaration does not hold it. *)
Lemma verify_cgraph_node_unanalyzed_witness :
  find_main_clone 5 (Some 1) 2 sample_graph = Ok (None, sample_graph)
  ∧ @verify_cgraph_node sample_externals sample_diagnostics 5 2 sample_graph
    = Ok (tt, sample_graph).
Proof.
  split; [reflexivity|].
  rewrite (@verify_cgraph_node_unanalyzed sample_externals sample_diagnostics
             5 2 sample_graph sample_graph
             ((new_cgraph_node 8) <| callers := [1] |>
                <| global := zero_global <| inlined_to := Some 0 |> |>)
             ((make_node FUNCTION_DECL) <| DECL_NAME := "g"%string |>)
             ((new_cgraph_node 8) <| callers := [1] |>
                <| global := zero_global <| inlined_to := Some 0 |> |>)
             1); try reflexivity.
  eexists. split; [reflexivity|]. split_and!.
  - intros e He. by apply elem_of_nil in He.
  - intros e He. apply list_elem_of_singleton in He as ->.
    eexists. split; [reflexivity|]. eexists. by split_and!.
  - done.
  - done.
Defined.

(** X19, witness: the function [f] of the sample, which verifies, has a
    CFG. *)
Lemma verify_cgraph_node_needs_cfg_witness :
  ∃ fn blocks, functions sample_lowered !! 0 = Some fn
               ∧ cfg fn = Some blocks.
Proof.
  destruct (@verify_cgraph_node calls_externals sample_diagnostics 5 0
              sample_lowered) as [[[] w']|] eqn:Hrun; [|by vm_compute in Hrun].
  destruct (@verify_cgraph_node_needs_cfg calls_externals sample_diagnostics
              5 0 sample_lowered w' _ _ sample_lowered _ _ Hrun
              eq_refl eq_refl eq_refl eq_refl eq_refl eq_refl)
    as (fp & fn & blocks & Hfp & Hfn & Hcfg).
  apply (inj Some) in Hfp as <-. by exists fn, blocks.
Defined.
(** * Finalizing a unit to which nothing was added *)

Section cgraph_finalize_compilation_unit_again_facts.
Context `{Externals}.

(** X20.  In whole-unit mode, when no variable is pending, the worklist
    is empty and [first_analyzed] is the head of the chain of nodes,
    [cgraph_finalize_compilation_unit] analyzes and reclaims nothing:
    after [finish_aliases_1] it does what [ggc_collect] does. *)
Theorem cgraph_finalize_compilation_unit_again fuel w w0 :
  finish_aliases_1 w = Ok (tt, w0) →
  let w1 := w0 <| trace := trace w |> in
  flag_unit_at_a_time w1 = true →
  cgraph_varpool_first_unanalyzed_node w1 = None →
  cgraph_nodes_queue w1 = None →
  first_analyzed w1 = head (cgraph_nodes w1) →
  cgraph_finalize_compilation_unit fuel w = ext ggc_collect w1.
Proof.
  intros Haliases w1 Hunit Hpending Hqueue Hfirst.
  unfold cgraph_finalize_compilation_unit.
  assert (ext finish_aliases_1 w = Ok (tt, w1)) as Hext
    by (apply ext_ok; by exists w0).
  rewrite (bind_eq _ _ _ _ _ Hext). clearbody w1. clear Hext Haliases.
  rewrite bind_gets, Hunit. cbn [negb].
  assert (cgraph_varpool_analyze_pending_decls fuel w1 = Ok (false, w1))
    as Hvars.
  { unfold cgraph_varpool_analyze_pending_decls.
    destruct fuel; simpl; unfold bind, get; by rewrite Hpending. }
  rewrite (bind_eq _ _ _ _ _ Hvars).
  assert (analyze_queued_functions fuel w1 = Ok (tt, w1)) as Hfuns.
  { destruct fuel; simpl; unfold bind, get; by rewrite Hqueue. }
  rewrite (bind_eq _ _ _ _ _ Hfuns).
  unfold bind at 1. unfold get at 1.
  assert (reclaim_functions (cgraph_nodes w1) (first_analyzed w1) w1
          = Ok (tt, w1)) as Hsweep.
  { rewrite Hfirst. destruct (cgraph_nodes w1) as [|node l]; [done|].
    simpl. by rewrite decide_True. }
  rewrite (bind_eq _ _ _ _ _ Hsweep), bind_modify.
  f_equal. destruct w1. simpl in *. by rewrite Hfirst.
Qed.

End cgraph_finalize_compilation_unit_again_facts.

(** X20, witness: the sample graph with the head of its chain recorded
    as [first_analyzed] is left as it is. *)
Lemma cgraph_finalize_compilation_unit_again_witness :
  @cgraph_finalize_compilation_unit sample_externals 0
    (sample_graph <| first_analyzed := Some 2 |>)
  = Ok (tt, sample_graph <| first_analyzed := Some 2 |>).
Proof.
  rewrite (@cgraph_finalize_compilation_unit_again sample_externals 0
             (sample_graph <| first_analyzed := Some 2 |>)
             (sample_graph <| first_analyzed := Some 2 |>));
    reflexivity.
Defined.
